(** * A model of [RawMemory<T>] and [Vector<T>] (advanced-vector/vector.h)

    The container manages object lifetimes by hand inside raw blocks
    obtained from [operator new].  The model therefore has

    - a heap of raw blocks, each a list of slots that are either
      uninitialised storage or hold a live object of the element type;
    - a store of [Vector] objects addressed by location, so that
      [this != &other] is a comparison of locations;
    - a log of the element-level operations that ran (constructors,
      assignments, destructors), in the order in which they ran;
    - three ways for a call to end: it returns, it propagates an
      exception, or it leaves the behaviour defined by the language
      (a failed [assert], a use of storage that holds no object, an
      [operator delete] of an address that [operator new] never returned);
      the last one records the state in which the offending step was
      attempted.

    The element type is a parameter: its special member functions are the
    fields of the class [Element] and each of them may throw.

    Element counts are natural numbers; byte counts are integers reduced
    modulo [2^64] as a [size_t] is.  The one product the code hands to
    [operator new], [count * sizeof(T)], is computed with that wrap-around,
    so a request for more elements than [SIZE_MAX / sizeof(T)] obtains the
    smaller block the wrapped byte count describes.  [operator new] returns
    no block of more than [PTRDIFF_MAX] bytes, so a capacity that describes
    the buffer is below [2^63] and [Capacity() * 2] is the plain product.
    A subtraction that the code leaves unguarded and that would go below
    zero (a position or an address supplied by the caller, [size_ - 1] of
    an empty vector) yields an address outside every block; the model
    stops there with a fault instead of truncating. *)

From stdpp Require Import gmap list.

Set Default Proof Using "Type".

(** ** Element types *)

(** The element-level operations a call runs are logged in order. *)
Inductive event (T : Type) : Type :=
  | EvConstruct (v : T)          (* T(args...) produced v *)
  | EvDefault (v : T)            (* new (p) T produced v *)
  | EvValue (v : T)              (* new (p) T() produced v *)
  | EvCopy (v : T)               (* T(const T&) from an object of value v *)
  | EvMove (v : T)               (* T(T&&) from an object of value v *)
  | EvCopyAssign (d s : T)       (* d = s *)
  | EvMoveAssign (d s : T)       (* d = std::move(s) *)
  | EvDestroy (v : T).           (* ~T() on an object of value v *)
Arguments EvConstruct {T} v.
Arguments EvDefault {T} v.
Arguments EvValue {T} v.
Arguments EvCopy {T} v.
Arguments EvMove {T} v.
Arguments EvCopyAssign {T} d s.
Arguments EvMoveAssign {T} d s.
Arguments EvDestroy {T} v.

(** What the container needs from [T].  [None] stands for "the operation
    throws"; an operation that throws leaves its operands as they were.
    A move returns the new object together with what is left in the
    source.  The two initialisations without arguments have no operand:
    what they produce, and whether they throw, may differ from one call to
    the next, so they are functions of the element operations that ran
    before. *)
Class Element (T : Type) := {
  (** [new (p) T], default-initialisation: the default constructor of a
      class type, an indeterminate value for a scalar *)
  T_default : list (event T) → option T;
  (** [new (p) T()], value-initialisation: the default constructor of a
      class type that declares one, zero for a scalar *)
  T_value : list (event T) → option T;
  (** [T(const T&)] *)
  T_copy : T → option T;
  (** [T(T&&)]: the new object and the moved-from source *)
  T_move : T → option (T * T);
  (** [dst = src] for [const T& src]: the new value of [dst] *)
  T_copy_assign : T → T → option T;
  (** [dst = std::move(src)]: the new values of [dst] and of [src] *)
  T_move_assign : T → T → option (T * T);
  (** [std::is_nothrow_move_constructible_v<T>] *)
  is_nothrow_move_constructible : bool;
  (** [std::is_copy_constructible_v<T>] *)
  is_copy_constructible : bool;
}.

(** Value semantics: a copy or a move that succeeds produces the value of
    its source, and a move constructor declared [noexcept] does not throw. *)
Class ElementLaws (T : Type) `{Element T} := {
  copy_value v v' : T_copy v = Some v' → v' = v;
  move_value v v' r : T_move v = Some (v', r) → v' = v;
  copy_assign_value d s d' : T_copy_assign d s = Some d' → d' = s;
  move_assign_value d s d' r : T_move_assign d s = Some (d', r) → d' = s;
  nothrow_move v : is_nothrow_move_constructible = true → is_Some (T_move v);
}.

(** The platform: [sizeof(T)], itself a [size_t]; whether the free store
    has a block of a given number of bytes left; and whether [assert] is
    compiled out. *)
Definition SIZE_MAX : Z := 2 ^ 64 - 1.
Definition PTRDIFF_MAX : Z := 2 ^ 63 - 1.

Class Platform := {
  sizeof_T : positive;
  sizeof_T_max : (Z.pos sizeof_T <=? SIZE_MAX)%Z = true;
  has_memory : Z → bool;
  NDEBUG : bool;
}.

(** [count * sizeof(T)] as the [size_t] the code computes *)
Definition byte_count `{Platform} (count : nat) : Z :=
  (Z.of_nat count * Z.pos sizeof_T) mod (SIZE_MAX + 1).

(** [count * sizeof(T)] does not wrap around *)
Definition representable `{Platform} (count : nat) : Prop :=
  (Z.of_nat count * Z.pos sizeof_T ≤ SIZE_MAX)%Z.

(** [operator new] satisfies a request of [size] bytes: no block exceeds
    [PTRDIFF_MAX] bytes *)
Definition satisfiable `{Platform} (size : Z) : bool :=
  (size <=? PTRDIFF_MAX)%Z && has_memory size.

(** a buffer of [count] elements is at most [PTRDIFF_MAX] bytes *)
Definition fits `{Platform} (count : nat) : Prop :=
  (Z.of_nat count * Z.pos sizeof_T ≤ PTRDIFF_MAX)%Z.

(** a buffer of [count] elements can be had: its byte count is at most
    [PTRDIFF_MAX], so it does not wrap, and the free store has a block of
    that size *)
Definition can_allocate `{Platform} (count : nat) : bool :=
  satisfiable (Z.of_nat count * Z.pos sizeof_T).

(** ** Memory *)

Inductive slot (T : Type) : Type :=
  | Uninit
  | Live (v : T).
Arguments Uninit {T}.
Arguments Live {T} v.

(** A [T*]: a block and an element offset into it; [nullptr] has no block. *)
Record ptr := Ptr { ptr_block : option nat; ptr_off : nat }.

Definition nullptr : ptr := Ptr None 0.
Definition ptr_add (p : ptr) (k : nat) : ptr := Ptr (ptr_block p) (ptr_off p + k).
Definition ptr_sub (p : ptr) (k : nat) : ptr := Ptr (ptr_block p) (ptr_off p - k).
(** [last - first] for [first <= last] in one array *)
Definition ptr_diff (last first : ptr) : nat := ptr_off last - ptr_off first.

Global Instance ptr_eq_dec : EqDecision ptr.
Proof. solve_decision. Defined.

Inductive exn := bad_alloc | element_exn.

Inductive fault :=
  | AssertFailed      (* an assert whose condition is false *)
  | BadPointer        (* null, released or out-of-range address used *)
  | NotLive           (* an object is used where none lives *)
  | InvalidDelete     (* operator delete of an address not from operator new *)
  | SizeWrap          (* a size_t subtraction below zero used as a count *)
  | NoObject.         (* a Vector location that holds no Vector *)

(** [RawMemory<T>]: [buffer_] and [capacity_].  [buffer_] only ever holds
    [nullptr] or what [Allocate] returned, the address at which a block
    starts, so it is kept as the block ([None] for [nullptr]). *)
Record RawMemory := mkRawMemory { buffer_ : option nat; capacity_ : nat }.

(** [Vector<T>]: [data_] and [size_]. *)
Record Vector := mkVector { data_ : RawMemory; size_ : nat }.

Record state (T : Type) := State {
  heap : gmap nat (list (slot T));
  objs : gmap nat Vector;
  log : list (event T);
}.
Arguments State {T} heap objs log.
Arguments heap {T} s.
Arguments objs {T} s.
Arguments log {T} s.

Inductive outcome (T A : Type) : Type :=
  | Ok (a : A) (σ : state T)
  | Throw (e : exn) (σ : state T)
  | Fault (f : fault) (σ : state T).
Arguments Ok {T A} a σ.
Arguments Throw {T A} e σ.
Arguments Fault {T A} f σ.

(** ** The monad of calls *)

Definition M (T A : Type) : Type := state T → outcome T A.

Definition ret {T A} (a : A) : M T A := fun σ => Ok a σ.

Definition bind {T A B} (m : M T A) (k : A → M T B) : M T B :=
  fun σ => match m σ with
           | Ok a σ' => k a σ'
           | Throw e σ' => Throw e σ'
           | Fault f σ' => Fault f σ'
           end.

Definition throw {T A} (e : exn) : M T A := fun σ => Throw e σ.
Definition fail {T A} (f : fault) : M T A := fun σ => Fault f σ.

(** [try { m } catch (...) { h }] *)
Definition try_catch {T A} (m : M T A) (h : exn → M T A) : M T A :=
  fun σ => match m σ with
           | Throw e σ' => h e σ'
           | r => r
           end.

Notation "'do' x ← m ; k" := (bind m (fun x => k))
  (at level 10, x name, m at level 100, k at level 200,
   format "'[v' 'do'  x  ←  m ; '/' k ']'").
Notation "'exec' m ; k" := (bind m (fun _ => k))
  (at level 10, m at level 100, k at level 200,
   format "'[v' 'exec'  m ; '/' k ']'").

Section primitives.
Context {T : Type} `{Element T} `{Platform}.

Definition get_heap : M T (gmap nat (list (slot T))) := fun σ => Ok (heap σ) σ.
Definition set_heap (h : gmap nat (list (slot T))) : M T unit :=
  fun σ => Ok tt (State h (objs σ) (log σ)).
Definition get_objs : M T (gmap nat Vector) := fun σ => Ok (objs σ) σ.
Definition set_objs (o : gmap nat Vector) : M T unit :=
  fun σ => Ok tt (State (heap σ) o (log σ)).
Definition get_log : M T (list (event T)) := fun σ => Ok (log σ) σ.
Definition emit (e : event T) : M T unit :=
  fun σ => Ok tt (State (heap σ) (objs σ) (log σ ++ [e])).

(** [assert(b)] *)
Definition assert_ (b : bool) : M T unit :=
  if NDEBUG then ret tt else if b then ret tt else fail AssertFailed.

(** [p - k], which must stay inside the array *)
Definition ptr_back (p : ptr) (k : nat) : M T ptr :=
  if decide (k ≤ ptr_off p) then ret (ptr_sub p k) else fail BadPointer.

(** [pos - first] as a [size_t], for [pos] in the array that starts at
    [first] *)
Definition distance (first pos : ptr) : M T nat :=
  if decide (ptr_block pos = ptr_block first ∧ ptr_off first ≤ ptr_off pos)
  then ret (ptr_diff pos first)
  else fail BadPointer.

(** The slot a pointer designates. *)
Definition load_slot (p : ptr) : M T (slot T) :=
  do h ← get_heap;
  match ptr_block p with
  | None => fail BadPointer
  | Some b =>
      match h !! b with
      | None => fail BadPointer
      | Some buf =>
          match buf !! ptr_off p with
          | None => fail BadPointer
          | Some s => ret s
          end
      end
  end.

Definition store_slot (p : ptr) (s : slot T) : M T unit :=
  do h ← get_heap;
  match ptr_block p with
  | None => fail BadPointer
  | Some b =>
      match h !! b with
      | None => fail BadPointer
      | Some buf =>
          if decide (ptr_off p < length buf)
          then set_heap (<[b := <[ptr_off p := s]> buf]> h)
          else fail BadPointer
      end
  end.

(** [*p] used as an object *)
Definition deref (p : ptr) : M T T :=
  do s ← load_slot p;
  match s with
  | Live v => ret v
  | Uninit => fail NotLive
  end.

(** the object at [p] takes the value [v] *)
Definition update (p : ptr) (v : T) : M T unit :=
  do _ ← deref p;
  store_slot p (Live v).

(** [new (p) T(...)] once the constructor produced [v] *)
Definition place (p : ptr) (v : T) : M T unit :=
  do _ ← load_slot p;
  store_slot p (Live v).

(** [operator new(size)]: a new block of [size] bytes, which has room
    for [size / sizeof(T)] objects of type [T] *)
Definition operator_new (size : Z) : M T ptr :=
  if satisfiable size then
    do h ← get_heap;
    let b := fresh (dom h) in
    exec set_heap (<[b := replicate (Z.to_nat (size / Z.pos sizeof_T)) Uninit]> h);
    ret (Ptr (Some b) 0)
  else throw bad_alloc.

(** [operator delete(p)] *)
Definition operator_delete (p : ptr) : M T unit :=
  match ptr_block p with
  | None => if decide (ptr_off p = 0) then ret tt else fail InvalidDelete
  | Some b =>
      do h ← get_heap;
      match h !! b with
      | None => fail InvalidDelete
      | Some _ =>
          if decide (ptr_off p = 0) then set_heap (delete b h)
          else fail InvalidDelete
      end
  end.

(** *** Special member functions of [T] applied in memory *)

(** [new (dst) T(args...)], where running the constructor gives [mk] *)
Definition construct_at (dst : ptr) (mk : option T) : M T unit :=
  match mk with
  | None => throw element_exn
  | Some v => exec emit (EvConstruct v); place dst v
  end.

(** [new (dst) T] *)
Definition default_construct_at (dst : ptr) : M T unit :=
  do l ← get_log;
  match T_default l with
  | None => throw element_exn
  | Some v => exec emit (EvDefault v); place dst v
  end.

(** [new (dst) T()] *)
Definition value_construct_at (dst : ptr) : M T unit :=
  do l ← get_log;
  match T_value l with
  | None => throw element_exn
  | Some v => exec emit (EvValue v); place dst v
  end.

(** [new (dst) T( *src )] *)
Definition copy_construct_at (dst src : ptr) : M T unit :=
  do v ← deref src;
  match T_copy v with
  | None => throw element_exn
  | Some v' => exec emit (EvCopy v); place dst v'
  end.

(** [new (dst) T(std::move( *src ))] *)
Definition move_construct_at (dst src : ptr) : M T unit :=
  do v ← deref src;
  match T_move v with
  | None => throw element_exn
  | Some (v', r) => exec emit (EvMove v); exec update src r; place dst v'
  end.

(** [*dst = *src] *)
Definition copy_assign_at (dst src : ptr) : M T unit :=
  do s ← deref src;
  do d ← deref dst;
  match T_copy_assign d s with
  | None => throw element_exn
  | Some d' => exec emit (EvCopyAssign d s); update dst d'
  end.

(** [*dst = std::move( *src )] *)
Definition move_assign_at (dst src : ptr) : M T unit :=
  do s ← deref src;
  do d ← deref dst;
  match T_move_assign d s with
  | None => throw element_exn
  | Some (d', r) =>
      exec emit (EvMoveAssign d s); exec update src r; update dst d'
  end.

(** [std::destroy_at(p)], [p->~T()] *)
Definition destroy_at (p : ptr) : M T unit :=
  do v ← deref p;
  exec emit (EvDestroy v);
  store_slot p Uninit.

End primitives.

(** ** Standard algorithms used by the container

    [<memory>] and [<algorithm>] are not part of the repository; these are
    the loops the C++ standard prescribes for them, including the clean-up
    of the [uninitialized_*] family: when a constructor throws, the objects
    already constructed in the destination are destroyed and the exception
    is rethrown. *)

Section algorithms.
Context {T : Type} `{Element T} `{Platform}.

(** a local's destructor (or any clean-up) run while an exception unwinds *)
Definition unwind {A} (m : M T A) (cleanup : M T unit) : M T A :=
  try_catch m (fun e => exec cleanup; throw e).

(** [std::destroy_n(first, count)] *)
Fixpoint destroy_n (first : ptr) (count : nat) : M T unit :=
  match count with
  | 0 => ret tt
  | S k => exec destroy_at first; destroy_n (ptr_add first 1) k
  end.

(** The common loop of the [uninitialized_*_n] algorithms: [step i]
    constructs element [i] of the destination. *)
Fixpoint uninitialized_loop (step : nat → M T unit) (d_first : ptr)
    (i count : nat) : M T unit :=
  match count with
  | 0 => ret tt
  | S k =>
      exec unwind (step i) (destroy_n d_first i);
      uninitialized_loop step d_first (S i) k
  end.

(** [std::uninitialized_copy_n(first, count, d_first)] *)
Definition uninitialized_copy_n (first : ptr) (count : nat) (d_first : ptr) : M T unit :=
  uninitialized_loop
    (fun i => copy_construct_at (ptr_add d_first i) (ptr_add first i))
    d_first 0 count.

(** [std::uninitialized_move_n(first, count, d_first)] *)
Definition uninitialized_move_n (first : ptr) (count : nat) (d_first : ptr) : M T unit :=
  uninitialized_loop
    (fun i => move_construct_at (ptr_add d_first i) (ptr_add first i))
    d_first 0 count.

(** [std::uninitialized_default_construct_n(first, count)] *)
Definition uninitialized_default_construct_n (first : ptr) (count : nat) : M T unit :=
  uninitialized_loop (fun i => default_construct_at (ptr_add first i)) first 0 count.

(** [std::uninitialized_value_construct_n(first, count)] *)
Definition uninitialized_value_construct_n (first : ptr) (count : nat) : M T unit :=
  uninitialized_loop (fun i => value_construct_at (ptr_add first i)) first 0 count.

Fixpoint copy_loop (first d_first : ptr) (count : nat) : M T unit :=
  match count with
  | 0 => ret tt
  | S k =>
      exec copy_assign_at d_first first;
      copy_loop (ptr_add first 1) (ptr_add d_first 1) k
  end.

(** [std::copy(first, last, d_first)] *)
Definition copy (first last d_first : ptr) : M T unit :=
  if decide (ptr_off first ≤ ptr_off last)
  then copy_loop first d_first (ptr_diff last first)
  else fail BadPointer.

Fixpoint move_loop (first d_first : ptr) (count : nat) : M T unit :=
  match count with
  | 0 => ret tt
  | S k =>
      exec move_assign_at d_first first;
      move_loop (ptr_add first 1) (ptr_add d_first 1) k
  end.

(** [std::move(first, last, d_first)] *)
Definition move (first last d_first : ptr) : M T unit :=
  if decide (ptr_off first ≤ ptr_off last)
  then move_loop first d_first (ptr_diff last first)
  else fail BadPointer.

Fixpoint move_backward_loop (last d_last : ptr) (count : nat) : M T unit :=
  match count with
  | 0 => ret tt
  | S k =>
      exec move_assign_at (ptr_sub d_last 1) (ptr_sub last 1);
      move_backward_loop (ptr_sub last 1) (ptr_sub d_last 1) k
  end.

(** [std::move_backward(first, last, d_last)] *)
Definition move_backward (first last d_last : ptr) : M T unit :=
  if decide (ptr_off first ≤ ptr_off last ∧ ptr_diff last first ≤ ptr_off d_last)
  then move_backward_loop last d_last (ptr_diff last first)
  else fail BadPointer.

End algorithms.

(** ** [RawMemory<T>] *)

Section raw_memory.
Context {T : Type} `{Element T} `{Platform}.

(** [RawMemory() = default] *)
Definition RawMemory_default : RawMemory := mkRawMemory None 0.

(** [static T* Allocate(count)] *)
Definition Allocate (count : nat) : M T (option nat) :=
  if decide (count ≠ 0) then
    do p ← operator_new (byte_count count);
    ret (ptr_block p)
  else ret None.

(** [static void Deallocate(T* buff) noexcept] *)
Definition Deallocate (buff : option nat) : M T unit :=
  operator_delete (Ptr buff 0).

(** [explicit RawMemory(count)] *)
Definition RawMemory_new (count : nat) : M T RawMemory :=
  do b ← Allocate count;
  ret (mkRawMemory b count).

(** [RawMemory(RawMemory&& other) noexcept]: the new object and [other]
    afterwards *)
Definition RawMemory_move (other : RawMemory) : RawMemory * RawMemory :=
  (mkRawMemory (buffer_ other) (capacity_ other), mkRawMemory None 0).

(** [~RawMemory()] *)
Definition RawMemory_dtor (m : RawMemory) : M T unit := Deallocate (buffer_ m).

Definition RawMemory_Capacity (m : RawMemory) : nat := capacity_ m.
Definition GetAddress (m : RawMemory) : ptr := Ptr (buffer_ m) 0.

(** [T& operator[](index) noexcept], as the address of the element *)
Definition RawMemory_index (m : RawMemory) (index : nat) : M T ptr :=
  exec assert_ (index <? capacity_ m);
  ret (ptr_add (GetAddress m) index).

(** [T* operator+(offset) noexcept] *)
Definition RawMemory_plus (m : RawMemory) (offset : nat) : M T ptr :=
  exec assert_ (offset <=? capacity_ m);
  ret (ptr_add (GetAddress m) offset).

(** [RawMemory& operator=(RawMemory&& other) noexcept]; [same] tells
    whether [this == &other].  Gives [*this] and [other] afterwards. *)
Definition RawMemory_move_assign (same : bool) (this other : RawMemory)
    : RawMemory * RawMemory :=
  if same then (this, other)
  else (mkRawMemory (buffer_ other) (capacity_ other), mkRawMemory None 0).

(** [void Swap(RawMemory& other) noexcept]: [*this] and [other] afterwards *)
Definition RawMemory_Swap (this other : RawMemory) : RawMemory * RawMemory :=
  (mkRawMemory (buffer_ other) (capacity_ other),
   mkRawMemory (buffer_ this) (capacity_ this)).

End raw_memory.

(** ** Objects of class [Vector] *)

Section objects.
Context {T : Type} `{Element T} `{Platform}.

(** the fields of the [Vector] at location [this] *)
Definition load (this : nat) : M T Vector :=
  do o ← get_objs;
  match o !! this with
  | Some v => ret v
  | None => fail NoObject
  end.

Definition store (this : nat) (v : Vector) : M T unit :=
  do o ← get_objs;
  set_objs (<[this := v]> o).

(** [this->data_ = d] and [this->size_ = n] as field updates *)
Definition set_data (this : nat) (d : RawMemory) : M T unit :=
  do v ← load this;
  store this (mkVector d (size_ v)).

Definition set_size (this : nat) (n : nat) : M T unit :=
  do v ← load this;
  store this (mkVector (data_ v) n).

(** the end of an object's lifetime: its location holds no [Vector] *)
Definition release (this : nat) : M T unit :=
  do o ← get_objs;
  set_objs (delete this o).

(** a location for a local [Vector] *)
Definition local_object : M T nat :=
  do o ← get_objs;
  ret (fresh (dom o)).

(** [std::is_nothrow_move_constructible_v<T> || !std::is_copy_constructible_v<T>] *)
Definition relocate_by_move : bool :=
  is_nothrow_move_constructible || negb is_copy_constructible.

End objects.

(** ** [Vector<T>] as in advanced-vector/vector.h *)

Module VectorH.
Section vector.
Context {T : Type} `{Element T} `{Platform}.

(** [Vector() = default] *)
Definition Vector_default (this : nat) : M T unit :=
  store this (mkVector RawMemory_default 0).

(** [explicit Vector(count)] *)
Definition Vector_sized (this : nat) (count : nat) : M T unit :=
  do d ← RawMemory_new count;
  exec unwind (uninitialized_value_construct_n (GetAddress d) count)
              (RawMemory_dtor d);
  store this (mkVector d count).

(** [Vector(const Vector& other)] *)
Definition Vector_copy (this other : nat) : M T unit :=
  do o ← load other;
  do d ← RawMemory_new (size_ o);
  exec unwind (uninitialized_copy_n (GetAddress (data_ o)) (size_ o) (GetAddress d))
              (RawMemory_dtor d);
  store this (mkVector d (size_ o)).

(** [Vector(Vector&& other) noexcept] *)
Definition Vector_move (this other : nat) : M T unit :=
  do o ← load other;
  let '(d, od) := RawMemory_move (data_ o) in
  exec set_data other od;
  (* size_(std::exchange(other.size_, 0)) *)
  exec set_size other 0;
  store this (mkVector d (size_ o)).

(** [static void Destroy(T* buf) noexcept] *)
Definition Destroy (buf : ptr) : M T unit := destroy_at buf.

(** [static void DestroyN(T* buf, count) noexcept]:
    [for (i = 0; i != count; ++i) Destroy(buf + i)] *)
Fixpoint DestroyN_from (buf : ptr) (i count : nat) : M T unit :=
  match count with
  | 0 => ret tt
  | S k => exec Destroy (ptr_add buf i); DestroyN_from buf (S i) k
  end.

Definition DestroyN (buf : ptr) (count : nat) : M T unit :=
  DestroyN_from buf 0 count.

(** [~Vector()] *)
Definition Vector_dtor (this : nat) : M T unit :=
  do v ← load this;
  exec DestroyN (GetAddress (data_ v)) (size_ v);
  exec RawMemory_dtor (data_ v);
  release this.

Definition begin (v : Vector) : ptr := GetAddress (data_ v).
Definition cbegin (v : Vector) : ptr := GetAddress (data_ v).
(** [end()] and [cend()]: [data_ + size_] *)
Definition end_ (v : Vector) : M T ptr := RawMemory_plus (data_ v) (size_ v).
Definition cend (v : Vector) : M T ptr := RawMemory_plus (data_ v) (size_ v).

Definition Capacity (v : Vector) : nat := RawMemory_Capacity (data_ v).
Definition Size (v : Vector) : nat := size_ v.

(** [static void CopyOrMove(T* from, T* to, count)] *)
Definition CopyOrMove (from to : ptr) (count : nat) : M T unit :=
  if relocate_by_move then uninitialized_move_n from count to
  else uninitialized_copy_n from count to.

(** [void Reserve(new_capacity)] *)
Definition Reserve (this : nat) (new_capacity : nat) : M T unit :=
  do v ← load this;
  if new_capacity <=? RawMemory_Capacity (data_ v) then ret tt
  else
    do new_data ← RawMemory_new new_capacity;
    exec unwind
      (exec CopyOrMove (GetAddress (data_ v)) (GetAddress new_data) (size_ v);
       destroy_n (GetAddress (data_ v)) (size_ v))
      (RawMemory_dtor new_data);
    let '(d, new_data') := RawMemory_Swap (data_ v) new_data in
    exec set_data this d;
    RawMemory_dtor new_data'.

(** [void Resize(new_size)] *)
Definition Resize (this : nat) (new_size : nat) : M T unit :=
  do v ← load this;
  exec (if new_size <? RawMemory_Capacity (data_ v) then
          if new_size <? size_ v then
            destroy_n (ptr_add (GetAddress (data_ v)) new_size) (size_ v - new_size)
          else if size_ v <? new_size then
            uninitialized_default_construct_n
              (ptr_add (GetAddress (data_ v)) (size_ v)) (new_size - size_ v)
          else ret tt
        else if RawMemory_Capacity (data_ v) <? new_size then
          exec Reserve this new_size;
          do v' ← load this;
          uninitialized_default_construct_n
            (ptr_add (GetAddress (data_ v')) (size_ v')) (new_size - size_ v')
        else ret tt);
  set_size this new_size.

(** [void PopBack() noexcept] *)
Definition PopBack (this : nat) : M T unit :=
  do v ← load this;
  exec assert_ (0 <? size_ v);
  do last ← ptr_back (ptr_add (GetAddress (data_ v)) (size_ v)) 1;
  exec destroy_at last;
  set_size this (size_ v - 1).

(** [void EmplaceWithAllocate(position, args...)]; [mk] is what
    [T(std::forward<Args>(args)...)] evaluates to *)
Definition EmplaceWithAllocate (this : nat) (position : nat) (mk : option T) : M T unit :=
  do v ← load this;
  if decide (size_ v = 0) then
    do temp ← RawMemory_new (size_ v + 1);
    exec unwind (construct_at (GetAddress temp) mk) (RawMemory_dtor temp);
    let '(d, temp') := RawMemory_Swap (data_ v) temp in
    exec set_data this d;
    RawMemory_dtor temp'
  else
    do temp ← RawMemory_new (RawMemory_Capacity (data_ v) * 2);
    exec unwind
      (do slot ← RawMemory_plus temp position;
       exec construct_at slot mk;
       exec CopyOrMove (GetAddress (data_ v)) (GetAddress temp) position;
       do from ← RawMemory_plus (data_ v) position;
       do to ← RawMemory_plus temp position;
       if decide (position ≤ size_ v)
       then CopyOrMove from (ptr_add to 1) (size_ v - position)
       else fail SizeWrap)
      (RawMemory_dtor temp);
    let '(d, temp') := RawMemory_Swap (data_ v) temp in
    exec set_data this d;
    exec destroy_n (GetAddress temp') (size_ v);
    RawMemory_dtor temp'.

(** [void EmplaceWithoutAllocate(position, args...)] *)
Definition EmplaceWithoutAllocate (this : nat) (position : nat) (mk : option T) : M T unit :=
  do v ← load this;
  if position <? size_ v then
    try_catch
      (* T new_elem = T(std::forward<Args>(args)...); *)
      (match mk with
       | None => throw element_exn
       | Some new_elem =>
           exec emit (EvConstruct new_elem);
           do left ← unwind
             (do slot ← RawMemory_plus (data_ v) (size_ v);
              do back ← RawMemory_index (data_ v) (size_ v - 1);
              exec move_construct_at slot back;
              do first ← RawMemory_plus (data_ v) position;
              do last ← end_ v;
              do before ← ptr_back last 1;
              exec move_backward first before last;
              (* *(begin() + position) = std::forward<T>(new_elem); *)
              do d ← deref (ptr_add (begin v) position);
              match T_move_assign d new_elem with
              | None => throw element_exn
              | Some (d', r) =>
                  exec emit (EvMoveAssign d new_elem);
                  exec update (ptr_add (begin v) position) d';
                  ret r
              end)
             (emit (EvDestroy new_elem));
           (* new_elem goes out of scope *)
           emit (EvDestroy left)
       end)
      (fun e =>
         do last ← end_ v;
         exec operator_delete last;
         throw e)
  else
    do last ← RawMemory_plus (data_ v) (size_ v);
    construct_at last mk.

(** [iterator Emplace(const_iterator pos, args...)] *)
Definition Emplace (this : nat) (pos : ptr) (mk : option T) : M T ptr :=
  do v ← load this;
  do position ← distance (begin v) pos;
  exec (if decide (size_ v = RawMemory_Capacity (data_ v))
        then EmplaceWithAllocate this position mk
        else EmplaceWithoutAllocate this position mk);
  do v ← load this;
  exec set_size this (size_ v + 1);
  do v ← load this;
  ret (ptr_add (begin v) position).

(** [void PushBack(Type&& elem)] *)
Definition PushBack (this : nat) (mk : option T) : M T unit :=
  do v ← load this;
  do pos ← cend v;
  do _ ← Emplace this pos mk;
  ret tt.

(** [T& EmplaceBack(args...)], as the address of the new element *)
Definition EmplaceBack (this : nat) (mk : option T) : M T ptr :=
  do v ← load this;
  do pos ← cend v;
  Emplace this pos mk.

(** [iterator Insert(const_iterator pos, const T& elem)] and
    [iterator Insert(const_iterator pos, T&& elem)] *)
Definition Insert (this : nat) (pos : ptr) (mk : option T) : M T ptr :=
  Emplace this pos mk.

(** [iterator Erase(const_iterator pos)] *)
Definition Erase (this : nat) (pos : ptr) : M T ptr :=
  do v ← load this;
  do last ← end_ v;
  exec assert_ ((ptr_off pos <? ptr_off last) && (ptr_off (begin v) <=? ptr_off pos));
  do position ← distance (begin v) pos;
  exec (if decide (position = size_ v) then
          do e ← RawMemory_plus (data_ v) (size_ v);
          do back ← ptr_back e 1;
          exec destroy_at back;
          set_size this (size_ v - 1)
        else
          do first ← RawMemory_plus (data_ v) position;
          do e ← RawMemory_plus (data_ v) (size_ v);
          do d_first ← RawMemory_plus (data_ v) position;
          exec move (ptr_add first 1) e d_first;
          do back ← ptr_back e 1;
          exec destroy_at back;
          set_size this (size_ v - 1));
  do v ← load this;
  ret (ptr_add (begin v) position).

(** [void Swap(Vector& other) noexcept] *)
Definition Swap (this other : nat) : M T unit :=
  do v ← load this;
  do o ← load other;
  (* this->data_.Swap(other.data_) *)
  let '(d, od) := RawMemory_Swap (data_ v) (data_ o) in
  exec set_data this d;
  exec set_data other od;
  (* this->size_ = std::exchange(other.size_, this->size_) *)
  do v ← load this;
  do o ← load other;
  exec set_size other (size_ v);
  set_size this (size_ o).

(** [T& operator[](index) noexcept], as the address of the element *)
Definition index (this : nat) (i : nat) : M T ptr :=
  do v ← load this;
  exec assert_ (i <? size_ v);
  RawMemory_index (data_ v) i.

(** [Vector& operator=(const Vector& other)] *)
Definition assign_copy (this other : nat) : M T unit :=
  if decide (this ≠ other) then
    do v ← load this;
    do o ← load other;
    if RawMemory_Capacity (data_ v) <? size_ o then
      do temp ← local_object;
      exec Vector_copy temp other;
      exec Swap this temp;
      Vector_dtor temp
    else
      exec (if size_ v <? size_ o then
              exec copy (GetAddress (data_ o))
                        (ptr_add (GetAddress (data_ o)) (size_ v))
                        (GetAddress (data_ v));
              uninitialized_copy_n
                (ptr_add (GetAddress (data_ o)) (size_ v))
                (size_ o - size_ v)
                (ptr_add (GetAddress (data_ v)) (size_ v))
            else
              exec copy (GetAddress (data_ o))
                        (ptr_add (GetAddress (data_ o)) (size_ o))
                        (GetAddress (data_ v));
              destroy_n (ptr_add (GetAddress (data_ v)) (size_ o))
                        (size_ v - size_ o));
      set_size this (size_ o)
  else ret tt.

(** [Vector& operator=(Vector&& other) noexcept] *)
Definition assign_move (this other : nat) : M T unit :=
  if decide (this ≠ other) then
    do v ← load this;
    do o ← load other;
    (* this->data_ = std::move(other.data_) *)
    let '(d, od) := RawMemory_move_assign false (data_ v) (data_ o) in
    exec set_data this d;
    exec set_data other od;
    (* this->size_ = std::exchange(other.size_, 0) *)
    do o ← load other;
    exec set_size other 0;
    set_size this (size_ o)
  else ret tt.

End vector.
End VectorH.

(** ** [Vector<T>] as in the earlier revision (src/unnamed/part_000)

    [RawMemory] is the same text in both files.  Of [Vector], the default,
    sized and move constructors, the destructor, [begin]/[end],
    [Capacity]/[Size], [PopBack], [Swap], [operator[]] and the move
    assignment are the same text as well and are taken from [VectorH];
    the members below differ. *)

Module Part000.
Section vector.
Context {T : Type} `{Element T} `{Platform}.

(** [std::uninitialized_move_n] applied to a [const T*] source:
    [std::move] of a [const T] lvalue is a [const T&&], which only the
    copy constructor accepts. *)
Definition uninitialized_move_n_const (first : ptr) (count : nat) (d_first : ptr)
    : M T unit :=
  uninitialized_loop
    (fun i => copy_construct_at (ptr_add d_first i) (ptr_add first i))
    d_first 0 count.

(** [Vector(const Vector& other)] *)
Definition Vector_copy (this other : nat) : M T unit :=
  do o ← load other;
  do d ← RawMemory_new (size_ o);
  exec unwind
    (if relocate_by_move
     then uninitialized_move_n_const (GetAddress (data_ o)) (size_ o) (GetAddress d)
     else uninitialized_copy_n (GetAddress (data_ o)) (size_ o) (GetAddress d))
    (RawMemory_dtor d);
  store this (mkVector d (size_ o)).

(** [void Reserve(new_capacity)] *)
Definition Reserve (this : nat) (new_capacity : nat) : M T unit :=
  do v ← load this;
  if new_capacity <=? RawMemory_Capacity (data_ v) then ret tt
  else
    do new_data ← RawMemory_new new_capacity;
    exec unwind
      (exec (if relocate_by_move
             then uninitialized_move_n (GetAddress (data_ v)) (size_ v) (GetAddress new_data)
             else uninitialized_copy_n (GetAddress (data_ v)) (size_ v) (GetAddress new_data));
       destroy_n (GetAddress (data_ v)) (size_ v))
      (RawMemory_dtor new_data);
    let '(d, new_data') := RawMemory_Swap (data_ v) new_data in
    exec set_data this d;
    RawMemory_dtor new_data'.

(** [void Resize(new_size)] *)
Definition Resize (this : nat) (new_size : nat) : M T unit :=
  do v ← load this;
  if new_size <? RawMemory_Capacity (data_ v) then
    if new_size <? size_ v then
      exec destroy_n (ptr_add (GetAddress (data_ v)) new_size) (size_ v - new_size);
      set_size this new_size
    else if size_ v <? new_size then
      exec uninitialized_default_construct_n
             (ptr_add (GetAddress (data_ v)) (size_ v)) (new_size - size_ v);
      set_size this new_size
    else ret tt
  else if RawMemory_Capacity (data_ v) <? new_size then
    exec Reserve this new_size;
    do v' ← load this;
    exec uninitialized_default_construct_n
           (ptr_add (GetAddress (data_ v')) (size_ v')) (new_size - size_ v');
    set_size this new_size
  else ret tt.

(** the two relocations of the growing [Emplace]: the prefix
    [[0, position)] and the suffix [[position, size_)] *)
Definition relocate_around (v : Vector) (temp : RawMemory) (position : nat) : M T unit :=
  if relocate_by_move then
    exec uninitialized_move_n (GetAddress (data_ v)) position (GetAddress temp);
    do from ← RawMemory_plus (data_ v) position;
    do to ← RawMemory_plus temp position;
    if decide (position ≤ size_ v)
    then uninitialized_move_n from (size_ v - position) (ptr_add to 1)
    else fail SizeWrap
  else
    exec uninitialized_copy_n (GetAddress (data_ v)) position (GetAddress temp);
    do from ← RawMemory_plus (data_ v) position;
    do to ← RawMemory_plus temp position;
    if decide (position ≤ size_ v)
    then uninitialized_copy_n from (size_ v - position) (ptr_add to 1)
    else fail SizeWrap.

(** [void PushBack(Type&& elem)] *)
Definition PushBack (this : nat) (mk : option T) : M T unit :=
  do v ← load this;
  if decide (RawMemory_Capacity (data_ v) = size_ v) then
    if decide (size_ v = 0) then
      do temp ← RawMemory_new (size_ v + 1);
      exec unwind (construct_at (GetAddress temp) mk) (RawMemory_dtor temp);
      let '(d, temp') := RawMemory_Swap (data_ v) temp in
      exec set_data this d;
      exec set_size this (size_ v + 1);
      RawMemory_dtor temp'
    else
      do temp ← RawMemory_new (RawMemory_Capacity (data_ v) * 2);
      exec unwind
        (do slot ← RawMemory_plus temp (size_ v);
         exec construct_at slot mk;
         if relocate_by_move
         then uninitialized_move_n (GetAddress (data_ v)) (size_ v) (GetAddress temp)
         else uninitialized_copy_n (GetAddress (data_ v)) (size_ v) (GetAddress temp))
        (RawMemory_dtor temp);
      let '(d, temp') := RawMemory_Swap (data_ v) temp in
      exec set_data this d;
      exec destroy_n (GetAddress temp') (size_ v);
      exec set_size this (size_ v + 1);
      RawMemory_dtor temp'
  else
    exec construct_at (ptr_add (GetAddress (data_ v)) (size_ v)) mk;
    set_size this (size_ v + 1).

(** [T& EmplaceBack(args...)], as the address of the new element; the
    body repeats [PushBack] and ends with [return data_[size_ - 1]] *)
Definition EmplaceBack (this : nat) (mk : option T) : M T ptr :=
  exec PushBack this mk;
  do v ← load this;
  RawMemory_index (data_ v) (size_ v - 1).

(** [iterator Emplace(const_iterator pos, args...)] *)
Definition Emplace (this : nat) (pos : ptr) (mk : option T) : M T ptr :=
  do v ← load this;
  do position ← distance (VectorH.begin v) pos;
  exec (if decide (RawMemory_Capacity (data_ v) = size_ v) then
          if decide (size_ v = 0) then
            do temp ← RawMemory_new (size_ v + 1);
            exec unwind (construct_at (GetAddress temp) mk) (RawMemory_dtor temp);
            let '(d, temp') := RawMemory_Swap (data_ v) temp in
            exec set_data this d;
            exec set_size this (size_ v + 1);
            RawMemory_dtor temp'
          else
            do temp ← RawMemory_new (RawMemory_Capacity (data_ v) * 2);
            exec unwind
              (do slot ← RawMemory_plus temp position;
               exec construct_at slot mk;
               relocate_around v temp position)
              (RawMemory_dtor temp);
            let '(d, temp') := RawMemory_Swap (data_ v) temp in
            exec set_data this d;
            exec destroy_n (GetAddress temp') (size_ v);
            exec set_size this (size_ v + 1);
            RawMemory_dtor temp'
        else
          try_catch
            (do last ← VectorH.end_ v;
             if decide (pos ≠ last) then
               (* T new_elem = T(std::forward<Args>(args)...); *)
               match mk with
               | None => throw element_exn
               | Some new_elem =>
                   exec emit (EvConstruct new_elem);
                   do left ← unwind
                     (do slot ← RawMemory_plus (data_ v) (size_ v);
                      do back ← RawMemory_index (data_ v) (size_ v - 1);
                      exec move_construct_at slot back;
                      do first ← RawMemory_plus (data_ v) position;
                      do before ← ptr_back last 1;
                      exec move_backward first before last;
                      (* *(data_ + position) = std::forward<T>(new_elem); *)
                      do target ← RawMemory_plus (data_ v) position;
                      do d ← deref target;
                      match T_move_assign d new_elem with
                      | None => throw element_exn
                      | Some (d', r) =>
                          exec emit (EvMoveAssign d new_elem);
                          exec update target d';
                          exec set_size this (size_ v + 1);
                          ret r
                      end)
                     (emit (EvDestroy new_elem));
                   emit (EvDestroy left)
               end
             else
               do slot ← RawMemory_plus (data_ v) (size_ v);
               exec construct_at slot mk;
               set_size this (size_ v + 1))
            (fun e =>
               do v' ← load this;
               do last ← VectorH.end_ v';
               exec operator_delete last;
               throw e));
  do v ← load this;
  ret (ptr_add (VectorH.begin v) position).

(** [iterator Insert(const_iterator pos, const T& value)] and
    [iterator Insert(const_iterator pos, T&& value)] *)
Definition Insert (this : nat) (pos : ptr) (mk : option T) : M T ptr :=
  Emplace this pos mk.

(** [iterator Erase(const_iterator pos)] *)
Definition Erase (this : nat) (pos : ptr) : M T ptr :=
  do v ← load this;
  do last ← VectorH.end_ v;
  exec assert_ ((0 <? size_ v) && negb (bool_decide (pos = last)));
  do position ← distance (VectorH.begin v) pos;
  exec (if decide (position = size_ v) then
          do e ← RawMemory_plus (data_ v) (size_ v);
          exec destroy_at e;
          set_size this (size_ v - 1)
        else
          do first ← RawMemory_plus (data_ v) position;
          do e ← RawMemory_plus (data_ v) (size_ v);
          do d_first ← RawMemory_plus (data_ v) position;
          exec move (ptr_add first 1) e d_first;
          do back ← ptr_back e 1;
          exec destroy_at back;
          set_size this (size_ v - 1));
  do v ← load this;
  ret (ptr_add (VectorH.begin v) position).

(** [Vector& operator=(const Vector& other)] *)
Definition assign_copy (this other : nat) : M T unit :=
  if decide (this ≠ other) then
    do v ← load this;
    do o ← load other;
    if RawMemory_Capacity (data_ v) <? size_ o then
      do temp ← local_object;
      exec Vector_copy temp other;
      exec VectorH.Swap this temp;
      VectorH.Vector_dtor temp
    else
      exec (if size_ v <? size_ o then
              exec copy (GetAddress (data_ o))
                        (ptr_add (GetAddress (data_ o)) (size_ v))
                        (GetAddress (data_ v));
              uninitialized_copy_n
                (ptr_add (GetAddress (data_ o)) (size_ v))
                (size_ o - size_ v)
                (ptr_add (GetAddress (data_ v)) (size_ v))
            else
              exec copy (GetAddress (data_ o))
                        (ptr_add (GetAddress (data_ o)) (size_ o))
                        (GetAddress (data_ v));
              destroy_n (ptr_add (GetAddress (data_ v)) (size_ o))
                        (size_ v - size_ o));
      set_size this (size_ o)
  else ret tt.

End vector.
End Part000.

(** * Specification vocabulary *)

Section specification.
Context {T : Type} `{Element T} `{Platform}.
Definition moved_out (v : T) : T :=
  match T_move v with Some (_, r) => r | None => v end.
Definition assigned_out (d s : T) : T :=
  match T_move_assign d s with Some (_, r) => r | None => s end.
Fixpoint shift_events (d : T) (xs : list T) : list (event T) :=
  match xs with
  | [] => []
  | x :: xs' => EvMoveAssign d x :: shift_events (assigned_out d x) xs'
  end.
Fixpoint shift_rest (d : T) (xs : list T) : T :=
  match xs with
  | [] => d
  | x :: xs' => shift_rest (assigned_out d x) xs'
  end.

(** what relocation leaves in the old buffer, the events it logs, and
    when it does not throw *)
Definition relocate_left (xs : list T) : list T :=
  if relocate_by_move then map moved_out xs else xs.
Definition relocate_events (xs : list T) : list (event T) :=
  if relocate_by_move then map EvMove xs else map EvCopy xs.
Definition relocates (xs : list T) : Prop :=
  if relocate_by_move then Forall (λ x, is_Some (T_move x)) xs
  else Forall (λ x, is_Some (T_copy x)) xs.

Definition release_block (b : option nat) (h : gmap nat (list (slot T)))
    : gmap nat (list (slot T)) :=
  match b with Some k => delete k h | None => h end.

(** The fields of the vector at [this] and the block they designate:
    the buffer [b] has [c] slots, of which the first hold [xs] and the
    others are raw. *)
Definition vec_repr (σ : state T) (this : nat) (b : option nat) (xs : list T) (c : nat)
    : Prop :=
  objs σ !! this = Some (mkVector (mkRawMemory b c) (length xs)) ∧
  length xs ≤ c ∧
  match b with
  | Some k => heap σ !! k = Some (map Live xs ++ replicate (c - length xs) Uninit)
  | None => c = 0
  end.

(** The vector at [this] owns the buffer [b] of capacity [c], whose first
    slots hold [xs] and whose other slots are raw; the buffer is a block
    that [operator new] can have returned, of at most [PTRDIFF_MAX]
    bytes. *)
Definition vec_at (σ : state T) (this : nat) (b : option nat) (xs : list T) (c : nat)
    : Prop :=
  vec_repr σ this b xs c ∧ fits c.

(** Successive initialisations without arguments, the first of them
    after the operations [l], produce the values [ds] in this order:
    [init] is [T_value] or [T_default] and [ev] the event it logs. *)
Fixpoint produces (init : list (event T) → option T) (ev : T → event T)
    (l : list (event T)) (ds : list T) : Prop :=
  match ds with
  | [] => True
  | d :: ds' => init l = Some d ∧ produces init ev (l ++ [ev d]) ds'
  end.

(** the capacity after an insertion into a full buffer of capacity [c] *)
Definition grown (c : nat) : nat := if decide (c = 0) then 1 else c * 2.

(** the element operations of an insertion of [x] in front of the
    elements [suf] without reallocation: an append when [suf] is empty;
    otherwise the last element is move-constructed into the first raw
    slot, the others are move-assigned one slot to the right from the
    back, and the temporary is move-assigned into the gap *)
Definition insert_events (x : T) (suf : list T) : list (event T) :=
  match rev suf with
  | [] => [EvConstruct x]
  | last :: before =>
      let gap := shift_rest (moved_out last) before in
      [EvConstruct x; EvMove last]
      ++ shift_events (moved_out last) before
      ++ [EvMoveAssign gap x; EvDestroy (assigned_out gap x)]
  end.

Definition write_block (b : option nat) (buf : list (slot T))
    (h : gmap nat (list (slot T))) : gmap nat (list (slot T)) :=
  match b with Some k => <[k := buf]> h | None => h end.

(** two buffers are different blocks *)
Definition apart (a b : option nat) : Prop :=
  ∀ ka kb, a = Some ka → b = Some kb → ka ≠ kb.

(** [wp m σ Q E]: if the call [m] started in [σ] returns, [Q] holds of
    its result and final state; if it propagates an exception, [E] holds
    of the state it leaves. *)
Definition wp {A} (m : M T A) (σ : state T)
    (Q : A → state T → Prop) (E : state T → Prop) : Prop :=
  match m σ with
  | Ok a σ' => Q a σ'
  | Throw _ σ' => E σ'
  | Fault _ _ => True
  end.

(** a computation that works on element storage only: the [Vector]
    objects are the same afterwards *)
Definition keeps {A} (m : M T A) : Prop :=
  ∀ σ, wp m σ (λ _ σ', objs σ' = objs σ) (λ σ', objs σ' = objs σ).

(** the same for every state whose [Vector] objects are [o], with
    conditions on the [Vector] objects only *)
Definition owp {A} (m : M T A) (o : gmap nat Vector)
    (Q : A → gmap nat Vector → Prop) (E : gmap nat Vector → Prop) : Prop :=
  ∀ σ, objs σ = o → wp m σ (λ a σ', Q a (objs σ')) (λ σ', E (objs σ')).

(** the class invariant of every [Vector] object in the store *)
Definition size_le_capacity (v : Vector) : Prop := size_ v ≤ capacity_ (data_ v).
Definition invariant (o : gmap nat Vector) : Prop :=
  map_Forall (λ _ v, size_le_capacity v) o.

(** What an insertion of [x] at offset [p] into the full vector [xs] at
    [this] must do when run as [m] from [σ]: it returns; afterwards the
    vector holds [xs] with [x] at offset [p] in a buffer of capacity
    [grown (length xs)]; and the only element operations that ran are the
    construction of [x], one relocation per old element, and the
    destruction of what relocation left in the old buffer. *)
Definition grows_by_doubling {A} (m : M T A) (σ : state T) (this : nat)
    (xs : list T) (p : nat) (x : T) : Prop :=
  ∃ a σ' b',
    m σ = Ok a σ' ∧
    vec_at σ' this b' (take p xs ++ x :: drop p xs) (grown (length xs)) ∧
    log σ' = log σ ++ EvConstruct x :: relocate_events xs
                   ++ map EvDestroy (relocate_left xs).
End specification.

(** ** The public interface as data *)

(** One call of a public member of [Vector<T>] (vector.h), with its
    arguments; [this] and [other] are locations of [Vector] objects. *)
Inductive call (T : Type) : Type :=
  | CallDefault (this : nat)
  | CallSized (this : nat) (count : nat)
  | CallCopy (this other : nat)
  | CallMove (this other : nat)
  | CallAssignCopy (this other : nat)
  | CallAssignMove (this other : nat)
  | CallReserve (this : nat) (new_capacity : nat)
  | CallResize (this : nat) (new_size : nat)
  | CallPushBack (this : nat) (elem : option T)
  | CallEmplaceBack (this : nat) (args : option T)
  | CallEmplace (this : nat) (pos : ptr) (args : option T)
  | CallInsert (this : nat) (pos : ptr) (elem : option T)
  | CallErase (this : nat) (pos : ptr)
  | CallPopBack (this : nat)
  | CallSwap (this other : nat).
Arguments CallDefault {T} this.
Arguments CallSized {T} this count.
Arguments CallCopy {T} this other.
Arguments CallMove {T} this other.
Arguments CallAssignCopy {T} this other.
Arguments CallAssignMove {T} this other.
Arguments CallReserve {T} this new_capacity.
Arguments CallResize {T} this new_size.
Arguments CallPushBack {T} this elem.
Arguments CallEmplaceBack {T} this args.
Arguments CallEmplace {T} this pos args.
Arguments CallInsert {T} this pos elem.
Arguments CallErase {T} this pos.
Arguments CallPopBack {T} this.
Arguments CallSwap {T} this other.

Section interface.
Context {T : Type} `{Element T} `{Platform}.

Definition perform (c : call T) : M T unit :=
  match c with
  | CallDefault this => VectorH.Vector_default this
  | CallSized this count => VectorH.Vector_sized this count
  | CallCopy this other => VectorH.Vector_copy this other
  | CallMove this other => VectorH.Vector_move this other
  | CallAssignCopy this other => VectorH.assign_copy this other
  | CallAssignMove this other => VectorH.assign_move this other
  | CallReserve this n => VectorH.Reserve this n
  | CallResize this n => VectorH.Resize this n
  | CallPushBack this elem => VectorH.PushBack this elem
  | CallEmplaceBack this args => do _ ← VectorH.EmplaceBack this args; ret tt
  | CallEmplace this pos args => do _ ← VectorH.Emplace this pos args; ret tt
  | CallInsert this pos elem => do _ ← VectorH.Insert this pos elem; ret tt
  | CallErase this pos => do _ ← VectorH.Erase this pos; ret tt
  | CallPopBack this => VectorH.PopBack this
  | CallSwap this other => VectorH.Swap this other
  end.

End interface.

(** ** Two element types and a platform for the examples *)

(** an element type none of whose operations throws; a moved-from object
    holds 0 *)
Definition plain : Element nat := {|
  T_default _ := Some 0;
  T_value _ := Some 0;
  T_copy v := Some v;
  T_move v := Some (v, 0);
  T_copy_assign _ s := Some s;
  T_move_assign _ s := Some (s, 0);
  is_nothrow_move_constructible := true;
  is_copy_constructible := true |}.

(** an element type that throws when 13 is copied, when 66 is
    move-constructed from and when 99 is move-assigned from *)
Definition throwing : Element nat := {|
  T_default _ := Some 0;
  T_value _ := Some 0;
  T_copy v := if v =? 13 then None else Some v;
  T_move v := if v =? 66 then None else Some (v, 0);
  T_copy_assign _ s := if s =? 13 then None else Some s;
  T_move_assign _ s := if s =? 99 then None else Some (s, 0);
  is_nothrow_move_constructible := false;
  is_copy_constructible := true |}.

(** elements of four bytes, a free store that never runs out, and [assert]
    active *)
Definition roomy : Platform := {|
  sizeof_T := 4;
  sizeof_T_max := eq_refl;
  has_memory _ := true;
  NDEBUG := false |}.

Definition empty_state : state nat := State ∅ ∅ [].

Section examples.
#[local] Existing Instance throwing.
#[local] Existing Instance roomy.

(** [Vector<T> v; v.Reserve(c); v.PushBack(a); v.PushBack(b);] at
    location 0 *)
Definition two_of (c a b : nat) : M nat unit :=
  exec VectorH.Vector_default 0;
  exec VectorH.Reserve 0 c;
  exec VectorH.PushBack 0 (Some a);
  VectorH.PushBack 0 (Some b).

(** [Vector<T> v; v.Reserve(c); v.PushBack(a);] at location 0 *)
Definition one_of (c a : nat) : M nat unit :=
  exec VectorH.Vector_default 0;
  exec VectorH.Reserve 0 c;
  VectorH.PushBack 0 (Some a).

End examples.

(** the state in which location 0 holds a vector with buffer [buf] (block 0)
    and [n] live elements *)
Definition vector_state (buf : list (slot nat)) (n : nat) (l : list (event nat))
    : state nat :=
  State {[0 := buf]} {[0 := mkVector (mkRawMemory (Some 0) (length buf)) n]} l.

(** ** Sequences of calls *)

Section sequences.
Context {T : Type} `{Element T} `{Platform}.

(** [for (const T& x : xs) v.PushBack(x);] for the vector [v] at [this] *)
Fixpoint push_all (this : nat) (xs : list T) : M T unit :=
  match xs with
  | [] => ret tt
  | x :: xs' => exec VectorH.PushBack this (Some x); push_all this xs'
  end.

(** the capacity that repeated doubling reaches for [n] elements *)
Definition doubled (n c : nat) : Prop :=
  (n = 0 ∧ c = 0) ∨ (∃ k, c = 2 ^ k ∧ n ≤ c ∧ c < 2 * n).


End sequences.

(** a move-only element type whose move constructor throws on 66; the
    copy operations, which such a type does not have, are never reached
    from the members that compile for it *)
Definition move_only : Element nat := {|
  T_default _ := Some 0;
  T_value _ := Some 0;
  T_copy _ := None;
  T_move v := if v =? 66 then None else Some (v, 0);
  T_copy_assign _ _ := None;
  T_move_assign _ s := Some (s, 0);
  is_nothrow_move_constructible := false;
  is_copy_constructible := false |}.

(** a build with [NDEBUG] defined: elements of four bytes, a free store
    that never runs out, and [assert] expands to nothing *)
Definition release_build : Platform := {|
  sizeof_T := 4;
  sizeof_T_max := eq_refl;
  has_memory _ := true;
  NDEBUG := true |}.

(** an element type whose initialisations depend on what ran before:
    value-initialisation gives the number of element operations that have
    run and throws once three have; default-initialisation gives that
    number plus 10.  The other operations are those of [plain]. *)
Definition counting : Element nat := {|
  T_default l := Some (10 + length l);
  T_value l := if length l <? 3 then Some (length l) else None;
  T_copy v := Some v;
  T_move v := Some (v, 0);
  T_copy_assign _ s := Some s;
  T_move_assign _ s := Some (s, 0);
  is_nothrow_move_constructible := true;
  is_copy_constructible := true |}.

(** a platform on which an object of type [T] takes [2^62] bytes, so that
    four of them already exceed [SIZE_MAX]; the free store never runs out *)
Definition wide : Platform := {|
  sizeof_T := 2 ^ 62;
  sizeof_T_max := eq_refl;
  has_memory _ := true;
  NDEBUG := false |}.

(** * Proofs *)

(** ** Running the primitives *)
Arguments construct_at : simpl never.
Arguments default_construct_at : simpl never.
Arguments value_construct_at : simpl never.
Arguments copy_construct_at : simpl never.
Arguments move_construct_at : simpl never.
Arguments copy_assign_at : simpl never.
Arguments move_assign_at : simpl never.
Arguments destroy_at : simpl never.
Arguments operator_delete : simpl never.
Arguments operator_new : simpl never.

Ltac list_norm :=
  repeat (progress (rewrite ?map_app, <- ?app_assoc; simpl)).

Section running.
Context {T : Type} `{Element T} `{Platform}.
Implicit Types (h : gmap nat (list (slot T))) (o : gmap nat Vector)
  (l : list (event T)) (buf : list (slot T)) (σ : state T).

Lemma bind_ok {A B} (m : M T A) (k : A → M T B) σ a σ' :
  m σ = Ok a σ' → bind m k σ = k a σ'.
Proof. unfold bind. by intros ->. Qed.

Lemma bind_throw {A B} (m : M T A) (k : A → M T B) σ e σ' :
  m σ = Throw e σ' → bind m k σ = Throw e σ'.
Proof. unfold bind. by intros ->. Qed.

Lemma bind_fault {A B} (m : M T A) (k : A → M T B) σ f σ' :
  m σ = Fault f σ' → bind m k σ = Fault f σ'.
Proof. unfold bind. by intros ->. Qed.

Lemma unwind_ok {A} (m : M T A) c σ a σ' :
  m σ = Ok a σ' → unwind m c σ = Ok a σ'.
Proof. unfold unwind, try_catch. by intros ->. Qed.

Lemma unwind_throw {A} (m : M T A) c σ e σ1 σ2 :
  m σ = Throw e σ1 → c σ1 = Ok tt σ2 → unwind m c σ = Throw e σ2.
Proof. unfold unwind, try_catch, bind, throw. by intros -> ->. Qed.

Lemma load_slot_ok h o l b buf i s :
  h !! b = Some buf → buf !! i = Some s →
  load_slot (Ptr (Some b) i) (State h o l) = Ok s (State h o l).
Proof. unfold load_slot, bind, get_heap; simpl. by intros -> ->. Qed.

Lemma store_slot_ok h o l b buf i s :
  h !! b = Some buf → i < length buf →
  store_slot (Ptr (Some b) i) s (State h o l)
  = Ok tt (State (<[b := <[i := s]> buf]> h) o l).
Proof.
  unfold store_slot, bind, get_heap; simpl. intros -> Hi.
  by rewrite decide_True.
Qed.

Lemma deref_ok h o l b buf i v :
  h !! b = Some buf → buf !! i = Some (Live v) →
  deref (Ptr (Some b) i) (State h o l) = Ok v (State h o l).
Proof.
  intros Hb Hi. unfold deref.
  by rewrite (bind_ok _ _ _ _ _ (load_slot_ok _ _ _ _ _ _ _ Hb Hi)).
Qed.

Lemma update_ok h o l b buf i v0 v :
  h !! b = Some buf → buf !! i = Some (Live v0) →
  update (Ptr (Some b) i) v (State h o l)
  = Ok tt (State (<[b := <[i := Live v]> buf]> h) o l).
Proof.
  intros Hb Hi. unfold update.
  rewrite (bind_ok _ _ _ _ _ (deref_ok _ _ _ _ _ _ _ Hb Hi)).
  eapply store_slot_ok; [done|]. by eapply lookup_lt_Some.
Qed.

Lemma place_ok h o l b buf i s v :
  h !! b = Some buf → buf !! i = Some s →
  place (Ptr (Some b) i) v (State h o l)
  = Ok tt (State (<[b := <[i := Live v]> buf]> h) o l).
Proof.
  intros Hb Hi. unfold place.
  rewrite (bind_ok _ _ _ _ _ (load_slot_ok _ _ _ _ _ _ _ Hb Hi)).
  eapply store_slot_ok; [done|]. by eapply lookup_lt_Some.
Qed.

Lemma destroy_at_ok h o l b buf i v :
  h !! b = Some buf → buf !! i = Some (Live v) →
  destroy_at (Ptr (Some b) i) (State h o l)
  = Ok tt (State (<[b := <[i := Uninit]> buf]> h) o (l ++ [EvDestroy v])).
Proof.
  intros Hb Hi. unfold destroy_at.
  rewrite (bind_ok _ _ _ _ _ (deref_ok _ _ _ _ _ _ _ Hb Hi)).
  unfold bind at 1, emit; simpl.
  eapply store_slot_ok; [done|]. by eapply lookup_lt_Some.
Qed.

(** lists split around one slot *)
Lemma lookup_mid {A} (pre : list A) x post :
  (pre ++ x :: post) !! length pre = Some x.
Proof. by rewrite list_lookup_middle. Qed.

Lemma insert_mid {A} (pre : list A) x y post :
  <[length pre := y]> (pre ++ x :: post) = pre ++ y :: post.
Proof.
  rewrite insert_app_r_alt; [|lia]. by rewrite Nat.sub_diag.
Qed.

Lemma copy_construct_at_ok h o l bs sbuf i v bd dbuf j s :
  h !! bs = Some sbuf → sbuf !! i = Some (Live v) →
  h !! bd = Some dbuf → dbuf !! j = Some s →
  T_copy v = Some v →
  copy_construct_at (Ptr (Some bd) j) (Ptr (Some bs) i) (State h o l)
  = Ok tt (State (<[bd := <[j := Live v]> dbuf]> h) o (l ++ [EvCopy v])).
Proof.
  intros Hs Hi Hd Hj Hc. unfold copy_construct_at.
  rewrite (bind_ok _ _ _ _ _ (deref_ok _ _ _ _ _ _ _ Hs Hi)), Hc.
  unfold bind at 1, emit; simpl. by eapply place_ok.
Qed.

Lemma move_construct_at_ok h o l bs sbuf i v r bd dbuf j s :
  bs ≠ bd →
  h !! bs = Some sbuf → sbuf !! i = Some (Live v) →
  h !! bd = Some dbuf → dbuf !! j = Some s →
  T_move v = Some (v, r) →
  move_construct_at (Ptr (Some bd) j) (Ptr (Some bs) i) (State h o l)
  = Ok tt (State (<[bd := <[j := Live v]> dbuf]> (<[bs := <[i := Live r]> sbuf]> h))
                 o (l ++ [EvMove v])).
Proof.
  intros Hne Hs Hi Hd Hj Hm. unfold move_construct_at.
  rewrite (bind_ok _ _ _ _ _ (deref_ok _ _ _ _ _ _ _ Hs Hi)), Hm.
  unfold bind at 1, emit; simpl.
  erewrite bind_ok; [|by eapply update_ok].
  eapply place_ok; [|done]. by rewrite lookup_insert_ne.
Qed.

(** the same within one block *)
Lemma move_construct_at_same h o l b buf i v r j s :
  h !! b = Some buf → buf !! i = Some (Live v) → buf !! j = Some s →
  T_move v = Some (v, r) →
  move_construct_at (Ptr (Some b) j) (Ptr (Some b) i) (State h o l)
  = Ok tt (State (<[b := <[j := Live v]> (<[i := Live r]> buf)]> h) o (l ++ [EvMove v])).
Proof.
  intros Hb Hi Hj Hm. unfold move_construct_at.
  rewrite (bind_ok _ _ _ _ _ (deref_ok _ _ _ _ _ _ _ Hb Hi)), Hm.
  unfold bind at 1, emit; simpl.
  erewrite bind_ok; [|by eapply update_ok].
  destruct (decide (i = j)) as [->|Hij].
  - erewrite place_ok; [by rewrite insert_insert_eq|by rewrite lookup_insert_eq|].
    rewrite list_lookup_insert_eq; [done|by eapply lookup_lt_Some].
  - erewrite place_ok; [by rewrite insert_insert_eq|by rewrite lookup_insert_eq|].
    by rewrite list_lookup_insert_ne.
Qed.

Lemma construct_at_ok h o l b buf i s v :
  h !! b = Some buf → buf !! i = Some s →
  construct_at (Ptr (Some b) i) (Some v) (State h o l)
  = Ok tt (State (<[b := <[i := Live v]> buf]> h) o (l ++ [EvConstruct v])).
Proof.
  intros Hb Hi. unfold construct_at.
  unfold bind at 1, emit; simpl. by eapply place_ok.
Qed.

Lemma copy_assign_at_ok h o l bs sbuf i s bd dbuf j d :
  h !! bs = Some sbuf → sbuf !! i = Some (Live s) →
  h !! bd = Some dbuf → dbuf !! j = Some (Live d) →
  T_copy_assign d s = Some s →
  copy_assign_at (Ptr (Some bd) j) (Ptr (Some bs) i) (State h o l)
  = Ok tt (State (<[bd := <[j := Live s]> dbuf]> h) o (l ++ [EvCopyAssign d s])).
Proof.
  intros Hs Hi Hd Hj Hc. unfold copy_assign_at.
  rewrite (bind_ok _ _ _ _ _ (deref_ok _ _ _ _ _ _ _ Hs Hi)).
  rewrite (bind_ok _ _ _ _ _ (deref_ok _ _ _ _ _ _ _ Hd Hj)), Hc.
  unfold bind at 1, emit; simpl. by eapply update_ok.
Qed.

Lemma move_assign_at_same h o l b buf i s j d r :
  h !! b = Some buf → buf !! i = Some (Live s) → buf !! j = Some (Live d) →
  i ≠ j →
  T_move_assign d s = Some (s, r) →
  move_assign_at (Ptr (Some b) j) (Ptr (Some b) i) (State h o l)
  = Ok tt (State (<[b := <[j := Live s]> (<[i := Live r]> buf)]> h)
                 o (l ++ [EvMoveAssign d s])).
Proof.
  intros Hb Hi Hj Hij Hm. unfold move_assign_at.
  rewrite (bind_ok _ _ _ _ _ (deref_ok _ _ _ _ _ _ _ Hb Hi)).
  rewrite (bind_ok _ _ _ _ _ (deref_ok _ _ _ _ _ _ _ Hb Hj)), Hm.
  unfold bind at 1, emit; simpl.
  erewrite bind_ok; [|by eapply update_ok].
  erewrite update_ok; [by rewrite insert_insert_eq|by rewrite lookup_insert_eq|].
  by rewrite list_lookup_insert_ne.
Qed.

(** ** Loops *)

Lemma destroy_n_ok o b xs : ∀ h l pre post,
  h !! b = Some (pre ++ map Live xs ++ post) →
  destroy_n (Ptr (Some b) (length pre)) (length xs) (State h o l)
  = Ok tt (State (<[b := pre ++ replicate (length xs) Uninit ++ post]> h) o
                 (l ++ map EvDestroy xs)).
Proof.
  induction xs as [|x xs IH]; intros h l pre post Hb; simpl in *.
  - unfold ret. by rewrite insert_id, app_nil_r.
  - erewrite bind_ok; [|eapply destroy_at_ok; [done|apply lookup_mid]].
    rewrite insert_mid. unfold ptr_add; simpl.
    specialize (IH (<[b := pre ++ Uninit :: map Live xs ++ post]> h)
                   (l ++ [EvDestroy x]) (pre ++ [Uninit]) post).
    rewrite length_app in IH; simpl in IH.
    rewrite IH; [|by rewrite lookup_insert_eq, <- app_assoc].
    by rewrite insert_insert_eq, <- !app_assoc.
Qed.

Lemma uninitialized_copy_loop_ok o bs bd s0 d0 xs :
  bs ≠ bd → Forall (λ x, T_copy x = Some x) xs →
  ∀ i h l spre spost dpre dmid dpost,
    h !! bs = Some (spre ++ map Live xs ++ spost) → length spre = s0 + i →
    h !! bd = Some (dpre ++ dmid ++ dpost) → length dpre = d0 + i →
    length dmid = length xs →
    uninitialized_loop
      (λ i, copy_construct_at (ptr_add (Ptr (Some bd) d0) i) (ptr_add (Ptr (Some bs) s0) i))
      (Ptr (Some bd) d0) i (length xs) (State h o l)
    = Ok tt (State (<[bd := dpre ++ map Live xs ++ dpost]> h) o (l ++ map EvCopy xs)).
Proof.
  intros Hne Hall. induction Hall as [|x xs Hx Hall IH];
    intros i h l spre spost dpre dmid dpost Hs Hsl Hd Hdl Hm; simpl in *.
  - destruct dmid; [|done]. unfold ret. by rewrite insert_id, app_nil_r.
  - destruct dmid as [|s dmid]; [done|]. simpl in *.
    erewrite bind_ok; cycle 1.
    { eapply unwind_ok. unfold ptr_add; simpl.
      eapply copy_construct_at_ok; [exact Hs| |exact Hd| |done].
      - rewrite <- Hsl. apply lookup_mid.
      - rewrite <- Hdl. apply lookup_mid. }
    rewrite <- Hdl, insert_mid.
    specialize (IH (S i) (<[bd := dpre ++ Live x :: dmid ++ dpost]> h)
                   (l ++ [EvCopy x]) (spre ++ [Live x]) spost
                   (dpre ++ [Live x]) dmid dpost).
    rewrite !length_app in IH; simpl in IH.
    rewrite IH.
    + by rewrite insert_insert_eq, <- !app_assoc.
    + by rewrite lookup_insert_ne, <- app_assoc.
    + lia.
    + by rewrite lookup_insert_eq, <- app_assoc.
    + lia.
    + lia.
Qed.

Lemma uninitialized_copy_n_ok h o l bs bd xs spre spost dpre dmid dpost :
  bs ≠ bd → Forall (λ x, T_copy x = Some x) xs →
  h !! bs = Some (spre ++ map Live xs ++ spost) →
  h !! bd = Some (dpre ++ dmid ++ dpost) →
  length dmid = length xs →
  uninitialized_copy_n (Ptr (Some bs) (length spre)) (length xs)
                       (Ptr (Some bd) (length dpre)) (State h o l)
  = Ok tt (State (<[bd := dpre ++ map Live xs ++ dpost]> h) o (l ++ map EvCopy xs)).
Proof.
  intros. unfold uninitialized_copy_n.
  eapply uninitialized_copy_loop_ok; eauto; lia.
Qed.

Lemma uninitialized_move_loop_ok o bs bd s0 d0 xs :
  bs ≠ bd → Forall (λ x, T_move x = Some (x, moved_out x)) xs →
  ∀ i h l spre spost dpre dmid dpost,
    h !! bs = Some (spre ++ map Live xs ++ spost) → length spre = s0 + i →
    h !! bd = Some (dpre ++ dmid ++ dpost) → length dpre = d0 + i →
    length dmid = length xs →
    uninitialized_loop
      (λ i, move_construct_at (ptr_add (Ptr (Some bd) d0) i) (ptr_add (Ptr (Some bs) s0) i))
      (Ptr (Some bd) d0) i (length xs) (State h o l)
    = Ok tt (State (<[bd := dpre ++ map Live xs ++ dpost]>
                      (<[bs := spre ++ map Live (map moved_out xs) ++ spost]> h))
                   o (l ++ map EvMove xs)).
Proof.
  intros Hne Hall. induction Hall as [|x xs Hx Hall IH];
    intros i h l spre spost dpre dmid dpost Hs Hsl Hd Hdl Hm; simpl in *.
  - destruct dmid; [|done]. unfold ret.
    by rewrite (insert_id _ bs), insert_id, app_nil_r.
  - destruct dmid as [|s dmid]; [done|]. simpl in *.
    erewrite bind_ok; cycle 1.
    { eapply unwind_ok. unfold ptr_add; simpl.
      eapply move_construct_at_ok; [exact Hne|exact Hs| |exact Hd| |exact Hx].
      - rewrite <- Hsl. apply lookup_mid.
      - rewrite <- Hdl. apply lookup_mid. }
    rewrite <- Hdl, <- Hsl, !insert_mid.
    specialize (IH (S i)
      (<[bd := dpre ++ Live x :: dmid ++ dpost]>
         (<[bs := spre ++ Live (moved_out x) :: map Live xs ++ spost]> h))
      (l ++ [EvMove x]) (spre ++ [Live (moved_out x)]) spost
      (dpre ++ [Live x]) dmid dpost).
    rewrite !length_app in IH; simpl in IH.
    rewrite IH.
    + rewrite (insert_insert_ne _ bs bd) by done.
      by rewrite !insert_insert_eq, <- !app_assoc.
    + rewrite lookup_insert_ne by done.
      by rewrite lookup_insert_eq, <- app_assoc.
    + lia.
    + by rewrite lookup_insert_eq, <- app_assoc.
    + lia.
    + lia.
Qed.

Lemma uninitialized_move_n_ok h o l bs bd xs spre spost dpre dmid dpost :
  bs ≠ bd → Forall (λ x, T_move x = Some (x, moved_out x)) xs →
  h !! bs = Some (spre ++ map Live xs ++ spost) →
  h !! bd = Some (dpre ++ dmid ++ dpost) →
  length dmid = length xs →
  uninitialized_move_n (Ptr (Some bs) (length spre)) (length xs)
                       (Ptr (Some bd) (length dpre)) (State h o l)
  = Ok tt (State (<[bd := dpre ++ map Live xs ++ dpost]>
                    (<[bs := spre ++ map Live (map moved_out xs) ++ spost]> h))
                 o (l ++ map EvMove xs)).
Proof.
  intros. unfold uninitialized_move_n.
  eapply uninitialized_move_loop_ok; eauto; lia.
Qed.

Lemma copy_loop_ok o bs bd ss : bs ≠ bd →
  ∀ ds h l spre spost dpre dpost,
    Forall2 (λ d s, T_copy_assign d s = Some s) ds ss →
    h !! bs = Some (spre ++ map Live ss ++ spost) →
    h !! bd = Some (dpre ++ map Live ds ++ dpost) →
    copy_loop (Ptr (Some bs) (length spre)) (Ptr (Some bd) (length dpre))
              (length ss) (State h o l)
    = Ok tt (State (<[bd := dpre ++ map Live ss ++ dpost]> h) o
                   (l ++ zip_with EvCopyAssign ds ss)).
Proof.
  intros Hne. induction ss as [|s ss IH];
    intros ds h l spre spost dpre dpost Hall Hs Hd; inversion Hall as [|d s' ds' ? Hc Hall']; subst;
    simpl in *.
  - unfold ret. by rewrite insert_id, app_nil_r.
  - erewrite bind_ok; cycle 1.
    { eapply copy_assign_at_ok; [exact Hs|apply lookup_mid|exact Hd|apply lookup_mid|exact Hc]. }
    rewrite insert_mid. unfold ptr_add; simpl.
    specialize (IH ds' (<[bd := dpre ++ Live s :: map Live ds' ++ dpost]> h)
                   (l ++ [EvCopyAssign d s]) (spre ++ [Live s]) spost
                   (dpre ++ [Live s]) dpost Hall').
    rewrite !length_app in IH; simpl in IH.
    rewrite IH.
    + by rewrite insert_insert_eq, <- !app_assoc.
    + by rewrite lookup_insert_ne, <- app_assoc.
    + by rewrite lookup_insert_eq, <- app_assoc.
Qed.

Lemma insert_mid_len {A} (pre : list A) n x y post :
  n = length pre → <[n := y]> (pre ++ x :: post) = pre ++ y :: post.
Proof. intros ->. apply insert_mid. Qed.

Lemma lookup_mid2 {A} (pre : list A) a x post :
  (pre ++ a :: x :: post) !! S (length pre) = Some x.
Proof.
  rewrite (cons_middle a), app_assoc.
  replace (S (length pre)) with (length (pre ++ [a])) by (rewrite length_app; simpl; lia).
  apply lookup_mid.
Qed.

Lemma insert_mid2 {A} (pre : list A) a x y post :
  <[S (length pre) := y]> (pre ++ a :: x :: post) = pre ++ a :: y :: post.
Proof.
  rewrite (cons_middle a pre (x :: post)), app_assoc.
  replace (S (length pre)) with (length (pre ++ [a])) by (rewrite length_app; simpl; lia).
  by rewrite insert_mid, <- app_assoc.
Qed.

(** moving a run of elements one slot to the left, front first *)
Lemma move_loop_ok o b xs :
  (∀ d s, T_move_assign d s = Some (s, assigned_out d s)) →
  ∀ d h l pre post,
    h !! b = Some (pre ++ Live d :: map Live xs ++ post) →
    move_loop (Ptr (Some b) (S (length pre))) (Ptr (Some b) (length pre))
              (length xs) (State h o l)
    = Ok tt (State (<[b := pre ++ map Live xs ++ Live (shift_rest d xs) :: post]> h) o
                   (l ++ shift_events d xs)).
Proof.
  intros Hma. induction xs as [|x xs IH]; intros d h l pre post Hb; simpl in *.
  - unfold ret. by rewrite insert_id, app_nil_r.
  - erewrite bind_ok; cycle 1.
    { eapply move_assign_at_same;
        [exact Hb|apply lookup_mid2|apply lookup_mid|lia|apply Hma]. }
    rewrite insert_mid2, insert_mid. unfold ptr_add; simpl.
    specialize (IH (assigned_out d x)
                   (<[b := pre ++ Live x :: Live (assigned_out d x) :: map Live xs ++ post]> h)
                   (l ++ [EvMoveAssign d x]) (pre ++ [Live x]) post).
    rewrite !length_app in IH; simpl in IH.
    rewrite IH.
    + by rewrite insert_insert_eq, <- !app_assoc.
    + by rewrite lookup_insert_eq, <- app_assoc.
Qed.

(** moving a run of elements one slot to the right, back first *)
Lemma move_backward_loop_ok o b pre :
  (∀ d s, T_move_assign d s = Some (s, assigned_out d s)) →
  ∀ xs d post h l n,
    h !! b = Some (pre ++ map Live xs ++ Live d :: post) →
    n = length pre + length xs →
    move_backward_loop (Ptr (Some b) n) (Ptr (Some b) (S n)) (length xs) (State h o l)
    = Ok tt (State (<[b := pre ++ Live (shift_rest d (rev xs)) :: map Live xs ++ post]> h) o
                   (l ++ shift_events d (rev xs))).
Proof.
  intros Hma xs. induction xs as [|x ys IH] using rev_ind; intros d post h l n Hb Hn.
  - simpl in *. unfold ret. by rewrite insert_id, app_nil_r.
  - rewrite length_app in *. simpl in Hn |- *. rewrite Nat.add_1_r. simpl.
    rewrite map_app in Hb. simpl in Hb. rewrite <- app_assoc in Hb. simpl in Hb.
    rewrite app_assoc in Hb.
    assert (Hm : length (pre ++ map Live ys) = length pre + length ys)
      by (by rewrite length_app, length_map).
    assert (Hn' : n = S (length (pre ++ map Live ys))) by lia.
    clear Hn. subst n.
    unfold ptr_sub; simpl. rewrite Nat.sub_0_r.
    erewrite bind_ok; cycle 1.
    { eapply move_assign_at_same;
        [exact Hb|apply lookup_mid|apply lookup_mid2|lia|apply Hma]. }
    rewrite insert_mid, insert_mid2.
    rewrite rev_app_distr. simpl.
    rewrite (IH (assigned_out d x) (Live x :: post)
      (<[b := (pre ++ map Live ys) ++ Live (assigned_out d x) :: Live x :: post]> h)
      (l ++ [EvMoveAssign d x]) (length (pre ++ map Live ys))).
    + rewrite insert_insert_eq, map_app, <- !app_assoc. simpl.
      by rewrite <- ?app_assoc.
    + by rewrite lookup_insert_eq, <- app_assoc.
    + done.
Qed.

(** an [uninitialized_*_n] loop over [n1 + n2] elements *)
Lemma uninitialized_loop_app step d_first n1 : ∀ i n2 σ,
  uninitialized_loop step d_first i (n1 + n2) σ
  = bind (uninitialized_loop step d_first i n1)
         (λ _, uninitialized_loop step d_first (i + n1) n2) σ.
Proof.
  induction n1 as [|n1 IH]; intros i n2 σ; simpl.
  - unfold bind, ret. by rewrite Nat.add_0_r.
  - unfold bind. destruct (unwind (step i) (destroy_n d_first i) σ); try done.
    rewrite IH. unfold bind. by replace (S i + n1) with (i + S n1) by lia.
Qed.

(** the copy constructor of element [x] throws after [xs1] were copied *)
Lemma uninitialized_copy_n_throw h o l bs bd xs1 x xs2 spre spost dpre dpost :
  bs ≠ bd → Forall (λ x, T_copy x = Some x) xs1 → T_copy x = None →
  h !! bs = Some (spre ++ map Live (xs1 ++ x :: xs2) ++ spost) →
  h !! bd = Some (dpre ++ replicate (length (xs1 ++ x :: xs2)) Uninit ++ dpost) →
  uninitialized_copy_n (Ptr (Some bs) (length spre)) (length (xs1 ++ x :: xs2))
                       (Ptr (Some bd) (length dpre)) (State h o l)
  = Throw element_exn (State h o (l ++ map EvCopy xs1 ++ map EvDestroy xs1)).
Proof.
  intros Hne Hall Hx Hs Hd. unfold uninitialized_copy_n.
  rewrite length_app in *. simpl length in *.
  rewrite uninitialized_loop_app.
  rewrite map_app in Hs. rewrite <- app_assoc in Hs.
  rewrite replicate_add in Hd. rewrite <- app_assoc in Hd.
  erewrite bind_ok; cycle 1.
  { eapply (uninitialized_copy_loop_ok o bs bd (length spre) (length dpre) xs1);
      [done|done|exact Hs|lia|exact Hd|lia|by rewrite length_replicate]. }
  simpl.
  erewrite bind_throw; [done|].
  eapply unwind_throw.
  - unfold copy_construct_at, ptr_add; simpl.
    erewrite bind_ok; cycle 1.
    { eapply deref_ok; [by rewrite lookup_insert_ne|].
      rewrite app_assoc.
      replace (length spre + length xs1) with (length (spre ++ map Live xs1))
        by (by rewrite length_app, length_map).
      apply lookup_mid. }
    rewrite Hx. done.
  - rewrite destroy_n_ok with (pre := dpre) (post := replicate (S (length xs2)) Uninit ++ dpost);
      [|by rewrite lookup_insert_eq].
    rewrite insert_insert_eq, insert_id; [by rewrite <- app_assoc|].
    by rewrite Hd.
Qed.

(** ** Initialisation without arguments

    [new (p) T] and [new (p) T()] differ in the function that tells what
    the initialisation produces and in the event they log. *)

Section initialisation.
Variables (init : list (event T) → option T) (ev : T → event T)
  (step : ptr → M T unit).
Hypothesis step_eq : ∀ dst σ,
  step dst σ
  = (do l0 ← get_log;
     match init l0 with
     | None => throw element_exn
     | Some v => exec emit (ev v); place dst v
     end) σ.

Lemma init_at_ok h o l b buf i s v :
  h !! b = Some buf → buf !! i = Some s → init l = Some v →
  step (Ptr (Some b) i) (State h o l)
  = Ok tt (State (<[b := <[i := Live v]> buf]> h) o (l ++ [ev v])).
Proof using step_eq.
  intros Hb Hi Hd. rewrite step_eq. unfold bind at 1, get_log; simpl.
  rewrite Hd. unfold bind at 1, emit; simpl. by eapply place_ok.
Qed.

Lemma init_at_throw h o l dst :
  init l = None → step dst (State h o l) = Throw element_exn (State h o l).
Proof using step_eq.
  intros Hd. rewrite step_eq. unfold bind at 1, get_log; simpl. by rewrite Hd.
Qed.

Lemma init_loop_ok o b d0 ds :
  ∀ i h l pre mid post,
    produces init ev l ds →
    h !! b = Some (pre ++ mid ++ post) → length pre = d0 + i →
    length mid = length ds →
    uninitialized_loop (λ i, step (ptr_add (Ptr (Some b) d0) i))
      (Ptr (Some b) d0) i (length ds) (State h o l)
    = Ok tt (State (<[b := pre ++ map Live ds ++ post]> h) o (l ++ map ev ds)).
Proof using step_eq.
  induction ds as [|d ds IH]; intros i h l pre mid post Hds Hb Hp Hm;
    simpl in *.
  - destruct mid; [|done]. unfold ret. by rewrite insert_id, app_nil_r.
  - destruct mid as [|s mid]; [done|]. simpl in *. destruct Hds as [Hd Hds].
    erewrite bind_ok; cycle 1.
    { eapply unwind_ok. unfold ptr_add; simpl.
      eapply init_at_ok; [exact Hb| |exact Hd].
      rewrite <- Hp. apply lookup_mid. }
    rewrite <- Hp, insert_mid.
    specialize (IH (S i) (<[b := pre ++ Live d :: mid ++ post]> h)
                   (l ++ [ev d]) (pre ++ [Live d]) mid post).
    rewrite !length_app in IH; simpl in IH.
    rewrite IH.
    + by rewrite insert_insert_eq, <- !app_assoc.
    + done.
    + by rewrite lookup_insert_eq, <- app_assoc.
    + lia.
    + lia.
Qed.

(** the initialisation of element [length ds] throws after [ds] were
    produced *)
Lemma init_loop_throw h o l b ds n pre post :
  produces init ev l ds → init (l ++ map ev ds) = None → length ds < n →
  h !! b = Some (pre ++ replicate n Uninit ++ post) →
  uninitialized_loop (λ i, step (ptr_add (Ptr (Some b) (length pre)) i))
    (Ptr (Some b) (length pre)) 0 n (State h o l)
  = Throw element_exn (State h o (l ++ map ev ds ++ map EvDestroy ds)).
Proof using step_eq.
  intros Hds Hnone Hlt Hb.
  replace n with (length ds + S (n - S (length ds))) in * by lia.
  set (m := n - S (length ds)) in *.
  rewrite uninitialized_loop_app.
  rewrite replicate_add in Hb. rewrite <- app_assoc in Hb.
  erewrite bind_ok; cycle 1.
  { eapply (init_loop_ok o b (length pre) ds);
      [exact Hds|exact Hb|lia|by rewrite length_replicate]. }
  simpl.
  erewrite bind_throw; [done|].
  eapply unwind_throw.
  - by apply init_at_throw.
  - rewrite destroy_n_ok with (pre := pre) (post := replicate (S m) Uninit ++ post);
      [|by rewrite lookup_insert_eq].
    rewrite insert_insert_eq, insert_id; [by rewrite <- app_assoc|].
    by rewrite Hb.
Qed.
End initialisation.

Lemma uninitialized_default_construct_n_ok h o l b ds pre mid post :
  produces T_default EvDefault l ds →
  h !! b = Some (pre ++ mid ++ post) → length mid = length ds →
  uninitialized_default_construct_n (Ptr (Some b) (length pre)) (length ds) (State h o l)
  = Ok tt (State (<[b := pre ++ map Live ds ++ post]> h) o (l ++ map EvDefault ds)).
Proof.
  intros. unfold uninitialized_default_construct_n.
  eapply (init_loop_ok T_default EvDefault default_construct_at); eauto; lia.
Qed.

Lemma uninitialized_default_construct_n_throw h o l b ds n pre post :
  produces T_default EvDefault l ds → T_default (l ++ map EvDefault ds) = None →
  length ds < n →
  h !! b = Some (pre ++ replicate n Uninit ++ post) →
  uninitialized_default_construct_n (Ptr (Some b) (length pre)) n (State h o l)
  = Throw element_exn (State h o (l ++ map EvDefault ds ++ map EvDestroy ds)).
Proof.
  intros. unfold uninitialized_default_construct_n.
  by eapply (init_loop_throw T_default EvDefault default_construct_at).
Qed.

Lemma uninitialized_value_construct_n_ok h o l b ds pre mid post :
  produces T_value EvValue l ds →
  h !! b = Some (pre ++ mid ++ post) → length mid = length ds →
  uninitialized_value_construct_n (Ptr (Some b) (length pre)) (length ds) (State h o l)
  = Ok tt (State (<[b := pre ++ map Live ds ++ post]> h) o (l ++ map EvValue ds)).
Proof.
  intros. unfold uninitialized_value_construct_n.
  eapply (init_loop_ok T_value EvValue value_construct_at); eauto; lia.
Qed.

Lemma uninitialized_value_construct_n_throw h o l b ds n pre post :
  produces T_value EvValue l ds → T_value (l ++ map EvValue ds) = None →
  length ds < n →
  h !! b = Some (pre ++ replicate n Uninit ++ post) →
  uninitialized_value_construct_n (Ptr (Some b) (length pre)) n (State h o l)
  = Throw element_exn (State h o (l ++ map EvValue ds ++ map EvDestroy ds)).
Proof.
  intros. unfold uninitialized_value_construct_n.
  by eapply (init_loop_throw T_value EvValue value_construct_at).
Qed.

(** ** Objects, allocation, assertions *)

Lemma load_ok h o l this v :
  o !! this = Some v → load this (State h o l) = Ok v (State h o l).
Proof. unfold load, bind, get_objs; simpl. by intros ->. Qed.

Lemma store_ok h o l this v :
  store this v (State h o l) = Ok tt (State h (<[this := v]> o) l).
Proof. done. Qed.

Lemma set_data_ok h o l this v d :
  o !! this = Some v →
  set_data this d (State h o l) = Ok tt (State h (<[this := mkVector d (size_ v)]> o) l).
Proof. intros Hv. unfold set_data. by rewrite (bind_ok _ _ _ _ _ (load_ok _ _ _ _ _ Hv)). Qed.

Lemma set_size_ok h o l this v n :
  o !! this = Some v →
  set_size this n (State h o l) = Ok tt (State h (<[this := mkVector (data_ v) n]> o) l).
Proof. intros Hv. unfold set_size. by rewrite (bind_ok _ _ _ _ _ (load_ok _ _ _ _ _ Hv)). Qed.

Lemma assert_ok (b : bool) σ : b = true → assert_ b σ = Ok tt σ.
Proof. intros ->. unfold assert_. by destruct NDEBUG. Qed.

Lemma RawMemory_plus_ok m offset σ :
  offset ≤ capacity_ m →
  RawMemory_plus m offset σ = Ok (Ptr (buffer_ m) offset) σ.
Proof.
  intros Hle. unfold RawMemory_plus.
  erewrite bind_ok; [done|]. apply assert_ok. by apply Nat.leb_le.
Qed.

Lemma RawMemory_index_ok m index σ :
  index < capacity_ m →
  RawMemory_index m index σ = Ok (Ptr (buffer_ m) index) σ.
Proof.
  intros Hlt. unfold RawMemory_index.
  erewrite bind_ok; [done|]. apply assert_ok. by apply Nat.ltb_lt.
Qed.

Lemma fresh_block h : h !! fresh (dom h) = None.
Proof. apply not_elem_of_dom, is_fresh. Qed.

(** *** Byte counts *)

Lemma can_allocate_fits n : can_allocate n = true → fits n.
Proof.
  unfold can_allocate, satisfiable, fits. intros [Hle _]%andb_true_iff.
  by apply Z.leb_le.
Qed.

Lemma fits_representable n : fits n → representable n.
Proof. unfold fits, representable, PTRDIFF_MAX, SIZE_MAX. lia. Qed.

Lemma fits_le n m : n ≤ m → fits m → fits n.
Proof. unfold fits. nia. Qed.

Lemma fits_0 : fits 0.
Proof. unfold fits, PTRDIFF_MAX. lia. Qed.

Lemma representable_le n m : n ≤ m → representable m → representable n.
Proof. unfold representable. nia. Qed.

(** twice a buffer that exists, or one element, does not wrap *)
Lemma fits_grown c : fits c → representable (grown c).
Proof.
  unfold fits, representable, grown, PTRDIFF_MAX, SIZE_MAX. intros Hc.
  pose proof sizeof_T_max as Hs. apply Z.leb_le in Hs. unfold SIZE_MAX in Hs.
  destruct (decide (c = 0)); lia.
Qed.

Lemma byte_count_representable n :
  representable n → byte_count n = (Z.of_nat n * Z.pos sizeof_T)%Z.
Proof.
  unfold representable, byte_count, SIZE_MAX. intros Hn.
  apply Z.mod_small. lia.
Qed.

Lemma slots_of_bytes n : Z.to_nat (Z.of_nat n * Z.pos sizeof_T / Z.pos sizeof_T) = n.
Proof. rewrite Z.div_mul by lia. apply Nat2Z.id. Qed.

Lemma RawMemory_new_ok h o l n :
  n ≠ 0 → can_allocate n = true →
  RawMemory_new n (State h o l)
  = Ok (mkRawMemory (Some (fresh (dom h))) n)
       (State (<[fresh (dom h) := replicate n Uninit]> h) o l).
Proof.
  intros Hn Hc. unfold RawMemory_new, Allocate, operator_new.
  rewrite decide_True by done.
  rewrite byte_count_representable by by apply fits_representable, can_allocate_fits.
  unfold can_allocate in Hc. rewrite Hc. unfold bind, get_heap, set_heap; simpl.
  by rewrite slots_of_bytes.
Qed.

Lemma RawMemory_new_throw σ n :
  n ≠ 0 → representable n → can_allocate n = false →
  RawMemory_new n σ = Throw bad_alloc σ.
Proof.
  intros Hn Hr Hc. unfold RawMemory_new, Allocate, operator_new.
  rewrite decide_True by done. rewrite byte_count_representable by done.
  unfold can_allocate in Hc. by rewrite Hc.
Qed.

Lemma RawMemory_new_0 σ : RawMemory_new 0 σ = Ok (mkRawMemory None 0) σ.
Proof. done. Qed.

Lemma RawMemory_dtor_ok h o l b c :
  (∀ k, b = Some k → is_Some (h !! k)) →
  RawMemory_dtor (mkRawMemory b c) (State h o l) = Ok tt (State (release_block b h) o l).
Proof.
  intros Hb. unfold RawMemory_dtor, Deallocate, operator_delete; simpl.
  destruct b as [k|]; [|done].
  unfold bind, get_heap; simpl. by destruct (Hb k eq_refl) as [buf ->].
Qed.

(** ** Consequences of the laws *)

Lemma copy_some `{!ElementLaws T} x : is_Some (T_copy x) → T_copy x = Some x.
Proof. intros [y Hy]. by rewrite Hy, (copy_value _ _ Hy). Qed.

Lemma move_some `{!ElementLaws T} x :
  is_Some (T_move x) → T_move x = Some (x, moved_out x).
Proof.
  intros [[y r] Hy]. unfold moved_out. by rewrite Hy, (move_value _ _ _ Hy).
Qed.

Lemma copy_assign_some `{!ElementLaws T} d s :
  is_Some (T_copy_assign d s) → T_copy_assign d s = Some s.
Proof. intros [y Hy]. by rewrite Hy, (copy_assign_value _ _ _ Hy). Qed.

Lemma move_assign_some `{!ElementLaws T} d s :
  is_Some (T_move_assign d s) → T_move_assign d s = Some (s, assigned_out d s).
Proof.
  intros [[y r] Hy]. unfold assigned_out.
  by rewrite Hy, (move_assign_value _ _ _ _ Hy).
Qed.

(** [CopyOrMove] of the elements [xs] of block [bs] into raw slots of
    block [bd] *)
Lemma CopyOrMove_ok `{!ElementLaws T} h o l bs bd xs spre spost dpre dmid dpost :
  bs ≠ bd → relocates xs →
  h !! bs = Some (spre ++ map Live xs ++ spost) →
  h !! bd = Some (dpre ++ dmid ++ dpost) →
  length dmid = length xs →
  VectorH.CopyOrMove (Ptr (Some bs) (length spre)) (Ptr (Some bd) (length dpre))
                     (length xs) (State h o l)
  = Ok tt (State (<[bd := dpre ++ map Live xs ++ dpost]>
                    (<[bs := spre ++ map Live (relocate_left xs) ++ spost]> h))
                 o (l ++ relocate_events xs)).
Proof.
  intros Hne Hr Hs Hd Hm.
  unfold VectorH.CopyOrMove, relocates, relocate_left, relocate_events in *.
  destruct relocate_by_move.
  - eapply uninitialized_move_n_ok; eauto.
    eapply Forall_impl; [exact Hr|]. intros x. apply move_some.
  - rewrite (insert_id _ bs) by done.
    eapply uninitialized_copy_n_ok; eauto.
    eapply Forall_impl; [exact Hr|]. intros x. apply copy_some.
Qed.

Lemma CopyOrMove_0 from to σ : VectorH.CopyOrMove from to 0 σ = Ok tt σ.
Proof. unfold VectorH.CopyOrMove. by destruct relocate_by_move. Qed.

Lemma relocate_left_length xs : length (relocate_left xs) = length xs.
Proof. unfold relocate_left. destruct relocate_by_move; [apply length_map|done]. Qed.

(** ** [Reserve] *)

Lemma Reserve_noop h o l this v n :
  o !! this = Some v → n ≤ capacity_ (data_ v) →
  VectorH.Reserve this n (State h o l) = Ok tt (State h o l).
Proof.
  intros Hv Hn. unfold VectorH.Reserve.
  rewrite (bind_ok _ _ _ _ _ (load_ok _ _ _ _ _ Hv)).
  unfold RawMemory_Capacity. by rewrite (proj2 (Nat.leb_le _ _) Hn).
Qed.

Lemma Reserve_grows `{!ElementLaws T} h o l this b xs c n :
  vec_repr (State h o l) this b xs c → c < n →
  can_allocate n = true → relocates xs →
  VectorH.Reserve this n (State h o l)
  = Ok tt (State
      (release_block b
         (<[fresh (dom h) := map Live xs ++ replicate (n - length xs) Uninit]> h))
      (<[this := mkVector (mkRawMemory (Some (fresh (dom h))) n) (length xs)]> o)
      (l ++ relocate_events xs ++ map EvDestroy (relocate_left xs))).
Proof.
  intros (Hv & Hle & Hb) Hn Hc Hr. simpl in *. unfold VectorH.Reserve.
  rewrite (bind_ok _ _ _ _ _ (load_ok _ _ _ _ _ Hv)).
  unfold RawMemory_Capacity; simpl.
  rewrite (proj2 (Nat.leb_gt _ _) Hn).
  erewrite bind_ok; [|apply RawMemory_new_ok; [lia|done]].
  pose proof (fresh_block h) as Hfresh.
  set (new := fresh (dom h)) in *.
  destruct b as [k|].
  - assert (Hkn : k ≠ new) by (intros ->; congruence).
    erewrite bind_ok; cycle 1.
    { eapply unwind_ok. unfold GetAddress; simpl.
      erewrite bind_ok; cycle 1.
      { eapply (CopyOrMove_ok _ _ _ k new xs [] _ [] (replicate (length xs) Uninit)
                  (replicate (n - length xs) Uninit)); [done|done| | |].
        - by rewrite lookup_insert_ne.
        - rewrite lookup_insert_eq. simpl. rewrite <- replicate_add.
          do 2 f_equal. lia.
        - by rewrite length_replicate. }
      simpl.
      rewrite <- (relocate_left_length xs).
      eapply (destroy_n_ok _ k (relocate_left xs) _ _ []).
      rewrite lookup_insert_ne by done. by rewrite lookup_insert_eq. }
    simpl.
    erewrite bind_ok; [|by apply set_data_ok].
    rewrite RawMemory_dtor_ok.
    + simpl. rewrite relocate_left_length. f_equal. f_equal.
      * apply map_eq. intros j.
        rewrite !lookup_delete, !lookup_insert.
        repeat case_decide; subst; done.
      * by rewrite <- app_assoc.
    + intros k' [= <-]. rewrite lookup_insert_eq. eauto.
  - subst c. destruct xs; [|simpl in *; lia]. simpl.
    erewrite bind_ok; cycle 1.
    { eapply unwind_ok. erewrite bind_ok; [|apply CopyOrMove_0]. done. }
    simpl. erewrite bind_ok; [|by apply set_data_ok].
    rewrite RawMemory_dtor_ok by done. simpl.
    unfold relocate_events, relocate_left. destruct relocate_by_move; simpl;
      by rewrite app_nil_r, Nat.sub_0_r.
Qed.

Lemma relocates_app xs ys : relocates (xs ++ ys) ↔ relocates xs ∧ relocates ys.
Proof. unfold relocates. destruct relocate_by_move; apply Forall_app. Qed.

Lemma relocate_left_app xs ys :
  relocate_left (xs ++ ys) = relocate_left xs ++ relocate_left ys.
Proof. unfold relocate_left. destruct relocate_by_move; [apply map_app|done]. Qed.

Lemma relocate_events_app xs ys :
  relocate_events (xs ++ ys) = relocate_events xs ++ relocate_events ys.
Proof. unfold relocate_events. destruct relocate_by_move; apply map_app. Qed.

Lemma distance_ok b p σ : distance (Ptr b 0) (Ptr b p) σ = Ok p σ.
Proof.
  unfold distance; simpl. rewrite decide_True by (split; [done|lia]).
  unfold ptr_diff; simpl. by rewrite Nat.sub_0_r.
Qed.

(** ** Insertion into a full buffer *)

(** the body of the growing branch: the new element is constructed at
    offset [p] of the new block, then the old elements are relocated
    around it *)
Lemma grow_fill_ok `{!ElementLaws T} h o l k new pre suf x c c2 :
  k ≠ new → relocates (pre ++ suf) →
  h !! k = Some (map Live (pre ++ suf)) →
  h !! new = Some (replicate c2 Uninit) →
  c = length (pre ++ suf) → c < c2 →
  (do slot ← RawMemory_plus (mkRawMemory (Some new) c2) (length pre);
   exec construct_at slot (Some x);
   exec VectorH.CopyOrMove (GetAddress (mkRawMemory (Some k) c))
                           (GetAddress (mkRawMemory (Some new) c2)) (length pre);
   do from ← RawMemory_plus (mkRawMemory (Some k) c) (length pre);
   do to ← RawMemory_plus (mkRawMemory (Some new) c2) (length pre);
   if decide (length pre ≤ c)
   then VectorH.CopyOrMove from (ptr_add to 1) (c - length pre)
   else fail SizeWrap) (State h o l)
  = Ok tt (State
      (<[new := map Live (pre ++ x :: suf) ++ replicate (c2 - S c) Uninit]>
         (<[k := map Live (relocate_left (pre ++ suf))]> h))
      o (l ++ EvConstruct x :: relocate_events (pre ++ suf))).
Proof.
  intros Hkn Hr Hk Hnew Hc Hc2. rewrite length_app in Hc.
  apply relocates_app in Hr as [Hrp Hrs].
  erewrite bind_ok; [|apply RawMemory_plus_ok; simpl; lia]. simpl.
  assert (Hsplit : replicate c2 (@Uninit T)
    = replicate (length pre) Uninit ++ Uninit :: replicate (c2 - S (length pre)) Uninit).
  { rewrite (cons_middle Uninit), app_assoc.
    change [@Uninit T] with (replicate 1 (@Uninit T)).
    rewrite <- !replicate_add. f_equal. lia. }
  erewrite bind_ok; cycle 1.
  { eapply construct_at_ok; [exact Hnew|].
    apply lookup_replicate. split; [done|lia]. }
  rewrite Hsplit, insert_mid_len by (by rewrite length_replicate).
  unfold GetAddress; simpl.
  erewrite bind_ok; cycle 1.
  { eapply (CopyOrMove_ok _ _ _ k new pre [] (map Live suf) []
              (replicate (length pre) Uninit)); [done|done| | |].
    - rewrite lookup_insert_ne by done. by rewrite Hk, map_app.
    - by rewrite lookup_insert_eq.
    - by rewrite length_replicate. }
  simpl.
  erewrite bind_ok; [|apply RawMemory_plus_ok; simpl; lia].
  erewrite bind_ok; [|apply RawMemory_plus_ok; simpl; lia].
  simpl.
  rewrite decide_True by lia. unfold ptr_add; simpl.
  assert (Hsplit2 : replicate (c2 - S (length pre)) (@Uninit T)
    = replicate (length suf) Uninit ++ replicate (c2 - S c) Uninit).
  { rewrite <- replicate_add. f_equal. lia. }
  rewrite Hsplit2.
  replace (c - length pre) with (length suf) by lia.
  replace (length pre) with (length (map Live (relocate_left pre)))
    by (by rewrite length_map, relocate_left_length).
  replace (length (map Live (relocate_left pre)) + 1)
    with (length (map Live pre ++ [Live x]))
    by (rewrite length_app, !length_map, relocate_left_length; simpl; lia).
  rewrite (CopyOrMove_ok _ _ _ k new suf _ [] _ (replicate (length suf) Uninit)
             (replicate (c2 - S c) Uninit)); [|done|done| | |].
  - f_equal. f_equal.
    + rewrite app_nil_r.
      rewrite (insert_insert_ne _ k new) by done.
      rewrite !insert_insert_eq.
      rewrite (insert_insert_ne _ k new) by done.
      rewrite !insert_insert_eq.
      rewrite relocate_left_app, !map_app. simpl.
      by rewrite <- !app_assoc.
    + rewrite relocate_events_app, <- !app_assoc. done.
  - rewrite lookup_insert_ne by done. rewrite lookup_insert_eq.
    by rewrite app_nil_r.
  - rewrite lookup_insert_eq. simpl.
    by rewrite <- !app_assoc.
  - by rewrite length_replicate.
Qed.

Lemma EmplaceWithAllocate_ok `{!ElementLaws T} h o l this b xs p x :
  vec_repr (State h o l) this b xs (length xs) → p ≤ length xs →
  can_allocate (grown (length xs)) = true → relocates xs →
  VectorH.EmplaceWithAllocate this p (Some x) (State h o l)
  = Ok tt
      (State
        (release_block b
          (<[fresh (dom h) := map Live (take p xs ++ x :: drop p xs)
               ++ replicate (grown (length xs) - S (length xs)) Uninit]> h))
        (<[this := mkVector (mkRawMemory (Some (fresh (dom h))) (grown (length xs)))
                            (length xs)]> o)
        (l ++ EvConstruct x :: relocate_events xs ++ map EvDestroy (relocate_left xs))).
Proof.
  intros (Hv & _ & Hb) Hp Hc Hr. simpl in *.
  pose proof (fresh_block h) as Hfresh.
  set (new := fresh (dom h)) in *.
  unfold VectorH.EmplaceWithAllocate.
  rewrite (bind_ok _ _ _ _ _ (load_ok _ _ _ _ _ Hv)).
  unfold RawMemory_Capacity; simpl. unfold grown in *.
  destruct (decide (length xs = 0)) as [Hz|Hnz].
  - destruct xs; [|done]. simpl in *. assert (p = 0) as -> by lia.
    erewrite bind_ok; [|by apply RawMemory_new_ok].
    fold new.
    erewrite bind_ok; cycle 1.
    { eapply unwind_ok. eapply construct_at_ok; [by rewrite lookup_insert_eq|done]. }
    simpl.
    erewrite bind_ok; [|by apply set_data_ok].
    rewrite RawMemory_dtor_ok.
    + simpl. rewrite insert_insert_eq.
      unfold relocate_events, relocate_left; destruct relocate_by_move; done.
    + intros k ->. rewrite !lookup_insert_ne by (intros <-; congruence). eauto.
  - destruct b as [k|]; [|lia].
    assert (Hkn : k ≠ new) by (intros ->; congruence).
    pose proof (take_drop p xs) as Hxs.
    assert (Hlen : length (take p xs) = p) by (rewrite length_take; lia).
    set (pre := take p xs) in *. set (suf := drop p xs) in *.
    clearbody pre suf. subst xs p.
    rewrite Nat.sub_diag, app_nil_r in Hb.
    erewrite bind_ok; [|apply RawMemory_new_ok; [lia|done]].
    fold new.
    erewrite bind_ok; cycle 1.
    { eapply unwind_ok.
      eapply (grow_fill_ok _ _ _ k new pre suf x (length (pre ++ suf))
                (length (pre ++ suf) * 2)); try done.
      - by rewrite lookup_insert_ne.
      - by rewrite lookup_insert_eq.
      - lia. }
    simpl.
    erewrite bind_ok; [|by apply set_data_ok].
    unfold GetAddress; simpl.
    erewrite bind_ok; cycle 1.
    { rewrite <- (relocate_left_length (pre ++ suf)).
      eapply (destroy_n_ok _ k (relocate_left (pre ++ suf)) _ _ [] []).
      rewrite lookup_insert_ne by done.
      by rewrite lookup_insert_eq, app_nil_r. }
    rewrite RawMemory_dtor_ok.
    + simpl. rewrite relocate_left_length. f_equal. f_equal.
      * apply map_eq. intros j.
        rewrite !lookup_delete, !lookup_insert.
        repeat case_decide; subst; try done.
      * rewrite <- !app_assoc. simpl. by rewrite <- ?app_assoc.
    + intros k' [= <-]. rewrite lookup_insert_eq. eauto.
Qed.

Lemma Emplace_grows `{!ElementLaws T} h o l this b xs p x :
  vec_repr (State h o l) this b xs (length xs) → p ≤ length xs →
  can_allocate (grown (length xs)) = true → relocates xs →
  VectorH.Emplace this (Ptr b p) (Some x) (State h o l)
  = Ok (Ptr (Some (fresh (dom h))) p)
      (State
        (release_block b
          (<[fresh (dom h) := map Live (take p xs ++ x :: drop p xs)
               ++ replicate (grown (length xs) - S (length xs)) Uninit]> h))
        (<[this := mkVector (mkRawMemory (Some (fresh (dom h))) (grown (length xs)))
                            (S (length xs))]> o)
        (l ++ EvConstruct x :: relocate_events xs ++ map EvDestroy (relocate_left xs))).
Proof.
  intros Hvec Hp Hc Hr. pose proof Hvec as (Hv & _ & Hb). simpl in *.
  unfold VectorH.Emplace.
  rewrite (bind_ok _ _ _ _ _ (load_ok _ _ _ _ _ Hv)).
  unfold VectorH.begin, GetAddress; simpl.
  rewrite (bind_ok _ _ _ _ _ (distance_ok _ _ _)).
  unfold RawMemory_Capacity; simpl. rewrite decide_True by done.
  erewrite bind_ok; [|by apply EmplaceWithAllocate_ok].
  erewrite bind_ok; [|by apply load_ok, lookup_insert_eq].
  erewrite bind_ok; [|by apply set_size_ok, lookup_insert_eq].
  erewrite bind_ok; [|by apply load_ok, lookup_insert_eq].
  simpl. unfold ret, ptr_add; simpl.
  by rewrite !insert_insert_eq, Nat.add_1_r.
Qed.

(** ** Insertion with spare capacity *)

Lemma ptr_back_ok b n k σ : k ≤ n → ptr_back (Ptr b n) k σ = Ok (Ptr b (n - k)) σ.
Proof. intros Hk. unfold ptr_back; simpl. by rewrite decide_True. Qed.

Lemma EmplaceWithoutAllocate_mid `{!ElementLaws T} h o l this k pre mid last c x :
  (∀ v, is_Some (T_move v)) → (∀ d s, is_Some (T_move_assign d s)) →
  vec_repr (State h o l) this (Some k) (pre ++ mid ++ [last]) c →
  length (pre ++ mid ++ [last]) < c →
  VectorH.EmplaceWithoutAllocate this (length pre) (Some x) (State h o l)
  = Ok tt (State
      (<[k := map Live (pre ++ x :: mid ++ [last])
              ++ replicate (c - S (length (pre ++ mid ++ [last]))) Uninit]> h)
      o (l ++ insert_events x (mid ++ [last]))).
Proof.
  intros Hmv Hma (Hv & _ & Hb) Hc. simpl in *.
  assert (Hma' : ∀ d s, T_move_assign d s = Some (s, assigned_out d s))
    by (intros; by apply move_assign_some).
  set (n := length (pre ++ mid ++ [last])) in *.
  assert (Hn : n = S (length pre + length mid)).
  { unfold n. rewrite !length_app. simpl. lia. }
  destruct (c - n) as [|rest] eqn:Hrest; [lia|].
  assert (Hbuf : map Live (pre ++ mid ++ [last]) ++ replicate (S rest) Uninit
    = (map Live pre ++ map Live mid) ++ Live last :: Uninit :: replicate rest Uninit).
  { rewrite !map_app. simpl. by rewrite <- !app_assoc. }
  rewrite Hbuf in Hb.
  assert (Hpm : length (map Live pre ++ map Live mid) = length pre + length mid)
    by (by rewrite length_app, !length_map).
  unfold VectorH.EmplaceWithoutAllocate.
  rewrite (bind_ok _ _ _ _ _ (load_ok _ _ _ _ _ Hv)). simpl.
  rewrite (proj2 (Nat.ltb_lt (length pre) n)) by lia.
  unfold try_catch.
  unfold bind at 1, emit at 1; simpl.
  erewrite bind_ok; cycle 1.
  { eapply unwind_ok.
    erewrite bind_ok; [|apply RawMemory_plus_ok; simpl; lia].
    erewrite bind_ok; [|apply RawMemory_index_ok; simpl; lia].
    simpl.
    erewrite bind_ok; cycle 1.
    { eapply move_construct_at_same; [exact Hb| | |by apply move_some].
      - replace (n - 1) with (length (map Live pre ++ map Live mid)) by lia.
        apply lookup_mid.
      - replace n with (S (length (map Live pre ++ map Live mid))) by lia.
        apply lookup_mid2. }
    replace (n - 1) with (length (map Live pre ++ map Live mid)) by lia.
    rewrite insert_mid.
    replace n with (S (length (map Live pre ++ map Live mid))) at 1 by lia.
    rewrite insert_mid2.
    erewrite bind_ok; [|apply RawMemory_plus_ok; simpl; lia].
    unfold VectorH.end_.
    erewrite bind_ok; [|apply RawMemory_plus_ok; simpl; lia].
    simpl.
    erewrite bind_ok; [|apply ptr_back_ok; lia].
    erewrite bind_ok; cycle 1.
    { unfold move_backward, ptr_diff; simpl.
      rewrite decide_True by lia.
      replace (n - 1 - length pre) with (length mid) by lia.
      replace (n - 1) with (length (map Live pre) + length mid)
        by (rewrite length_map; lia).
      replace n with (S (length (map Live pre) + length mid)) at 1
        by (rewrite length_map; lia).
      eapply (move_backward_loop_ok _ k (map Live pre) Hma' mid (moved_out last)
                (Live last :: replicate rest Uninit)); [|done].
      rewrite lookup_insert_eq. by rewrite <- app_assoc. }
    unfold VectorH.begin, GetAddress, ptr_add; simpl.
    erewrite bind_ok; cycle 1.
    { eapply deref_ok; [by rewrite lookup_insert_eq|].
      rewrite <- (length_map Live pre). apply lookup_mid. }
    rewrite Hma'.
    unfold bind at 1, emit at 1; simpl.
    erewrite bind_ok; cycle 1.
    { eapply update_ok; [by rewrite lookup_insert_eq|].
      rewrite <- (length_map Live pre). apply lookup_mid. }
    done. }
  unfold emit; simpl.
  rewrite <- (length_map Live pre) at 1. rewrite insert_mid.
  rewrite !insert_insert_eq.
  f_equal. f_equal.
  - f_equal. replace (c - S n) with rest by lia.
    by list_norm.
  - unfold insert_events. rewrite rev_app_distr. simpl.
    by rewrite <- !app_assoc.
Qed.

Lemma EmplaceWithoutAllocate_append h o l this k xs c x :
  vec_repr (State h o l) this (Some k) xs c → length xs < c →
  VectorH.EmplaceWithoutAllocate this (length xs) (Some x) (State h o l)
  = Ok tt (State
      (<[k := map Live (xs ++ [x]) ++ replicate (c - S (length xs)) Uninit]> h)
      o (l ++ [EvConstruct x])).
Proof.
  intros (Hv & _ & Hb) Hc. simpl in *.
  unfold VectorH.EmplaceWithoutAllocate.
  rewrite (bind_ok _ _ _ _ _ (load_ok _ _ _ _ _ Hv)). simpl.
  rewrite Nat.ltb_irrefl.
  erewrite bind_ok; [|apply RawMemory_plus_ok; simpl; lia]. simpl.
  destruct (c - length xs) as [|rest] eqn:Hrest; [lia|]. simpl in Hb.
  erewrite construct_at_ok; [|exact Hb|].
  - rewrite <- (length_map Live xs) at 1. rewrite insert_mid.
    replace (c - S (length xs)) with rest by lia. by list_norm.
  - rewrite <- (length_map Live xs). apply lookup_mid.
Qed.

Lemma Emplace_in_place `{!ElementLaws T} h o l this k xs c p x :
  (∀ v, is_Some (T_move v)) → (∀ d s, is_Some (T_move_assign d s)) →
  vec_repr (State h o l) this (Some k) xs c → length xs < c → p ≤ length xs →
  VectorH.Emplace this (Ptr (Some k) p) (Some x) (State h o l)
  = Ok (Ptr (Some k) p) (State
      (<[k := map Live (take p xs ++ x :: drop p xs)
              ++ replicate (c - S (length xs)) Uninit]> h)
      (<[this := mkVector (mkRawMemory (Some k) c) (S (length xs))]> o)
      (l ++ insert_events x (drop p xs))).
Proof.
  intros Hmv Hma Hvec Hc Hp. pose proof Hvec as (Hv & _ & Hb). simpl in *.
  unfold VectorH.Emplace.
  rewrite (bind_ok _ _ _ _ _ (load_ok _ _ _ _ _ Hv)).
  unfold VectorH.begin, GetAddress; simpl.
  rewrite (bind_ok _ _ _ _ _ (distance_ok _ _ _)).
  unfold RawMemory_Capacity; simpl. rewrite decide_False by lia.
  assert (Hstep : VectorH.EmplaceWithoutAllocate this p (Some x) (State h o l)
    = Ok tt (State
        (<[k := map Live (take p xs ++ x :: drop p xs)
                ++ replicate (c - S (length xs)) Uninit]> h)
        o (l ++ insert_events x (drop p xs)))).
  { destruct (decide (p = length xs)) as [->|Hne].
    - rewrite firstn_all, drop_all.
      by apply EmplaceWithoutAllocate_append.
    - assert (Hd : drop p xs ≠ []).
      { intros Hd. apply (f_equal length) in Hd. rewrite length_drop in Hd.
        simpl in Hd. lia. }
      destruct (exists_last Hd) as (mid & last & Hml).
      pose proof (take_drop p xs) as Hxs. rewrite Hml in Hxs.
      assert (Hlen : length (take p xs) = p) by (rewrite length_take; lia).
      rewrite Hml. set (pre := take p xs) in *. clearbody pre. subst xs p.
      by apply EmplaceWithoutAllocate_mid. }
  rewrite (bind_ok _ _ _ _ _ Hstep).
  erewrite bind_ok; [|by apply load_ok].
  erewrite bind_ok; [|by apply set_size_ok].
  erewrite bind_ok; [|by apply load_ok, lookup_insert_eq].
  simpl. unfold ret, ptr_add; simpl.
  by rewrite Nat.add_1_r.
Qed.

(** ** Removal *)

Lemma Erase_at `{!ElementLaws T} h o l this k pre d suf c :
  (∀ d s, is_Some (T_move_assign d s)) →
  vec_repr (State h o l) this (Some k) (pre ++ d :: suf) c →
  VectorH.Erase this (Ptr (Some k) (length pre)) (State h o l)
  = Ok (Ptr (Some k) (length pre)) (State
      (<[k := map Live (pre ++ suf) ++ replicate (c - length (pre ++ suf)) Uninit]> h)
      (<[this := mkVector (mkRawMemory (Some k) c) (length (pre ++ suf))]> o)
      (l ++ shift_events d suf ++ [EvDestroy (shift_rest d suf)])).
Proof.
  intros Hma (Hv & Hle & Hb). simpl in *.
  assert (Hma' : ∀ d s, T_move_assign d s = Some (s, assigned_out d s))
    by (intros; by apply move_assign_some).
  set (n := length (pre ++ d :: suf)) in *.
  assert (Hn : n = S (length pre + length suf)).
  { unfold n. rewrite length_app. simpl. lia. }
  assert (Hbuf : map Live (pre ++ d :: suf) ++ replicate (c - n) Uninit
    = map Live pre ++ Live d :: map Live suf ++ replicate (c - n) Uninit)
    by (by list_norm).
  rewrite Hbuf in Hb.
  unfold VectorH.Erase.
  rewrite (bind_ok _ _ _ _ _ (load_ok _ _ _ _ _ Hv)).
  unfold VectorH.end_, VectorH.begin, GetAddress. simpl.
  erewrite bind_ok; [|apply RawMemory_plus_ok; simpl; lia]. simpl.
  erewrite bind_ok; cycle 1.
  { apply assert_ok. apply andb_true_iff. split; [apply Nat.ltb_lt; lia|done]. }
  rewrite (bind_ok _ _ _ _ _ (distance_ok _ _ _)).
  rewrite decide_False by lia.
  erewrite bind_ok; cycle 1.
  { erewrite bind_ok; [|apply RawMemory_plus_ok; simpl; lia].
    erewrite bind_ok; [|apply RawMemory_plus_ok; simpl; lia].
    erewrite bind_ok; [|apply RawMemory_plus_ok; simpl; lia].
    simpl.
    erewrite bind_ok; cycle 1.
    { unfold move, ptr_add, ptr_diff; simpl.
      rewrite decide_True by lia.
      replace (n - (length pre + 1)) with (length suf) by lia.
      rewrite Nat.add_1_r. rewrite <- (length_map Live pre).
      eapply (move_loop_ok _ k suf Hma' d); exact Hb. }
    erewrite bind_ok; [|apply ptr_back_ok; lia].
    erewrite bind_ok; cycle 1.
    { eapply destroy_at_ok; [by rewrite lookup_insert_eq|].
      replace (n - 1) with (length (map Live pre ++ map Live suf))
        by (rewrite length_app, !length_map; lia).
      rewrite app_assoc. apply lookup_mid. }
    by apply set_size_ok. }
  erewrite bind_ok; [|by apply load_ok, lookup_insert_eq].
  simpl. unfold ret, ptr_add; simpl.
  rewrite insert_insert_eq.
  replace (n - 1) with (length (map Live pre ++ map Live suf))
    by (rewrite length_app, !length_map; lia).
  rewrite app_assoc, insert_mid.
  f_equal. f_equal.
  - f_equal. rewrite <- app_assoc, map_app, <- app_assoc. do 2 f_equal.
    change (Uninit :: replicate (c - n) Uninit)
      with (replicate (S (c - n)) (@Uninit T)).
    f_equal. rewrite length_app. lia.
  - do 3 f_equal. by rewrite !length_app, !length_map.
  - by rewrite <- app_assoc.
Qed.

(** ** Copy assignment *)

Lemma DestroyN_from_eq b i n σ :
  VectorH.DestroyN_from (Ptr b 0) i n σ = destroy_n (Ptr b i) n σ.
Proof.
  revert i σ. induction n as [|n IH]; intros i σ; [done|]. simpl.
  unfold bind, VectorH.Destroy, ptr_add; simpl.
  destruct (destroy_at _ σ); try done.
  rewrite IH. do 3 f_equal. lia.
Qed.

Lemma destroy_all_ok h o l b xs c :
  (match b with
   | Some k => h !! k = Some (map Live xs ++ replicate (c - length xs) Uninit)
   | None => xs = []
   end) →
  destroy_n (Ptr b 0) (length xs) (State h o l)
  = Ok tt (State (write_block b (replicate (length xs) Uninit
                                  ++ replicate (c - length xs) Uninit) h)
                 o (l ++ map EvDestroy xs)).
Proof.
  destruct b as [k|]; simpl.
  - intros Hk. by apply (destroy_n_ok o k xs h l []).
  - intros ->. simpl. by rewrite app_nil_r.
Qed.

Lemma Vector_copy_ok `{!ElementLaws T} h o l temp other bb ys cb :
  vec_repr (State h o l) other bb ys cb →
  can_allocate (length ys) = true → Forall (λ y, is_Some (T_copy y)) ys →
  VectorH.Vector_copy temp other (State h o l)
  = Ok tt (State
      (match ys with [] => h | _ => <[fresh (dom h) := map Live ys]> h end)
      (<[temp := mkVector
           (mkRawMemory (match ys with [] => None | _ => Some (fresh (dom h)) end)
                        (length ys)) (length ys)]> o)
      (l ++ map EvCopy ys)).
Proof.
  intros (Hv & Hle & Hb) Hc Hcopy. simpl in *.
  unfold VectorH.Vector_copy.
  rewrite (bind_ok _ _ _ _ _ (load_ok _ _ _ _ _ Hv)). simpl.
  destruct (decide (ys = [])) as [->|Hne].
  - simpl. rewrite (bind_ok _ _ _ _ _ (RawMemory_new_0 _)).
    by rewrite app_nil_r.
  - assert (Hlen : length ys ≠ 0) by (by destruct ys).
    erewrite bind_ok; [|by apply RawMemory_new_ok].
    pose proof (fresh_block h) as Hfresh.
    set (new := fresh (dom h)) in *.
    destruct bb as [kb|]; [|lia].
    assert (Hkn : kb ≠ new) by (intros ->; congruence).
    erewrite bind_ok; cycle 1.
    { eapply unwind_ok. unfold GetAddress; simpl.
      eapply (uninitialized_copy_n_ok _ _ _ kb new ys [] _ [] (replicate (length ys) Uninit) []);
        [done| | | |].
      - eapply Forall_impl; [exact Hcopy|]. intros y. apply copy_some.
      - by rewrite lookup_insert_ne.
      - by rewrite lookup_insert_eq, app_nil_r.
      - by rewrite length_replicate. }
    simpl. rewrite insert_insert_eq, app_nil_r.
    unfold store, bind, get_objs, set_objs; simpl.
    destruct ys; done.
Qed.

Lemma Vector_copy_bad_alloc h o l temp other v :
  o !! other = Some v → size_ v ≠ 0 → representable (size_ v) →
  can_allocate (size_ v) = false →
  VectorH.Vector_copy temp other (State h o l) = Throw bad_alloc (State h o l).
Proof.
  intros Hv Hn Hr Hc. unfold VectorH.Vector_copy.
  rewrite (bind_ok _ _ _ _ _ (load_ok _ _ _ _ _ Hv)).
  by erewrite bind_throw; [|by apply RawMemory_new_throw].
Qed.

Lemma Vector_copy_throw `{!ElementLaws T} h o l temp other bb ys1 y ys2 cb :
  vec_repr (State h o l) other bb (ys1 ++ y :: ys2) cb →
  can_allocate (length (ys1 ++ y :: ys2)) = true →
  Forall (λ y, is_Some (T_copy y)) ys1 → T_copy y = None →
  VectorH.Vector_copy temp other (State h o l)
  = Throw element_exn (State h o (l ++ map EvCopy ys1 ++ map EvDestroy ys1)).
Proof.
  intros (Hv & Hle & Hb) Hc Hcopy Hy. simpl in *.
  unfold VectorH.Vector_copy.
  rewrite (bind_ok _ _ _ _ _ (load_ok _ _ _ _ _ Hv)). simpl.
  assert (Hlen : length (ys1 ++ y :: ys2) ≠ 0).
  { rewrite length_app. simpl. lia. }
  erewrite bind_ok; [|by apply RawMemory_new_ok].
  pose proof (fresh_block h) as Hfresh.
  set (new := fresh (dom h)) in *.
  destruct bb as [kb|]; [|lia].
  assert (Hkn : kb ≠ new) by (intros ->; congruence).
  erewrite bind_throw; [done|].
  eapply unwind_throw.
  - unfold GetAddress; simpl.
    eapply (uninitialized_copy_n_throw _ _ _ kb new ys1 y ys2 [] _ [] []);
      [done| |done| |].
    + eapply Forall_impl; [exact Hcopy|]. intros z. apply copy_some.
    + by rewrite lookup_insert_ne.
    + by rewrite lookup_insert_eq, app_nil_r.
  - rewrite RawMemory_dtor_ok.
    + simpl. by rewrite delete_insert_eq, delete_id.
    + intros k [= <-]. rewrite lookup_insert_eq. eauto.
Qed.

Lemma local_object_ok h o l :
  local_object (State h o l) = Ok (fresh (dom o)) (State h o l).
Proof. done. Qed.

Lemma Swap_ok h o l this other v w :
  this ≠ other → o !! this = Some v → o !! other = Some w →
  VectorH.Swap this other (State h o l)
  = Ok tt (State h (<[this := w]> (<[other := v]> o)) l).
Proof.
  intros Hne Hv Hw. unfold VectorH.Swap.
  rewrite (bind_ok _ _ _ _ _ (load_ok _ _ _ _ _ Hv)).
  rewrite (bind_ok _ _ _ _ _ (load_ok _ _ _ _ _ Hw)). simpl.
  erewrite bind_ok; [|by apply set_data_ok].
  erewrite bind_ok; [|apply set_data_ok; by rewrite lookup_insert_ne].
  erewrite bind_ok; cycle 1.
  { apply load_ok. rewrite lookup_insert_ne by done. apply lookup_insert_eq. }
  erewrite bind_ok; [|apply load_ok, lookup_insert_eq].
  erewrite bind_ok; [|apply set_size_ok, lookup_insert_eq].
  erewrite set_size_ok; cycle 1.
  { rewrite !lookup_insert_ne by done. apply lookup_insert_eq. }
  simpl. destruct v as [[bv cv] sv], w as [[bw cw] sw]; simpl. do 2 f_equal.
  apply map_eq. intros j. rewrite !lookup_insert.
  repeat case_decide; subst; done.
Qed.

Lemma Vector_dtor_ok h o l this b xs c :
  o !! this = Some (mkVector (mkRawMemory b c) (length xs)) →
  (match b with
   | Some k => h !! k = Some (map Live xs ++ replicate (c - length xs) Uninit)
   | None => xs = []
   end) →
  VectorH.Vector_dtor this (State h o l)
  = Ok tt (State (release_block b h) (delete this o) (l ++ map EvDestroy xs)).
Proof.
  intros Hv Hb. unfold VectorH.Vector_dtor.
  rewrite (bind_ok _ _ _ _ _ (load_ok _ _ _ _ _ Hv)). simpl.
  erewrite bind_ok; cycle 1.
  { unfold VectorH.DestroyN, GetAddress; simpl. rewrite DestroyN_from_eq.
    by apply (destroy_all_ok _ _ _ _ _ c). }
  erewrite bind_ok; cycle 1.
  { apply RawMemory_dtor_ok. intros k ->. simpl. rewrite lookup_insert_eq. eauto. }
  unfold release, bind, get_objs, set_objs; simpl. do 2 f_equal.
  destruct b as [k|]; simpl; [|done]. by rewrite delete_insert_eq.
Qed.

(** [a = b] when [a]'s capacity is too small: copy and swap *)
Lemma assign_copy_swaps `{!ElementLaws T} h o l this other ba xs ca bb ys cb :
  this ≠ other →
  vec_repr (State h o l) this ba xs ca → vec_repr (State h o l) other bb ys cb →
  ca < length ys →
  can_allocate (length ys) = true → Forall (λ y, is_Some (T_copy y)) ys →
  VectorH.assign_copy this other (State h o l)
  = Ok tt (State
      (release_block ba (<[fresh (dom h) := map Live ys]> h))
      (<[this := mkVector (mkRawMemory (Some (fresh (dom h))) (length ys)) (length ys)]> o)
      (l ++ map EvCopy ys ++ map EvDestroy xs)).
Proof.
  intros Hne Ha Hb Hlt Hc Hcopy.
  pose proof Ha as (Hva & Hlea & Hba). pose proof Hb as (Hvb & Hleb & Hbb).
  simpl in *.
  unfold VectorH.assign_copy. rewrite decide_True by done.
  rewrite (bind_ok _ _ _ _ _ (load_ok _ _ _ _ _ Hva)).
  rewrite (bind_ok _ _ _ _ _ (load_ok _ _ _ _ _ Hvb)).
  unfold RawMemory_Capacity; simpl.
  rewrite (proj2 (Nat.ltb_lt _ _) Hlt).
  rewrite (bind_ok _ _ _ _ _ (local_object_ok _ _ _)).
  assert (Hfo : o !! fresh (dom o) = None) by apply not_elem_of_dom, is_fresh.
  set (temp := fresh (dom o)) in *.
  assert (Hta : temp ≠ this) by (intros ->; congruence).
  erewrite bind_ok; [|by eapply Vector_copy_ok].
  pose proof (fresh_block h) as Hfresh.
  set (new := fresh (dom h)) in *.
  destruct ys as [|y ys']; [simpl in *; lia|].
  set (ys := y :: ys') in *.
  erewrite bind_ok; cycle 1.
  { eapply Swap_ok; [done| |apply lookup_insert_eq].
    rewrite lookup_insert_ne by done. exact Hva. }
  erewrite Vector_dtor_ok; cycle 1.
  { rewrite lookup_insert_ne by done. apply lookup_insert_eq. }
  { destruct ba as [ka|]; [|destruct xs; [done|simpl in *; lia]].
    rewrite lookup_insert_ne; [done|]. intros <-. congruence. }
  f_equal. f_equal.
  - apply map_eq. intros j. rewrite !lookup_delete, !lookup_insert.
    repeat case_decide; subst; try done.
  - by rewrite <- app_assoc.
Qed.

Lemma assign_copy_bad_alloc h o l this other v w :
  this ≠ other → o !! this = Some v → o !! other = Some w →
  capacity_ (data_ v) < size_ w → representable (size_ w) →
  can_allocate (size_ w) = false →
  VectorH.assign_copy this other (State h o l) = Throw bad_alloc (State h o l).
Proof.
  intros Hne Hv Hw Hlt Hr Hc.
  unfold VectorH.assign_copy. rewrite decide_True by done.
  rewrite (bind_ok _ _ _ _ _ (load_ok _ _ _ _ _ Hv)).
  rewrite (bind_ok _ _ _ _ _ (load_ok _ _ _ _ _ Hw)).
  unfold RawMemory_Capacity. rewrite (proj2 (Nat.ltb_lt _ _) Hlt).
  rewrite (bind_ok _ _ _ _ _ (local_object_ok _ _ _)).
  erewrite bind_throw; [done|]. eapply Vector_copy_bad_alloc; [done|lia|done|done].
Qed.

Lemma assign_copy_throws `{!ElementLaws T} h o l this other ba xs ca bb ys1 y ys2 cb :
  this ≠ other →
  vec_repr (State h o l) this ba xs ca →
  vec_repr (State h o l) other bb (ys1 ++ y :: ys2) cb →
  ca < length (ys1 ++ y :: ys2) →
  can_allocate (length (ys1 ++ y :: ys2)) = true →
  Forall (λ y, is_Some (T_copy y)) ys1 → T_copy y = None →
  VectorH.assign_copy this other (State h o l)
  = Throw element_exn (State h o (l ++ map EvCopy ys1 ++ map EvDestroy ys1)).
Proof.
  intros Hne Ha Hb Hlt Hc Hcopy Hy.
  pose proof Ha as (Hva & Hlea & Hba). pose proof Hb as (Hvb & Hleb & Hbb).
  simpl in *.
  unfold VectorH.assign_copy. rewrite decide_True by done.
  rewrite (bind_ok _ _ _ _ _ (load_ok _ _ _ _ _ Hva)).
  rewrite (bind_ok _ _ _ _ _ (load_ok _ _ _ _ _ Hvb)).
  unfold RawMemory_Capacity; simpl.
  rewrite (proj2 (Nat.ltb_lt _ _) Hlt).
  rewrite (bind_ok _ _ _ _ _ (local_object_ok _ _ _)).
  erewrite bind_throw; [done|]. by eapply Vector_copy_throw.
Qed.

Lemma copy_empty first d_first σ : copy first (ptr_add first 0) d_first σ = Ok tt σ.
Proof.
  unfold copy, ptr_add, ptr_diff; simpl. rewrite decide_True by lia.
  by replace (ptr_off first + 0 - ptr_off first) with 0 by lia.
Qed.

(** [a = b] when [a]'s capacity suffices *)
Lemma assign_copy_fits `{!ElementLaws T} h o l this other ba xs ca bb ys cb :
  this ≠ other → apart ba bb →
  vec_repr (State h o l) this ba xs ca → vec_repr (State h o l) other bb ys cb →
  length ys ≤ ca →
  (∀ d s, is_Some (T_copy_assign d s)) →
  Forall (λ y, is_Some (T_copy y)) (drop (length xs) ys) →
  VectorH.assign_copy this other (State h o l)
  = Ok tt (State
      (write_block ba (map Live ys ++ replicate (ca - length ys) Uninit) h)
      (<[this := mkVector (mkRawMemory ba ca) (length ys)]> o)
      (l ++ zip_with EvCopyAssign xs ys
         ++ map EvCopy (drop (length xs) ys)
         ++ map EvDestroy (drop (length ys) xs))).
Proof.
  intros Hne Hapart Ha Hb Hfit Hassign Hcopy.
  pose proof Ha as (Hva & Hlea & Hba). pose proof Hb as (Hvb & Hleb & Hbb).
  simpl in *.
  assert (Hassign' : ∀ d s, T_copy_assign d s = Some s)
    by (intros; by apply copy_assign_some).
  unfold VectorH.assign_copy. rewrite decide_True by done.
  rewrite (bind_ok _ _ _ _ _ (load_ok _ _ _ _ _ Hva)).
  rewrite (bind_ok _ _ _ _ _ (load_ok _ _ _ _ _ Hvb)).
  unfold RawMemory_Capacity, GetAddress; simpl.
  rewrite (proj2 (Nat.ltb_ge _ _) Hfit).
  destruct (length xs <? length ys) eqn:Hcmp.
  - (* the source is longer: assign the common prefix, construct the rest *)
    apply Nat.ltb_lt in Hcmp.
    destruct ba as [ka|]; [|lia]. destruct bb as [kb|]; [|lia].
    assert (Hab : ka ≠ kb) by (by apply Hapart).
    pose proof (take_drop (length xs) ys) as Hys.
    assert (Hlen : length (take (length xs) ys) = length xs)
      by (rewrite length_take; lia).
    set (ys1 := take (length xs) ys) in *. set (ys2 := drop (length xs) ys) in *.
    clearbody ys1 ys2. subst ys. rewrite length_app in *.
    erewrite bind_ok; cycle 1.
    { erewrite bind_ok; cycle 1.
      { unfold copy, ptr_add, ptr_diff; cbn [ptr_off ptr_block]. rewrite decide_True by lia.
        rewrite Nat.sub_0_r, <- Hlen.
        eapply (copy_loop_ok _ kb ka ys1 (not_eq_sym Hab) xs _ _ [] (map Live ys2 ++ _) [] _).
        - apply Forall2_true; [done|lia].
        - simpl. rewrite Hbb. by list_norm.
        - simpl. exact Hba. }
      unfold ptr_add; simpl.
      replace (length ys1 + length ys2 - length xs) with (length ys2) by lia.
      rewrite <- Hlen. rewrite <- (length_map Live ys1) at 1 2.
      eapply (uninitialized_copy_n_ok _ _ _ kb ka ys2 _ _ _
                (replicate (length ys2) Uninit)
                (replicate (ca - (length ys1 + length ys2)) Uninit)).
      - done.
      - eapply Forall_impl; [exact Hcopy|]. intros z. apply copy_some.
      - rewrite lookup_insert_ne by done. rewrite Hbb. by list_norm.
      - rewrite lookup_insert_eq. simpl. rewrite <- replicate_add.
        do 3 f_equal. lia.
      - by rewrite length_replicate. }
    erewrite set_size_ok by done. simpl.
    rewrite insert_insert_eq. f_equal. f_equal.
    + f_equal. by list_norm.
    + rewrite (drop_ge xs) by lia. simpl. rewrite app_nil_r.
      rewrite <- app_assoc. do 2 f_equal.
      rewrite zip_with_app_r, Hlen, firstn_all, drop_all. simpl.
      by rewrite app_nil_r.
  - (* the source is not longer: assign, then destroy the surplus *)
    apply Nat.ltb_ge in Hcmp.
    rewrite (drop_ge ys) in * by lia. simpl.
    pose proof (take_drop (length ys) xs) as Hxs.
    assert (Hlen : length (take (length ys) xs) = length ys)
      by (rewrite length_take; lia).
    set (xs1 := take (length ys) xs) in *. set (xs2 := drop (length ys) xs) in *.
    clearbody xs1 xs2. subst xs. rewrite length_app in *.
    destruct ba as [ka|].
    + assert (Hstep1 : copy (Ptr bb 0) (ptr_add (Ptr bb 0) (length ys)) (Ptr (Some ka) 0)
                (State h o l)
        = Ok tt (State (<[ka := map Live ys ++ map Live xs2
                                ++ replicate (ca - (length xs1 + length xs2)) Uninit]> h)
                       o (l ++ zip_with EvCopyAssign xs1 ys))).
      { destruct ys as [|y ys'].
        - destruct xs1; [|done]. simpl in *.
          rewrite copy_empty. by rewrite insert_id, app_nil_r.
        - destruct bb as [kb|]; [|simpl in *; lia].
          assert (Hab : ka ≠ kb) by (by apply Hapart).
          set (ys := y :: ys') in *.
          unfold copy, ptr_add, ptr_diff; cbn [ptr_off ptr_block]. rewrite decide_True by lia.
          rewrite Nat.sub_0_r.
          eapply (copy_loop_ok _ kb ka ys (not_eq_sym Hab) xs1 _ _ [] _ [] _).
          + apply Forall2_true; [done|lia].
          + simpl. exact Hbb.
          + simpl. rewrite Hba. by list_norm. }
      erewrite bind_ok; cycle 1.
      { rewrite (bind_ok _ _ _ _ _ Hstep1).
        unfold ptr_add; simpl.
        replace (length xs1 + length xs2 - length ys) with (length xs2) by lia.
        rewrite <- (length_map Live ys).
        eapply (destroy_n_ok _ ka xs2).
        by rewrite lookup_insert_eq. }
      erewrite set_size_ok by done. simpl.
      rewrite insert_insert_eq. f_equal. f_equal.
      * do 2 f_equal. rewrite <- replicate_add. f_equal. lia.
      * rewrite <- app_assoc. do 2 f_equal.
        rewrite zip_with_app_l, Hlen, firstn_all, drop_all.
        by rewrite zip_with_nil_r, app_nil_r.
    + subst ca. destruct xs1; [|simpl in *; lia]. destruct xs2; [|simpl in *; lia].
      destruct ys; [|simpl in *; lia]. simpl.
      erewrite bind_ok; cycle 1.
      { rewrite (bind_ok _ _ _ _ _ (copy_empty _ _ _)). done. }
      erewrite set_size_ok by done. simpl. by rewrite app_nil_r.
Qed.

(** ** Reasoning about every way a call can end *)

Lemma wp_ret {A} (a : A) σ Q E : Q a σ → wp (ret a) σ Q E.
Proof. done. Qed.

Lemma wp_throw {A} e σ (Q : A → state T → Prop) E : E σ → wp (throw e) σ Q E.
Proof. done. Qed.

Lemma wp_fail {A} f σ (Q : A → state T → Prop) E : wp (fail f) σ Q E.
Proof. done. Qed.

Lemma wp_bind {A B} (m : M T A) (k : A → M T B) σ Q E :
  wp m σ (λ a σ', wp (k a) σ' Q E) E → wp (bind m k) σ Q E.
Proof. unfold wp, bind. by destruct (m σ). Qed.

Lemma wp_mono {A} (m : M T A) σ (Q Q' : A → state T → Prop) (E E' : state T → Prop) :
  wp m σ Q E → (∀ a σ', Q a σ' → Q' a σ') → (∀ σ', E σ' → E' σ') → wp m σ Q' E'.
Proof. unfold wp. destruct (m σ); auto. Qed.

Lemma wp_try_catch {A} (m : M T A) (hd : exn → M T A) σ Q E :
  wp m σ Q (λ σ', ∀ e, wp (hd e) σ' Q E) → wp (try_catch m hd) σ Q E.
Proof. unfold wp, try_catch. destruct (m σ); auto. intros Hh. apply Hh. Qed.

Lemma wp_unwind {A} (m : M T A) c σ Q E :
  wp m σ Q (λ σ', wp c σ' (λ _ σ'', E σ'') E) → wp (unwind m c) σ Q E.
Proof.
  intros Hm. apply wp_try_catch. eapply wp_mono; [exact Hm|done|].
  intros σ' Hc e. apply wp_bind. eapply wp_mono; [exact Hc| |done].
  intros ? σ'' HE. by apply wp_throw.
Qed.

(** *** Computations on element storage *)

Lemma keeps_ret {A} (a : A) : keeps (T:=T) (ret a).
Proof. by intros σ. Qed.

Lemma keeps_throw {A} e : keeps (T:=T) (A:=A) (throw e).
Proof. by intros σ. Qed.

Lemma keeps_fail {A} f : keeps (T:=T) (A:=A) (fail f).
Proof. by intros σ. Qed.

Lemma keeps_bind {A B} (m : M T A) (k : A → M T B) :
  keeps m → (∀ a, keeps (T:=T) (k a)) → keeps (T:=T) (bind m k).
Proof.
  intros Hm Hk σ. apply wp_bind. eapply wp_mono; [apply Hm| |done].
  intros a σ' Heq. simpl in Heq. rewrite <- Heq. apply Hk.
Qed.

Lemma keeps_try_catch {A} (m : M T A) (hd : exn → M T A) :
  keeps m → (∀ e, keeps (T:=T) (hd e)) → keeps (T:=T) (try_catch m hd).
Proof.
  intros Hm Hh σ. apply wp_try_catch. eapply wp_mono; [apply Hm|done|].
  intros σ' Heq e. simpl in Heq. rewrite <- Heq. apply Hh.
Qed.

Lemma keeps_unwind {A} (m : M T A) c : keeps m → keeps c → keeps (T:=T) (unwind m c).
Proof.
  intros Hm Hc. apply keeps_try_catch; [done|]. intros e.
  apply keeps_bind; [done|]. intros _. apply keeps_throw.
Qed.

Lemma keeps_get_heap : keeps (T:=T) get_heap.
Proof. by intros σ. Qed.

Lemma keeps_set_heap h : keeps (T:=T) (set_heap h).
Proof. by intros σ. Qed.

Lemma keeps_get_log : keeps (T:=T) get_log.
Proof. by intros σ. Qed.

Lemma keeps_emit e : keeps (T:=T) (emit e).
Proof. by intros σ. Qed.

Lemma keeps_get_objs : keeps (T:=T) get_objs.
Proof. by intros σ. Qed.

Lemma keeps_load this : keeps (T:=T) (load this).
Proof.
  intros σ. unfold wp, load, bind, get_objs. by destruct (objs σ !! this).
Qed.

Lemma keeps_assert b : keeps (T:=T) (assert_ b).
Proof. unfold assert_. destruct NDEBUG, b; (apply keeps_ret || apply keeps_fail). Qed.

End running.

Create HintDb keeps.
#[global] Hint Resolve keeps_ret keeps_throw keeps_fail keeps_get_heap keeps_set_heap
  keeps_emit keeps_get_log keeps_assert keeps_get_objs keeps_load : keeps.

Ltac keeps_tac :=
  repeat first
    [ progress intros
    | solve [eauto with keeps]
    | apply keeps_bind
    | apply keeps_unwind
    | apply keeps_try_catch
    | match goal with
      | |- keeps (match ?x with _ => _ end) => destruct x
      | |- keeps (if ?x then _ else _) => destruct x
      | |- keeps (let '(_, _) := ?x in _) => destruct x
      end ].

Section storage.
Context {T : Type} `{Element T} `{Platform}.

Lemma keeps_load_slot p : keeps (T:=T) (load_slot p).
Proof. unfold load_slot. keeps_tac. Qed.

Lemma keeps_store_slot p s : keeps (T:=T) (store_slot p s).
Proof. unfold store_slot. keeps_tac. Qed.

Hint Resolve keeps_load_slot keeps_store_slot : keeps.

Lemma keeps_deref p : keeps (T:=T) (deref p).
Proof. unfold deref. keeps_tac. Qed.

Hint Resolve keeps_deref : keeps.

Lemma keeps_update p v : keeps (T:=T) (update p v).
Proof. unfold update. keeps_tac. Qed.

Lemma keeps_place p v : keeps (T:=T) (place p v).
Proof. unfold place. keeps_tac. Qed.

Hint Resolve keeps_update keeps_place : keeps.

Lemma keeps_operator_new n : keeps (T:=T) (operator_new n).
Proof. unfold operator_new. keeps_tac. Qed.

Lemma keeps_operator_delete p : keeps (T:=T) (operator_delete p).
Proof. unfold operator_delete. keeps_tac. Qed.

Lemma keeps_construct_at p mk : keeps (T:=T) (construct_at p mk).
Proof. unfold construct_at. keeps_tac. Qed.

Lemma keeps_default_construct_at p : keeps (T:=T) (default_construct_at p).
Proof. unfold default_construct_at. keeps_tac. Qed.

Lemma keeps_value_construct_at p : keeps (T:=T) (value_construct_at p).
Proof. unfold value_construct_at. keeps_tac. Qed.

Lemma keeps_copy_construct_at p q : keeps (T:=T) (copy_construct_at p q).
Proof. unfold copy_construct_at. keeps_tac. Qed.

Lemma keeps_move_construct_at p q : keeps (T:=T) (move_construct_at p q).
Proof. unfold move_construct_at. keeps_tac. Qed.

Lemma keeps_copy_assign_at p q : keeps (T:=T) (copy_assign_at p q).
Proof. unfold copy_assign_at. keeps_tac. Qed.

Lemma keeps_move_assign_at p q : keeps (T:=T) (move_assign_at p q).
Proof. unfold move_assign_at. keeps_tac. Qed.

Lemma keeps_destroy_at p : keeps (T:=T) (destroy_at p).
Proof. unfold destroy_at. keeps_tac. Qed.

Hint Resolve keeps_operator_new keeps_operator_delete keeps_construct_at
  keeps_default_construct_at keeps_value_construct_at keeps_copy_construct_at keeps_move_construct_at
  keeps_copy_assign_at keeps_move_assign_at keeps_destroy_at : keeps.

Lemma keeps_destroy_n p n : keeps (T:=T) (destroy_n p n).
Proof. revert p. induction n; intros p; simpl; keeps_tac. Qed.

Hint Resolve keeps_destroy_n : keeps.

Lemma keeps_uninitialized_loop step d i n :
  (∀ i, keeps (T:=T) (step i)) → keeps (T:=T) (uninitialized_loop step d i n).
Proof. intros Hs. revert i. induction n; intros i; simpl; keeps_tac. Qed.

Lemma keeps_uninitialized_copy_n p n q : keeps (T:=T) (uninitialized_copy_n p n q).
Proof. apply keeps_uninitialized_loop. keeps_tac. Qed.

Lemma keeps_uninitialized_move_n p n q : keeps (T:=T) (uninitialized_move_n p n q).
Proof. apply keeps_uninitialized_loop. keeps_tac. Qed.

Lemma keeps_uninitialized_default_construct_n p n :
  keeps (T:=T) (uninitialized_default_construct_n p n).
Proof. apply keeps_uninitialized_loop. keeps_tac. Qed.

Lemma keeps_uninitialized_value_construct_n p n :
  keeps (T:=T) (uninitialized_value_construct_n p n).
Proof. apply keeps_uninitialized_loop. keeps_tac. Qed.

Lemma keeps_copy_loop p r n : keeps (T:=T) (copy_loop p r n).
Proof. revert p r. induction n; intros p r; simpl; keeps_tac. Qed.

Lemma keeps_move_loop p r n : keeps (T:=T) (move_loop p r n).
Proof. revert p r. induction n; intros p r; simpl; keeps_tac. Qed.

Lemma keeps_move_backward_loop q r n : keeps (T:=T) (move_backward_loop q r n).
Proof. revert q r. induction n; intros q r; simpl; keeps_tac. Qed.

Lemma keeps_copy p q r : keeps (T:=T) (copy p q r).
Proof. unfold copy. destruct (decide _); [apply keeps_copy_loop|apply keeps_fail]. Qed.

Lemma keeps_move p q r : keeps (T:=T) (move p q r).
Proof. unfold move. destruct (decide _); [apply keeps_move_loop|apply keeps_fail]. Qed.

Lemma keeps_move_backward p q r : keeps (T:=T) (move_backward p q r).
Proof.
  unfold move_backward.
  destruct (decide _); [apply keeps_move_backward_loop|apply keeps_fail].
Qed.

Lemma keeps_ptr_back p k : keeps (T:=T) (ptr_back p k).
Proof. unfold ptr_back. keeps_tac. Qed.

Lemma keeps_distance p q : keeps (T:=T) (distance p q).
Proof. unfold distance. keeps_tac. Qed.

Lemma keeps_RawMemory_new n : keeps (T:=T) (RawMemory_new n).
Proof. unfold RawMemory_new, Allocate. keeps_tac. Qed.

Lemma keeps_RawMemory_dtor m : keeps (T:=T) (RawMemory_dtor m).
Proof. unfold RawMemory_dtor, Deallocate. keeps_tac. Qed.

Lemma keeps_RawMemory_plus m n : keeps (T:=T) (RawMemory_plus m n).
Proof. unfold RawMemory_plus. keeps_tac. Qed.

Lemma keeps_RawMemory_index m n : keeps (T:=T) (RawMemory_index m n).
Proof. unfold RawMemory_index. keeps_tac. Qed.

Lemma keeps_CopyOrMove p q n : keeps (T:=T) (VectorH.CopyOrMove p q n).
Proof.
  unfold VectorH.CopyOrMove.
  destruct relocate_by_move;
    [apply keeps_uninitialized_move_n|apply keeps_uninitialized_copy_n].
Qed.

Lemma keeps_DestroyN p n : keeps (T:=T) (VectorH.DestroyN p n).
Proof.
  unfold VectorH.DestroyN. generalize 0. intros i. revert i.
  induction n; intros i; simpl; unfold VectorH.Destroy; keeps_tac.
Qed.

End storage.

#[global] Hint Resolve keeps_load_slot keeps_store_slot keeps_deref keeps_update keeps_place
  keeps_operator_new keeps_operator_delete keeps_construct_at
  keeps_default_construct_at keeps_value_construct_at keeps_copy_construct_at keeps_move_construct_at
  keeps_copy_assign_at keeps_move_assign_at keeps_destroy_at keeps_destroy_n
  keeps_uninitialized_copy_n keeps_uninitialized_move_n
  keeps_uninitialized_default_construct_n keeps_uninitialized_value_construct_n
  keeps_copy keeps_move keeps_move_backward keeps_ptr_back keeps_distance
  keeps_RawMemory_new keeps_RawMemory_dtor keeps_RawMemory_plus keeps_RawMemory_index
  keeps_CopyOrMove keeps_DestroyN : keeps.

Section objects_calculus.
Context {T : Type} `{Element T} `{Platform}.
Implicit Types (o : gmap nat Vector).

Lemma owp_ret {A} (a : A) o Q E : Q a o → owp (T:=T) (ret a) o Q E.
Proof. by intros HQ σ <-. Qed.

Lemma owp_throw {A} e o (Q : A → _ → Prop) E : E o → owp (T:=T) (throw e) o Q E.
Proof. by intros HE σ <-. Qed.

Lemma owp_fail {A} f o (Q : A → _ → Prop) E : owp (T:=T) (fail f) o Q E.
Proof. by intros σ <-. Qed.

Lemma owp_bind {A B} (m : M T A) (k : A → M T B) o Q E :
  owp m o (λ a o', owp (k a) o' Q E) E → owp (bind m k) o Q E.
Proof.
  intros Hm σ Ho. apply wp_bind. eapply wp_mono; [by apply Hm| |done].
  intros a σ' Hk. by apply Hk.
Qed.

Lemma owp_mono {A} (m : M T A) o (Q Q' : A → _ → Prop) (E E' : _ → Prop) :
  owp m o Q E → (∀ a o', Q a o' → Q' a o') → (∀ o', E o' → E' o') → owp m o Q' E'.
Proof. intros Hm HQ HE σ Ho. eapply wp_mono; [by apply Hm|..]; eauto. Qed.

Lemma owp_try_catch {A} (m : M T A) (hd : exn → M T A) o Q E :
  owp m o Q (λ o', ∀ e, owp (hd e) o' Q E) → owp (try_catch m hd) o Q E.
Proof.
  intros Hm σ Ho. apply wp_try_catch. eapply wp_mono; [by apply Hm|done|].
  intros σ' Hh e. by apply Hh.
Qed.

Lemma owp_unwind {A} (m : M T A) c o Q E :
  owp m o Q (λ o', owp c o' (λ _ o'', E o'') E) → owp (unwind m c) o Q E.
Proof.
  intros Hm. apply owp_try_catch. eapply owp_mono; [exact Hm|done|].
  intros o' Hc e. apply owp_bind. eapply owp_mono; [exact Hc| |done].
  intros ? o'' HE. by apply owp_throw.
Qed.

Lemma owp_keeps {A} (m : M T A) o (Q : A → _ → Prop) (E : _ → Prop) :
  keeps m → (∀ a, Q a o) → E o → owp m o Q E.
Proof.
  intros Hk HQ HE σ <-. eapply wp_mono; [apply Hk|..]; simpl.
  - intros a σ' ->. apply HQ.
  - by intros σ' ->.
Qed.

Lemma owp_load this o Q E :
  (∀ v, o !! this = Some v → Q v o) → owp (T:=T) (load this) o Q E.
Proof.
  intros HQ σ <-. unfold wp, load, bind, get_objs.
  destruct (objs σ !! this) eqn:Hv; simpl; auto.
Qed.

Lemma owp_store this v o Q E :
  Q tt (<[this := v]> o) → owp (T:=T) (store this v) o Q E.
Proof. by intros HQ σ <-. Qed.

Lemma owp_set_data this d o Q E :
  (∀ v, o !! this = Some v → Q tt (<[this := mkVector d (size_ v)]> o)) →
  owp (T:=T) (set_data this d) o Q E.
Proof. intros HQ. apply owp_bind, owp_load. intros v Hv. by apply owp_store, HQ. Qed.

Lemma owp_set_size this n o Q E :
  (∀ v, o !! this = Some v → Q tt (<[this := mkVector (data_ v) n]> o)) →
  owp (T:=T) (set_size this n) o Q E.
Proof. intros HQ. apply owp_bind, owp_load. intros v Hv. by apply owp_store, HQ. Qed.

Lemma owp_release this o Q E :
  Q tt (delete this o) → owp (T:=T) (release this) o Q E.
Proof. by intros HQ σ <-. Qed.

Lemma owp_RawMemory_new n o Q E :
  (∀ b, Q (mkRawMemory b n) o) → E o → owp (T:=T) (RawMemory_new n) o Q E.
Proof.
  intros HQ HE. unfold RawMemory_new. apply owp_bind.
  apply owp_keeps; [unfold Allocate; keeps_tac| |done].
  intros b. by apply owp_ret.
Qed.

Lemma owp_local_object o Q E :
  Q (fresh (dom o)) o → owp (T:=T) local_object o Q E.
Proof. by intros HQ σ <-. Qed.

End objects_calculus.

Ltac owp_step :=
  lazymatch goal with
  | |- context [RawMemory_Swap _ _] => unfold RawMemory_Swap; cbv beta iota
  | |- context [RawMemory_move _] => unfold RawMemory_move; cbv beta iota
  | |- context [RawMemory_move_assign _ _ _] => unfold RawMemory_move_assign; cbv beta iota
  | |- owp (bind _ _) _ _ _ => apply owp_bind
  | |- owp (ret _) _ _ _ => apply owp_ret
  | |- owp (throw _) _ _ _ => apply owp_throw
  | |- owp (fail _) _ _ _ => apply owp_fail
  | |- owp (load _) _ _ _ => apply owp_load; intros ? ?
  | |- owp (store _ _) _ _ _ => apply owp_store
  | |- owp (set_data _ _) _ _ _ => apply owp_set_data; intros ? ?
  | |- owp (set_size _ _) _ _ _ => apply owp_set_size; intros ? ?
  | |- owp (release _) _ _ _ => apply owp_release
  | |- owp local_object _ _ _ => apply owp_local_object
  | |- owp (RawMemory_new _) _ _ _ => apply owp_RawMemory_new; [intros ?|]
  | |- owp (unwind _ _) _ _ _ => apply owp_unwind
  | |- owp (try_catch _ _) _ _ _ => apply owp_try_catch
  | |- owp (if ?b then _ else _) _ _ _ => destruct b eqn:?
  | |- owp (match ?x with _ => _ end) _ _ _ => destruct x eqn:?
  | |- owp _ _ _ _ => apply owp_keeps; [solve [keeps_tac] | intros ? | ]
  | |- ∀ _, _ => intros ?
  end.

Section invariant_basics.
Context {T : Type} `{Element T} `{Platform}.
Implicit Types (o : gmap nat Vector).

Lemma invariant_insert o this v :
  invariant o → size_le_capacity v → invariant (<[this := v]> o).
Proof. intros Ho Hv. by apply map_Forall_insert_2. Qed.

Lemma invariant_lookup o this v :
  invariant o → o !! this = Some v → size_ v ≤ capacity_ (data_ v).
Proof. intros Ho Hv. exact (map_Forall_lookup_1 _ _ _ _ Ho Hv). Qed.

Lemma invariant_delete o this : invariant o → invariant (delete this o).
Proof. apply map_Forall_delete. Qed.
End invariant_basics.

Ltac inv_facts :=
  repeat match goal with
  | Ho : invariant ?o, H : ?o !! _ = Some ?v |- _ =>
      lazymatch goal with
      | _ : size_ v ≤ capacity_ (data_ v) |- _ => fail
      | _ => pose proof (invariant_lookup _ _ _ Ho H)
      end
  end.

Ltac inv_solve :=
  simplify_eq/=; inv_facts;
  unfold RawMemory_Capacity, size_le_capacity in *;
  rewrite ?Nat.leb_le, ?Nat.leb_gt, ?Nat.ltb_lt, ?Nat.ltb_ge in *;
  repeat first
    [ assumption
    | split
    | apply invariant_insert
    | apply invariant_delete
    | progress (unfold size_le_capacity; simpl)
    | lia
    | intros ?; rewrite lookup_insert_eq; intros [= <-] ].

Section invariant_of_members.
Context {T : Type} `{Element T} `{Platform}.
Implicit Types (o : gmap nat Vector).

Lemma Reserve_inv this n o :
  invariant o →
  owp (T:=T) (VectorH.Reserve this n) o
    (λ _ o', invariant o' ∧ ∀ v', o' !! this = Some v' → n ≤ capacity_ (data_ v'))
    invariant.
Proof.
  intros Ho. unfold VectorH.Reserve.
  repeat owp_step; try solve [inv_solve].
  split; [done|]. intros v' ?. inv_solve.
Qed.

(** [~RawMemory()] does not throw *)
Lemma owp_RawMemory_dtor m o (Q : unit → _ → Prop) E :
  Q tt o → owp (T:=T) (RawMemory_dtor m) o Q E.
Proof.
  intros HQ σ <-. unfold wp, RawMemory_dtor, Deallocate, operator_delete.
  simpl. destruct (buffer_ m) as [b|]; simpl; [|done].
  unfold bind, get_heap, set_heap. simpl.
  by destruct (heap σ !! b).
Qed.

(** [Reserve] whatever happens: when it returns, the vector has the
    size it had and a capacity that is at least the old one and at least
    [n]; when it throws, no [Vector] object has changed *)
Lemma Reserve_fields this n o v :
  o !! this = Some v →
  owp (T:=T) (VectorH.Reserve this n) o
    (λ _ o', ∃ v', o' !! this = Some v' ∧ size_ v' = size_ v ∧
                   capacity_ (data_ v) ≤ capacity_ (data_ v') ∧
                   n ≤ capacity_ (data_ v'))
    (λ o', o' = o).
Proof.
  intros Hv. unfold VectorH.Reserve.
  apply owp_bind, owp_load. intros v0 Hv0. simplify_eq.
  unfold RawMemory_Capacity. destruct (n <=? capacity_ (data_ v)) eqn:Hn.
  { apply owp_ret. exists v. apply Nat.leb_le in Hn. by repeat split. }
  apply Nat.leb_gt in Hn.
  apply owp_bind, owp_RawMemory_new; [intros b|done].
  apply owp_bind, owp_unwind.
  apply owp_keeps; [solve [keeps_tac]| |by apply owp_RawMemory_dtor].
  intros _. unfold RawMemory_Swap. cbv beta iota.
  apply owp_bind, owp_set_data. intros v1 Hv1. simplify_eq.
  apply owp_RawMemory_dtor.
  eexists. rewrite lookup_insert_eq. split; [done|]. simpl. repeat split; lia.
Qed.

Lemma Resize_inv this n o :
  invariant o →
  owp (T:=T) (VectorH.Resize this n) o (λ _ o', invariant o') invariant.
Proof.
  intros Ho. unfold VectorH.Resize.
  repeat owp_step; try solve [inv_solve].
  eapply owp_mono; [by apply Reserve_inv| |done].
  intros _ o' [Ho' Hcap]. simpl.
  repeat owp_step; try solve [inv_solve].
  specialize (Hcap _ H2). inv_solve.
Qed.

Lemma PopBack_inv this o :
  invariant o →
  owp (T:=T) (VectorH.PopBack this) o (λ _ o', invariant o') invariant.
Proof.
  intros Ho. unfold VectorH.PopBack.
  repeat owp_step; try solve [inv_solve].
Qed.

Lemma EmplaceWithAllocate_inv this p mk o v :
  invariant o → o !! this = Some v → size_ v = capacity_ (data_ v) →
  owp (T:=T) (VectorH.EmplaceWithAllocate this p mk) o
    (λ _ o', invariant o' ∧
             ∀ v', o' !! this = Some v' → size_ v' < capacity_ (data_ v'))
    invariant.
Proof.
  intros Ho Hv Hfull. unfold VectorH.EmplaceWithAllocate.
  repeat owp_step; try solve [inv_solve].
Qed.

Lemma EmplaceWithoutAllocate_inv this p mk o :
  invariant o →
  owp (T:=T) (VectorH.EmplaceWithoutAllocate this p mk) o
    (λ _ o', o' = o) (λ o', o' = o).
Proof.
  intros Ho. apply owp_keeps; [|done..].
  unfold VectorH.EmplaceWithoutAllocate, VectorH.end_, VectorH.begin.
  keeps_tac.
Qed.

Lemma Emplace_inv this pos mk o :
  invariant o →
  owp (T:=T) (VectorH.Emplace this pos mk) o (λ _ o', invariant o') invariant.
Proof.
  intros Ho. unfold VectorH.Emplace.
  repeat owp_step; try solve [inv_solve].
  eapply owp_mono; [by eapply EmplaceWithAllocate_inv| |done].
  intros _ o' [Ho' Hlt]. simpl.
  repeat owp_step; try solve [inv_solve].
  specialize (Hlt _ H2). inv_solve.
Qed.

Lemma PushBack_inv this mk o :
  invariant o →
  owp (T:=T) (VectorH.PushBack this mk) o (λ _ o', invariant o') invariant.
Proof.
  intros Ho. unfold VectorH.PushBack, VectorH.cend.
  repeat owp_step; try solve [inv_solve].
  eapply owp_mono; [by apply Emplace_inv| |done].
  intros ? o' Ho'. by apply owp_ret.
Qed.

Lemma EmplaceBack_inv this mk o :
  invariant o →
  owp (T:=T) (VectorH.EmplaceBack this mk) o (λ _ o', invariant o') invariant.
Proof.
  intros Ho. unfold VectorH.EmplaceBack, VectorH.cend.
  repeat owp_step; try solve [inv_solve].
  by apply Emplace_inv.
Qed.

Lemma Erase_inv this pos o :
  invariant o →
  owp (T:=T) (VectorH.Erase this pos) o (λ _ o', invariant o') invariant.
Proof.
  intros Ho. unfold VectorH.Erase, VectorH.end_.
  repeat owp_step; try solve [inv_solve].
Qed.

Lemma Swap_inv this other o :
  invariant o →
  owp (T:=T) (VectorH.Swap this other) o (λ _ o', invariant o') invariant.
Proof.
  intros Ho. unfold VectorH.Swap.
  repeat owp_step.
  destruct (decide (this = other)) as [->|Hne]; simplify_map_eq;
    apply map_Forall_lookup_2; intros j w Hj;
    rewrite !lookup_insert in Hj; repeat case_decide; simplify_eq/=;
    inv_facts; unfold size_le_capacity; simpl; try lia;
    by eapply invariant_lookup.
Qed.

Lemma assign_move_inv this other o :
  invariant o →
  owp (T:=T) (VectorH.assign_move this other) o (λ _ o', invariant o') invariant.
Proof.
  intros Ho. unfold VectorH.assign_move.
  repeat owp_step; try solve [inv_solve].
  simplify_map_eq.
  apply map_Forall_lookup_2; intros j w Hj;
    rewrite !lookup_insert in Hj; repeat case_decide; simplify_eq/=;
    inv_facts; unfold size_le_capacity; simpl; try lia;
    by eapply invariant_lookup.
Qed.

Lemma Vector_default_inv this o :
  invariant o →
  owp (T:=T) (VectorH.Vector_default this) o (λ _ o', invariant o') invariant.
Proof.
  intros Ho. unfold VectorH.Vector_default, RawMemory_default.
  repeat owp_step; try solve [inv_solve].
Qed.

Lemma Vector_sized_inv this n o :
  invariant o →
  owp (T:=T) (VectorH.Vector_sized this n) o (λ _ o', invariant o') invariant.
Proof.
  intros Ho. unfold VectorH.Vector_sized.
  repeat owp_step; try solve [inv_solve].
Qed.

Lemma Vector_copy_inv this other o :
  invariant o →
  owp (T:=T) (VectorH.Vector_copy this other) o (λ _ o', invariant o') invariant.
Proof.
  intros Ho. unfold VectorH.Vector_copy.
  repeat owp_step; try solve [inv_solve].
Qed.

Lemma Vector_move_inv this other o :
  invariant o →
  owp (T:=T) (VectorH.Vector_move this other) o (λ _ o', invariant o') invariant.
Proof.
  intros Ho. unfold VectorH.Vector_move.
  repeat owp_step; try solve [inv_solve].
  simplify_map_eq.
  apply map_Forall_lookup_2; intros j w Hj;
    rewrite !lookup_insert in Hj; repeat case_decide; simplify_eq/=;
    inv_facts; unfold size_le_capacity; simpl; try lia;
    by eapply invariant_lookup.
Qed.

Lemma Vector_dtor_inv this o :
  invariant o →
  owp (T:=T) (VectorH.Vector_dtor this) o (λ _ o', invariant o') invariant.
Proof.
  intros Ho. unfold VectorH.Vector_dtor.
  repeat owp_step; try solve [inv_solve].
Qed.

Lemma assign_copy_inv this other o :
  invariant o →
  owp (T:=T) (VectorH.assign_copy this other) o (λ _ o', invariant o') invariant.
Proof.
  intros Ho. unfold VectorH.assign_copy.
  repeat owp_step; try solve [inv_solve].
  eapply owp_mono; [by apply Vector_copy_inv| |done].
  intros ? o1 Ho1. simpl. apply owp_bind.
  eapply owp_mono; [by apply Swap_inv| |done].
  intros ? o2 Ho2. simpl. by apply Vector_dtor_inv.
Qed.

End invariant_of_members.

Section members.
Context {T : Type} `{Element T} `{Platform}.
Implicit Types (h : gmap nat (list (slot T))) (o : gmap nat Vector)
  (l : list (event T)) (buf : list (slot T)) (σ : state T).

(** ** Moves *)

Lemma Vector_move_ok h o l this other v :
  this ≠ other → o !! other = Some v →
  VectorH.Vector_move this other (State h o l)
  = Ok tt (State h (<[this := v]> (<[other := mkVector (mkRawMemory None 0) 0]> o)) l).
Proof.
  intros Hne Hv. unfold VectorH.Vector_move.
  rewrite (bind_ok _ _ _ _ _ (load_ok _ _ _ _ _ Hv)). simpl.
  erewrite bind_ok; [|by apply set_data_ok].
  erewrite bind_ok; [|by apply set_size_ok, lookup_insert_eq].
  rewrite store_ok. simpl. rewrite insert_insert_eq.
  by destruct v as [[b c] n].
Qed.

Lemma assign_move_ok h o l this other v w :
  this ≠ other → o !! this = Some v → o !! other = Some w →
  VectorH.assign_move this other (State h o l)
  = Ok tt (State h (<[this := w]> (<[other := mkVector (mkRawMemory None 0) 0]> o)) l).
Proof.
  intros Hne Hv Hw. unfold VectorH.assign_move. rewrite decide_True by done.
  rewrite (bind_ok _ _ _ _ _ (load_ok _ _ _ _ _ Hv)).
  rewrite (bind_ok _ _ _ _ _ (load_ok _ _ _ _ _ Hw)). simpl.
  erewrite bind_ok; [|by apply set_data_ok].
  erewrite bind_ok; [|apply set_data_ok; by rewrite lookup_insert_ne].
  erewrite bind_ok; [|apply load_ok, lookup_insert_eq].
  erewrite bind_ok; [|apply set_size_ok, lookup_insert_eq].
  erewrite set_size_ok; cycle 1.
  { rewrite !lookup_insert_ne by done. apply lookup_insert_eq. }
  simpl. destruct w as [[b c] n]; simpl. do 2 f_equal.
  apply map_eq. intros j. rewrite !lookup_insert.
  repeat case_decide; subst; done.
Qed.

Lemma assign_copy_self this σ : VectorH.assign_copy this this σ = Ok tt σ.
Proof. unfold VectorH.assign_copy. by rewrite decide_False by (by intros ?). Qed.

Lemma assign_move_self this σ : VectorH.assign_move this this σ = Ok tt σ.
Proof. unfold VectorH.assign_move. by rewrite decide_False by (by intros ?). Qed.

(** ** The earlier revision *)

Lemma Part000_Vector_copy_eq this other σ :
  Part000.Vector_copy this other σ = VectorH.Vector_copy this other σ.
Proof.
  unfold Part000.Vector_copy, VectorH.Vector_copy,
    Part000.uninitialized_move_n_const, uninitialized_copy_n.
  by destruct relocate_by_move.
Qed.

Lemma Part000_Reserve_eq this n σ :
  Part000.Reserve this n σ = VectorH.Reserve this n σ.
Proof. done. Qed.

Lemma Part000_assign_copy_eq this other σ :
  Part000.assign_copy this other σ = VectorH.assign_copy this other σ.
Proof.
  unfold Part000.assign_copy, VectorH.assign_copy.
  destruct (decide (this ≠ other)); [|done].
  unfold bind. destruct (load this σ) as [v σ1| |]; try done.
  destruct (load other σ1) as [w σ2| |]; try done.
  destruct (_ <? _); [|done].
  destruct (local_object σ2) as [t σ3| |]; try done.
  by rewrite Part000_Vector_copy_eq.
Qed.

(** ** Growth through the public members *)

Lemma grown_gt c : c < grown c.
Proof. unfold grown. destruct (decide (c = 0)); lia. Qed.

Lemma vec_repr_grown h o l l' this b xs c p x :
  vec_repr (State h o l) this b xs c → p ≤ length xs →
  vec_repr
    (State
      (release_block b
        (<[fresh (dom h) := map Live (take p xs ++ x :: drop p xs)
             ++ replicate (grown (length xs) - S (length xs)) Uninit]> h))
      (<[this := mkVector (mkRawMemory (Some (fresh (dom h))) (grown (length xs)))
                          (S (length xs))]> o)
      l')
    this (Some (fresh (dom h))) (take p xs ++ x :: drop p xs) (grown (length xs)).
Proof.
  intros (Hv & Hle & Hb) Hp. simpl in *.
  assert (Hlen : length (take p xs ++ x :: drop p xs) = S (length xs)).
  { rewrite length_app, length_take. simpl. rewrite length_drop. lia. }
  pose proof (grown_gt (length xs)).
  split; [|split]; simpl.
  - by rewrite lookup_insert_eq, Hlen.
  - rewrite Hlen. lia.
  - rewrite Hlen. destruct b as [k|]; simpl.
    + rewrite lookup_delete_ne; [by rewrite lookup_insert_eq|].
      intros Heq. pose proof (fresh_block h) as Hf. rewrite <- Heq in Hf. congruence.
    + by rewrite lookup_insert_eq.
Qed.

Lemma Emplace_grows_by_doubling `{!ElementLaws T} σ this b xs p x :
  vec_repr σ this b xs (length xs) → p ≤ length xs →
  can_allocate (grown (length xs)) = true → relocates xs →
  grows_by_doubling (VectorH.Emplace this (Ptr b p) (Some x)) σ this xs p x.
Proof.
  destruct σ as [h o l]. intros Hvec Hp Hc Hr.
  eexists _, _, _. split; [by apply Emplace_grows|].
  split; [|done]. split; [by eapply vec_repr_grown|by apply can_allocate_fits].
Qed.

Lemma Insert_grows_by_doubling `{!ElementLaws T} σ this b xs p x :
  vec_repr σ this b xs (length xs) → p ≤ length xs →
  can_allocate (grown (length xs)) = true → relocates xs →
  grows_by_doubling (VectorH.Insert this (Ptr b p) (Some x)) σ this xs p x.
Proof. apply Emplace_grows_by_doubling. Qed.

Lemma cend_ok h o l b c n :
  n ≤ c →
  VectorH.cend (mkVector (mkRawMemory b c) n) (State h o l)
  = Ok (Ptr b n) (State h o l).
Proof. intros Hn. unfold VectorH.cend. by rewrite RawMemory_plus_ok. Qed.

Lemma EmplaceBack_grows_by_doubling `{!ElementLaws T} σ this b xs x :
  vec_repr σ this b xs (length xs) →
  can_allocate (grown (length xs)) = true → relocates xs →
  grows_by_doubling (VectorH.EmplaceBack this (Some x)) σ this xs (length xs) x.
Proof.
  destruct σ as [h o l]. intros Hvec Hc Hr. pose proof Hvec as (Hv & _ & _).
  simpl in Hv. unfold VectorH.EmplaceBack.
  destruct (Emplace_grows_by_doubling (State h o l) this b xs (length xs) x)
    as (a & σ' & b' & Hrun & Hres); [done..|].
  exists a, σ', b'. split; [|done].
  rewrite (bind_ok _ _ _ _ _ (load_ok _ _ _ _ _ Hv)).
  by rewrite (bind_ok _ _ _ _ _ (cend_ok _ _ _ _ _ _ (le_n _))).
Qed.

Lemma PushBack_grows_by_doubling `{!ElementLaws T} σ this b xs x :
  vec_repr σ this b xs (length xs) →
  can_allocate (grown (length xs)) = true → relocates xs →
  grows_by_doubling (VectorH.PushBack this (Some x)) σ this xs (length xs) x.
Proof.
  destruct σ as [h o l]. intros Hvec Hc Hr. pose proof Hvec as (Hv & _ & _).
  simpl in Hv. unfold VectorH.PushBack.
  destruct (Emplace_grows_by_doubling (State h o l) this b xs (length xs) x)
    as (a & σ' & b' & Hrun & Hres); [done..|].
  exists tt, σ', b'. split; [|done].
  rewrite (bind_ok _ _ _ _ _ (load_ok _ _ _ _ _ Hv)).
  rewrite (bind_ok _ _ _ _ _ (cend_ok _ _ _ _ _ _ (le_n _))).
  by rewrite (bind_ok _ _ _ _ _ Hrun).
Qed.

(** ** Growth in the earlier revision *)

Lemma relocate_around_eq v temp p σ :
  Part000.relocate_around v temp p σ
  = (exec VectorH.CopyOrMove (GetAddress (data_ v)) (GetAddress temp) p;
     do from ← RawMemory_plus (data_ v) p;
     do to ← RawMemory_plus temp p;
     if decide (p ≤ size_ v)
     then VectorH.CopyOrMove from (ptr_add to 1) (size_ v - p)
     else fail SizeWrap) σ.
Proof.
  unfold Part000.relocate_around, VectorH.CopyOrMove.
  by destruct relocate_by_move.
Qed.

Lemma Part000_fill_eq v temp p mk σ :
  (do slot ← RawMemory_plus temp p;
   exec construct_at slot mk;
   Part000.relocate_around v temp p) σ
  = (do slot ← RawMemory_plus temp p;
     exec construct_at slot mk;
     exec VectorH.CopyOrMove (GetAddress (data_ v)) (GetAddress temp) p;
     do from ← RawMemory_plus (data_ v) p;
     do to ← RawMemory_plus temp p;
     if decide (p ≤ size_ v)
     then VectorH.CopyOrMove from (ptr_add to 1) (size_ v - p)
     else fail SizeWrap) σ.
Proof.
  unfold bind at 1 2 3 4.
  destruct (RawMemory_plus temp p σ) as [slot σ1| |]; try done.
  destruct (construct_at slot mk σ1) as [? σ2| |]; try done.
  apply relocate_around_eq.
Qed.

Lemma grow_fill_back `{!ElementLaws T} h o l k new xs x c c2 :
  k ≠ new → relocates xs →
  h !! k = Some (map Live xs) →
  h !! new = Some (replicate c2 Uninit) →
  c = length xs → c < c2 →
  (do slot ← RawMemory_plus (mkRawMemory (Some new) c2) c;
   exec construct_at slot (Some x);
   VectorH.CopyOrMove (GetAddress (mkRawMemory (Some k) c))
                      (GetAddress (mkRawMemory (Some new) c2)) c) (State h o l)
  = Ok tt (State
      (<[new := map Live (xs ++ [x]) ++ replicate (c2 - S c) Uninit]>
         (<[k := map Live (relocate_left xs)]> h))
      o (l ++ EvConstruct x :: relocate_events xs)).
Proof.
  intros Hkn Hr Hk Hnew -> Hc2.
  erewrite bind_ok; [|apply RawMemory_plus_ok; simpl; lia]. simpl.
  assert (Hsplit : replicate c2 (@Uninit T)
    = replicate (length xs) Uninit ++ Uninit :: replicate (c2 - S (length xs)) Uninit).
  { rewrite (cons_middle Uninit), app_assoc.
    change [@Uninit T] with (replicate 1 (@Uninit T)).
    rewrite <- !replicate_add. f_equal. lia. }
  erewrite bind_ok; cycle 1.
  { eapply construct_at_ok; [exact Hnew|].
    apply lookup_replicate. split; [done|lia]. }
  rewrite Hsplit, insert_mid_len by (by rewrite length_replicate).
  unfold GetAddress; simpl.
  rewrite (CopyOrMove_ok _ _ _ k new xs [] [] [] (replicate (length xs) Uninit)
             (Live x :: replicate (c2 - S (length xs)) Uninit)); [|done|done| | |].
  - simpl. rewrite app_nil_r. f_equal. f_equal.
    + rewrite (insert_insert_ne _ k new) by done.
      rewrite insert_insert_eq. f_equal. by list_norm.
    + by rewrite <- app_assoc.
  - rewrite lookup_insert_ne by done. by rewrite Hk, app_nil_r.
  - by rewrite lookup_insert_eq.
  - by rewrite length_replicate.
Qed.

Lemma Part000_PushBack_grows `{!ElementLaws T} h o l this b xs x :
  vec_repr (State h o l) this b xs (length xs) →
  can_allocate (grown (length xs)) = true → relocates xs →
  Part000.PushBack this (Some x) (State h o l)
  = Ok tt
      (State
        (release_block b
          (<[fresh (dom h) := map Live (take (length xs) xs ++ x :: drop (length xs) xs)
               ++ replicate (grown (length xs) - S (length xs)) Uninit]> h))
        (<[this := mkVector (mkRawMemory (Some (fresh (dom h))) (grown (length xs)))
                            (S (length xs))]> o)
        (l ++ EvConstruct x :: relocate_events xs ++ map EvDestroy (relocate_left xs))).
Proof.
  intros (Hv & _ & Hb) Hc Hr. simpl in *.
  rewrite firstn_all, drop_all.
  pose proof (fresh_block h) as Hfresh.
  set (new := fresh (dom h)) in *.
  unfold Part000.PushBack.
  rewrite (bind_ok _ _ _ _ _ (load_ok _ _ _ _ _ Hv)).
  unfold RawMemory_Capacity; simpl. rewrite decide_True by done.
  unfold grown in *.
  destruct (decide (length xs = 0)) as [Hz|Hnz].
  - destruct xs; [|done]. simpl in *.
    erewrite bind_ok; [|by apply RawMemory_new_ok].
    fold new.
    erewrite bind_ok; cycle 1.
    { eapply unwind_ok. eapply construct_at_ok; [by rewrite lookup_insert_eq|done]. }
    simpl.
    erewrite bind_ok; [|by apply set_data_ok].
    erewrite bind_ok; [|by apply set_size_ok, lookup_insert_eq].
    rewrite RawMemory_dtor_ok.
    + simpl. rewrite !insert_insert_eq.
      unfold relocate_events, relocate_left; destruct relocate_by_move; done.
    + intros k ->. rewrite !lookup_insert_ne by (intros <-; congruence). eauto.
  - destruct b as [k|]; [|lia].
    assert (Hkn : k ≠ new) by (intros ->; congruence).
    rewrite Nat.sub_diag, app_nil_r in Hb.
    erewrite bind_ok; [|apply RawMemory_new_ok; [lia|done]].
    fold new.
    erewrite bind_ok; cycle 1.
    { eapply unwind_ok.
      eapply (grow_fill_back _ _ _ k new xs x (length xs) (length xs * 2)); try done.
      - by rewrite lookup_insert_ne.
      - by rewrite lookup_insert_eq.
      - lia. }
    simpl.
    erewrite bind_ok; [|by apply set_data_ok].
    unfold GetAddress; simpl.
    erewrite bind_ok; cycle 1.
    { rewrite <- (relocate_left_length xs).
      eapply (destroy_n_ok _ k (relocate_left xs) _ _ [] []).
      rewrite lookup_insert_ne by done.
      by rewrite lookup_insert_eq, app_nil_r. }
    erewrite bind_ok; [|by apply set_size_ok, lookup_insert_eq].
    rewrite RawMemory_dtor_ok.
    + simpl. rewrite relocate_left_length, !insert_insert_eq, Nat.add_1_r.
      f_equal. f_equal.
      * apply map_eq. intros j.
        rewrite !lookup_delete, !lookup_insert.
        repeat case_decide; subst; try done.
      * rewrite <- !app_assoc. simpl. by rewrite <- ?app_assoc.
    + intros k' [= <-]. rewrite lookup_insert_eq. eauto.
Qed.

Lemma Part000_Emplace_grows `{!ElementLaws T} h o l this b xs p x :
  vec_repr (State h o l) this b xs (length xs) → p ≤ length xs →
  can_allocate (grown (length xs)) = true → relocates xs →
  Part000.Emplace this (Ptr b p) (Some x) (State h o l)
  = Ok (Ptr (Some (fresh (dom h))) p)
      (State
        (release_block b
          (<[fresh (dom h) := map Live (take p xs ++ x :: drop p xs)
               ++ replicate (grown (length xs) - S (length xs)) Uninit]> h))
        (<[this := mkVector (mkRawMemory (Some (fresh (dom h))) (grown (length xs)))
                            (S (length xs))]> o)
        (l ++ EvConstruct x :: relocate_events xs ++ map EvDestroy (relocate_left xs))).
Proof.
  intros (Hv & _ & Hb) Hp Hc Hr. simpl in *.
  pose proof (fresh_block h) as Hfresh.
  set (new := fresh (dom h)) in *.
  unfold Part000.Emplace.
  rewrite (bind_ok _ _ _ _ _ (load_ok _ _ _ _ _ Hv)).
  unfold VectorH.begin, GetAddress; simpl.
  rewrite (bind_ok _ _ _ _ _ (distance_ok _ _ _)).
  unfold RawMemory_Capacity; simpl. rewrite decide_True by done.
  unfold grown in *.
  destruct (decide (length xs = 0)) as [Hz|Hnz].
  - destruct xs; [|done]. simpl in *. assert (p = 0) as -> by lia.
    erewrite bind_ok; cycle 1.
    { erewrite bind_ok; [|by apply RawMemory_new_ok].
      fold new.
      erewrite bind_ok; cycle 1.
      { eapply unwind_ok. eapply construct_at_ok; [by rewrite lookup_insert_eq|done]. }
      simpl.
      erewrite bind_ok; [|by apply set_data_ok].
      erewrite bind_ok; [|by apply set_size_ok, lookup_insert_eq].
      apply RawMemory_dtor_ok.
      intros k ->. rewrite !lookup_insert_ne by (intros <-; congruence). eauto. }
    erewrite bind_ok; [|by apply load_ok, lookup_insert_eq].
    simpl. unfold ret, ptr_add; simpl.
    rewrite !insert_insert_eq.
    unfold relocate_events, relocate_left; destruct relocate_by_move; done.
  - destruct b as [k|]; [|lia].
    assert (Hkn : k ≠ new) by (intros ->; congruence).
    pose proof (take_drop p xs) as Hxs.
    assert (Hlen : length (take p xs) = p) by (rewrite length_take; lia).
    set (pre := take p xs) in *. set (suf := drop p xs) in *.
    clearbody pre suf. subst xs p.
    rewrite Nat.sub_diag, app_nil_r in Hb.
    erewrite bind_ok; cycle 1.
    { erewrite bind_ok; [|apply RawMemory_new_ok; [lia|done]].
      fold new.
      erewrite bind_ok; cycle 1.
      { eapply unwind_ok. rewrite Part000_fill_eq. simpl.
        eapply (grow_fill_ok _ _ _ k new pre suf x (length (pre ++ suf))
                  (length (pre ++ suf) * 2)); try done.
        - by rewrite lookup_insert_ne.
        - by rewrite lookup_insert_eq.
        - lia. }
      simpl.
      erewrite bind_ok; [|by apply set_data_ok].
      unfold GetAddress; simpl.
      erewrite bind_ok; cycle 1.
      { rewrite <- (relocate_left_length (pre ++ suf)).
        eapply (destroy_n_ok _ k (relocate_left (pre ++ suf)) _ _ [] []).
        rewrite lookup_insert_ne by done.
        by rewrite lookup_insert_eq, app_nil_r. }
      erewrite bind_ok; [|by apply set_size_ok, lookup_insert_eq].
      apply RawMemory_dtor_ok.
      intros k' [= <-]. rewrite lookup_insert_eq. eauto. }
    erewrite bind_ok; [|by apply load_ok, lookup_insert_eq].
    simpl. unfold ret, ptr_add; simpl.
    rewrite relocate_left_length, !insert_insert_eq, Nat.add_1_r.
    f_equal. f_equal.
    + apply map_eq. intros j.
      rewrite !lookup_delete, !lookup_insert.
      repeat case_decide; subst; try done.
    + rewrite <- !app_assoc. simpl. by rewrite <- ?app_assoc.
Qed.

Lemma Part000_Emplace_grows_by_doubling `{!ElementLaws T} σ this b xs p x :
  vec_repr σ this b xs (length xs) → p ≤ length xs →
  can_allocate (grown (length xs)) = true → relocates xs →
  grows_by_doubling (Part000.Emplace this (Ptr b p) (Some x)) σ this xs p x.
Proof.
  destruct σ as [h o l]. intros Hvec Hp Hc Hr.
  eexists _, _, _. split; [by apply Part000_Emplace_grows|].
  split; [|done]. split; [by eapply vec_repr_grown|by apply can_allocate_fits].
Qed.

Lemma Part000_PushBack_grows_by_doubling `{!ElementLaws T} σ this b xs x :
  vec_repr σ this b xs (length xs) →
  can_allocate (grown (length xs)) = true → relocates xs →
  grows_by_doubling (Part000.PushBack this (Some x)) σ this xs (length xs) x.
Proof.
  destruct σ as [h o l]. intros Hvec Hc Hr.
  eexists _, _, _. split; [by apply Part000_PushBack_grows|].
  split; [|done]. split; [by eapply vec_repr_grown|by apply can_allocate_fits].
Qed.

Lemma Part000_EmplaceBack_grows_by_doubling `{!ElementLaws T} σ this b xs x :
  vec_repr σ this b xs (length xs) →
  can_allocate (grown (length xs)) = true → relocates xs →
  grows_by_doubling (Part000.EmplaceBack this (Some x)) σ this xs (length xs) x.
Proof.
  destruct σ as [h o l]. intros Hvec Hc Hr.
  eexists _, _, _.
  split; [|split; [split; [by eapply vec_repr_grown|by apply can_allocate_fits]|done]].
  unfold Part000.EmplaceBack.
  erewrite bind_ok; [|by apply Part000_PushBack_grows].
  erewrite bind_ok; [|by apply load_ok, lookup_insert_eq].
  simpl. apply RawMemory_index_ok. simpl. pose proof (grown_gt (length xs)). lia.
Qed.

(** ** Insertion followed by removal *)

Lemma vec_repr_erased h o l' this k pre suf c :
  length (pre ++ suf) ≤ c →
  vec_repr
    (State (<[k := map Live (pre ++ suf) ++ replicate (c - length (pre ++ suf)) Uninit]> h)
           (<[this := mkVector (mkRawMemory (Some k) c) (length (pre ++ suf))]> o) l')
    this (Some k) (pre ++ suf) c.
Proof.
  intros Hle. split; [|split]; simpl; [by rewrite lookup_insert_eq|done|].
  by rewrite lookup_insert_eq.
Qed.

Lemma Erase_removes `{!ElementLaws T} σ this k xs c p d :
  (∀ d s, is_Some (T_move_assign d s)) →
  vec_repr σ this (Some k) xs c → xs !! p = Some d →
  ∃ σ',
    VectorH.Erase this (Ptr (Some k) p) σ = Ok (Ptr (Some k) p) σ' ∧
    vec_repr σ' this (Some k) (take p xs ++ drop (S p) xs) c ∧
    log σ' = log σ ++ shift_events d (drop (S p) xs)
                   ++ [EvDestroy (shift_rest d (drop (S p) xs))].
Proof.
  destruct σ as [h o l]. intros Hma Hvec Hd.
  pose proof (take_drop_middle _ _ _ Hd) as Hxs.
  assert (Hp : length (take p xs) = p).
  { rewrite length_take. apply lookup_lt_Some in Hd. lia. }
  set (pre := take p xs) in *. set (suf := drop (S p) xs) in *.
  clearbody pre suf. subst xs p.
  eexists. split; [by apply Erase_at|]. split; [|done].
  apply vec_repr_erased. destruct Hvec as (_ & Hle & _).
  rewrite !length_app in *. simpl in *. lia.
Qed.

Lemma shift_events_sources d xs :
  Forall2 (λ e s, ∃ d', e = EvMoveAssign d' s) (shift_events d xs) xs.
Proof.
  revert d. induction xs as [|x xs IH]; intros d; simpl; constructor; eauto.
Qed.

Lemma inserted_lookup (xs : list T) p x :
  p ≤ length xs → (take p xs ++ x :: drop p xs) !! p = Some x.
Proof.
  intros Hp. apply list_lookup_middle. rewrite length_take. lia.
Qed.

Lemma inserted_removed (xs : list T) p x :
  p ≤ length xs →
  take p (take p xs ++ x :: drop p xs) ++ drop (S p) (take p xs ++ x :: drop p xs) = xs.
Proof.
  intros Hp.
  assert (Hlen : length (take p xs) = p) by (rewrite length_take; lia).
  rewrite take_app_le, take_take, Nat.min_id by lia.
  rewrite (cons_middle x), app_assoc, drop_app_length'.
  - apply take_drop.
  - rewrite length_app, Hlen. simpl. lia.
Qed.

Lemma Insert_then_Erase `{!ElementLaws T} σ this b xs c p x :
  (∀ v, is_Some (T_move v)) → (∀ d s, is_Some (T_move_assign d s)) →
  vec_repr σ this b xs c → fits c → p ≤ length xs →
  (length xs = c → can_allocate (grown c) = true ∧ relocates xs) →
  ∃ it σ1 σ2 b' c',
    VectorH.Insert this (Ptr b p) (Some x) σ = Ok it σ1 ∧
    vec_repr σ1 this b' (take p xs ++ x :: drop p xs) c' ∧
    VectorH.Erase this it σ1 = Ok it σ2 ∧
    vec_repr σ2 this b' xs c' ∧ fits c'.
Proof.
  destruct σ as [h o l]. intros Hmv Hma Hvec Hfit Hp Hfull.
  assert (∃ it σ1 k c',
    VectorH.Insert this (Ptr b p) (Some x) (State h o l) = Ok it σ1 ∧
    it = Ptr (Some k) p ∧
    vec_repr σ1 this (Some k) (take p xs ++ x :: drop p xs) c' ∧ fits c')
    as (it & σ1 & k & c' & Hins & -> & Hvec1 & Hfit').
  { destruct (decide (length xs = c)) as [<-|Hne].
    - destruct Hfull as [Hc Hr]; [done|].
      eexists _, _, _, _. split; [by apply Emplace_grows|].
      split; [done|]. split; [by eapply vec_repr_grown|by apply can_allocate_fits].
    - pose proof Hvec as (_ & Hle & Hb). simpl in Hle, Hb.
      destruct b as [k|]; [|lia].
      eexists _, _, _, _. split; [apply Emplace_in_place; [done..|lia|done]|].
      split; [done|].
      assert (Hl : length (take p xs ++ x :: drop p xs) = S (length xs)).
      { rewrite length_app, length_take. simpl. rewrite length_drop. lia. }
      split; [|done].
      split; [|split]; simpl; rewrite ?Hl; [by rewrite lookup_insert_eq|lia|].
      by rewrite lookup_insert_eq. }
  destruct (Erase_removes σ1 this k _ c' p x Hma Hvec1 (inserted_lookup xs p x Hp))
    as (σ2 & Hera & Hvec2 & _).
  rewrite inserted_removed in Hvec2 by done.
  by exists (Ptr (Some k) p), σ1, σ2, (Some k), c'.
Qed.

(** ** [Resize] *)

(** growing below the capacity default-constructs the new elements *)
Lemma Resize_grows_within h o l this k xs c n ds :
  vec_repr (State h o l) this (Some k) xs c → length xs < n → n < c →
  produces T_default EvDefault l ds → length ds = n - length xs →
  VectorH.Resize this n (State h o l)
  = Ok tt (State
      (<[k := map Live (xs ++ ds) ++ replicate (c - n) Uninit]> h)
      (<[this := mkVector (mkRawMemory (Some k) c) n]> o)
      (l ++ map EvDefault ds)).
Proof.
  intros (Hv & Hle & Hb) Hlt Hn Hd Hds. simpl in *. unfold VectorH.Resize.
  rewrite (bind_ok _ _ _ _ _ (load_ok _ _ _ _ _ Hv)).
  unfold RawMemory_Capacity, GetAddress, ptr_add; simpl.
  rewrite (proj2 (Nat.ltb_lt _ _) Hn).
  rewrite (proj2 (Nat.ltb_ge n (length xs))) by lia.
  rewrite (proj2 (Nat.ltb_lt _ _) Hlt).
  erewrite bind_ok; cycle 1.
  { replace (Ptr (Some k) (length xs)) with (Ptr (Some k) (length (map Live xs)))
      by (by rewrite length_map).
    rewrite <- Hds.
    eapply (uninitialized_default_construct_n_ok _ _ _ k ds
              (map Live xs) (replicate (length ds) Uninit) (replicate (c - n) Uninit));
      [done| |by rewrite length_replicate].
    rewrite Hb, <- replicate_add. do 3 f_equal. lia. }
  erewrite set_size_ok by done. simpl. do 3 f_equal.
  by rewrite map_app, <- app_assoc.
Qed.

(** shrinking destroys the trailing elements *)
Lemma Resize_shrinks h o l this k xs c n :
  vec_repr (State h o l) this (Some k) xs c → n < length xs →
  VectorH.Resize this n (State h o l)
  = Ok tt (State
      (<[k := map Live (take n xs) ++ replicate (c - n) Uninit]> h)
      (<[this := mkVector (mkRawMemory (Some k) c) n]> o)
      (l ++ map EvDestroy (drop n xs))).
Proof.
  intros (Hv & Hle & Hb) Hn. simpl in *. unfold VectorH.Resize.
  rewrite (bind_ok _ _ _ _ _ (load_ok _ _ _ _ _ Hv)).
  unfold RawMemory_Capacity, GetAddress, ptr_add; simpl.
  rewrite (proj2 (Nat.ltb_lt n c)) by lia.
  rewrite (proj2 (Nat.ltb_lt _ _) Hn).
  pose proof (take_drop n xs) as Hxs.
  assert (Hlen : length (take n xs) = n) by (rewrite length_take; lia).
  set (xs1 := take n xs) in *. set (xs2 := drop n xs) in *.
  clearbody xs1 xs2. subst xs. rewrite length_app in *.
  erewrite bind_ok; cycle 1.
  { replace (length xs1 + length xs2 - n) with (length xs2) by lia.
    replace (Ptr (Some k) n) with (Ptr (Some k) (length (map Live xs1)))
      by (by rewrite length_map, Hlen).
    eapply (destroy_n_ok _ k xs2). rewrite Hb. by list_norm. }
  erewrite set_size_ok by done. simpl. do 3 f_equal.
  rewrite <- replicate_add. do 2 f_equal. lia.
Qed.

(** [Resize] to exactly the capacity constructs nothing *)
Lemma Resize_to_capacity h o l this v :
  o !! this = Some v →
  VectorH.Resize this (capacity_ (data_ v)) (State h o l)
  = Ok tt (State h (<[this := mkVector (data_ v) (capacity_ (data_ v))]> o) l)
  ∧ Part000.Resize this (capacity_ (data_ v)) (State h o l) = Ok tt (State h o l).
Proof.
  intros Hv. unfold VectorH.Resize, Part000.Resize.
  rewrite !(bind_ok _ _ _ _ _ (load_ok _ _ _ _ _ Hv)).
  unfold RawMemory_Capacity. rewrite Nat.ltb_irrefl.
  split; [|done].
  unfold bind at 1, ret at 1. by apply set_size_ok.
Qed.

End members.

Lemma plain_laws : @ElementLaws nat plain.
Proof.
  split; simpl; intros; simplify_eq; eauto.
Qed.

Lemma throwing_laws : @ElementLaws nat throwing.
Proof.
  split; simpl; intros; repeat case_match; by simplify_eq.
Qed.

Lemma move_only_laws : @ElementLaws nat move_only.
Proof.
  split; simpl; intros; repeat case_match; by simplify_eq.
Qed.

Lemma counting_laws : @ElementLaws nat counting.
Proof.
  split; simpl; intros; simplify_eq; eauto.
Qed.

Section bugs.
#[local] Existing Instance throwing.
#[local] Existing Instance roomy.

(** C1, where the code departs from it.  [Resize(n)] with
    [size < n = capacity]: after [v.Reserve(2); v.PushBack(7)] the call
    [v.Resize(2)] of vector.h returns with [size_ = 2] although slot 1 is
    still raw storage and no default constructor ran (the log holds the
    one construction of 7 only); the same call in the earlier revision
    returns without changing anything, so the size stays 1.  Both tests
    of [Resize], [Capacity() > new_size] and [Capacity() < new_size], are
    false when [new_size] equals the capacity. *)
Example Resize_to_capacity_constructs_nothing :
  (exec one_of 2 7; VectorH.Resize 0 2) empty_state
  = Ok tt (vector_state [Live 7; Uninit] 2 [EvConstruct 7])
  ∧ (exec one_of 2 7; Part000.Resize 0 2) empty_state
    = Ok tt (vector_state [Live 7; Uninit] 1 [EvConstruct 7]).
Proof. split; vm_compute; reflexivity. Qed.

(** C2, where the code departs from it.  A vector of capacity 4 holds two
    elements and [Emplace(begin(), x)] throws after the temporary was
    built: in the final move assignment (first case), in the backward shift
    (second case), or in the move construction of the last element into
    slot [size] (third case).  In each case the handler runs
    [operator delete(end())] on an address inside the buffer, which is not
    a destructor call and not an address [operator new] returned: the call
    ends in the fault [InvalidDelete].  In the first two cases slot 2, the
    slot at [size], still holds the live object 8 that was move-constructed
    there, and the log has no destruction of it; [size_] is 2 as before.
    The earlier revision behaves in the same way. *)
Example Emplace_unwind_destroys_nothing :
  let begin := Ptr (Some 0) 0 in
  (exec two_of 4 7 8; VectorH.Emplace 0 begin (Some 99)) empty_state
  = Fault InvalidDelete
      (vector_state [Live 0; Live 7; Live 8; Uninit] 2
         [EvConstruct 7; EvConstruct 8; EvConstruct 99; EvMove 8;
          EvMoveAssign 0 7; EvDestroy 99])
  ∧ (exec two_of 4 99 8; VectorH.Emplace 0 begin (Some 5)) empty_state
    = Fault InvalidDelete
        (vector_state [Live 99; Live 0; Live 8; Uninit] 2
           [EvConstruct 99; EvConstruct 8; EvConstruct 5; EvMove 8; EvDestroy 5])
  ∧ (exec two_of 4 7 66; VectorH.Emplace 0 begin (Some 5)) empty_state
    = Fault InvalidDelete
        (vector_state [Live 7; Live 66; Uninit; Uninit] 2
           [EvConstruct 7; EvConstruct 66; EvConstruct 5; EvDestroy 5])
  ∧ (exec two_of 4 7 8; Part000.Emplace 0 begin (Some 99)) empty_state
    = (exec two_of 4 7 8; VectorH.Emplace 0 begin (Some 99)) empty_state
  ∧ (exec two_of 4 99 8; Part000.Emplace 0 begin (Some 5)) empty_state
    = (exec two_of 4 99 8; VectorH.Emplace 0 begin (Some 5)) empty_state
  ∧ (exec two_of 4 7 66; Part000.Emplace 0 begin (Some 5)) empty_state
    = (exec two_of 4 7 66; VectorH.Emplace 0 begin (Some 5)) empty_state.
Proof. repeat split; vm_compute; reflexivity. Qed.

(** C3, where the code departs from it.  A vector of capacity 4 holds 7
    and 8 and the constructor of the new element throws in
    [Emplace(begin(), ...)].  The construction of the temporary is inside
    the [try] block, so the handler runs: [operator delete(end())] is
    called on the address of slot 2 of the buffer, which [operator new]
    never returned, and the call ends in the fault [InvalidDelete] instead
    of propagating the exception.  Up to that point nothing was changed:
    the state in which the handler runs is the state before the call.  The
    earlier revision behaves in the same way. *)
Example Emplace_failed_construction_deletes :
  let begin := Ptr (Some 0) 0 in
  two_of 4 7 8 empty_state
  = Ok tt (vector_state [Live 7; Live 8; Uninit; Uninit] 2 [EvConstruct 7; EvConstruct 8])
  ∧ (exec two_of 4 7 8; VectorH.Emplace 0 begin None) empty_state
    = Fault InvalidDelete
        (vector_state [Live 7; Live 8; Uninit; Uninit] 2 [EvConstruct 7; EvConstruct 8])
  ∧ (exec two_of 4 7 8; Part000.Emplace 0 begin None) empty_state
    = Fault InvalidDelete
        (vector_state [Live 7; Live 8; Uninit; Uninit] 2 [EvConstruct 7; EvConstruct 8]).
Proof. repeat split; vm_compute; reflexivity. Qed.

End bugs.

Section refuted.
#[local] Existing Instance move_only.
#[local] Existing Instance roomy.

(** C5 as the specification states it does not hold: [Reserve] can change
    the values of the elements.  A vector of a move-only type, whose move
    constructor throws on 66, holds 5 and 66 at capacity 2.  Such a type
    is relocated by move.  [Reserve(4)] moves 5 into the new buffer, the
    move of 66 throws, the object built in the new buffer is destroyed
    and the buffer released, and the exception propagates: the vector
    keeps its buffer, size and capacity, but its first element is the
    moved-from object 0, not 5.  The earlier revision behaves in the same
    way. *)
Example Reserve_changes_values_when_move_throws :
  relocate_by_move = true
  ∧ vec_at (vector_state [Live 5; Live 66] 2 []) 0 (Some 0) [5; 66] 2
  ∧ VectorH.Reserve 0 4 (vector_state [Live 5; Live 66] 2 [])
    = Throw element_exn (vector_state [Live 0; Live 66] 2 [EvMove 5; EvDestroy 5])
  ∧ Part000.Reserve 0 4 (vector_state [Live 5; Live 66] 2 [])
    = Throw element_exn (vector_state [Live 0; Live 66] 2 [EvMove 5; EvDestroy 5])
  ∧ vec_at (vector_state [Live 0; Live 66] 2 [EvMove 5; EvDestroy 5]) 0 (Some 0) [0; 66] 2.
Proof.
  split; [reflexivity|].
  split; [split; [split; [reflexivity|split; [simpl; lia|reflexivity]]|by vm_compute]|].
  split; [vm_compute; reflexivity|].
  split; [vm_compute; reflexivity|].
  split; [split; [reflexivity|split; [simpl; lia|reflexivity]]|by vm_compute].
Qed.

End refuted.

Section failures.
Context {T : Type} `{Element T} `{Platform}.
Implicit Types (h : gmap nat (list (slot T))) (o : gmap nat Vector)
  (l : list (event T)).

Lemma Reserve_bad_alloc h o l this v n :
  o !! this = Some v → capacity_ (data_ v) < n → representable n →
  can_allocate n = false →
  VectorH.Reserve this n (State h o l) = Throw bad_alloc (State h o l).
Proof.
  intros Hv Hn Hr Hc. unfold VectorH.Reserve.
  rewrite (bind_ok _ _ _ _ _ (load_ok _ _ _ _ _ Hv)).
  unfold RawMemory_Capacity. rewrite (proj2 (Nat.leb_gt _ _) Hn).
  erewrite bind_throw; [done|]. apply RawMemory_new_throw; [lia|done|done].
Qed.

Lemma Reserve_copy_throws `{!ElementLaws T} h o l this b xs1 y xs2 c n :
  vec_repr (State h o l) this b (xs1 ++ y :: xs2) c → c < n →
  can_allocate n = true → relocate_by_move = false →
  Forall (λ x, is_Some (T_copy x)) xs1 → T_copy y = None →
  VectorH.Reserve this n (State h o l)
  = Throw element_exn (State h o (l ++ map EvCopy xs1 ++ map EvDestroy xs1)).
Proof.
  intros (Hv & Hle & Hb) Hn Hc Hpol Hcopy Hy. simpl in *.
  unfold VectorH.Reserve.
  rewrite (bind_ok _ _ _ _ _ (load_ok _ _ _ _ _ Hv)).
  unfold RawMemory_Capacity; simpl.
  rewrite (proj2 (Nat.leb_gt _ _) Hn).
  erewrite bind_ok; [|apply RawMemory_new_ok; [lia|done]].
  pose proof (fresh_block h) as Hfresh.
  set (new := fresh (dom h)) in *.
  destruct b as [k|]; [|rewrite length_app in Hle; simpl in Hle; lia].
  assert (Hkn : k ≠ new) by (intros ->; congruence).
  erewrite bind_throw; [done|].
  eapply unwind_throw.
  - erewrite bind_throw; [done|].
    unfold VectorH.CopyOrMove, GetAddress. rewrite Hpol. simpl.
    set (m := length (xs1 ++ y :: xs2)) in *.
    assert (Hsplit : replicate n (@Uninit T)
      = replicate m Uninit ++ replicate (n - m) Uninit).
    { rewrite <- replicate_add. f_equal. lia. }
    eapply (uninitialized_copy_n_throw _ _ _ k new xs1 y xs2 [] _ [] (replicate (n - m) Uninit));
      [done| |done| |].
    + eapply Forall_impl; [exact Hcopy|]. intros z. apply copy_some.
    + rewrite lookup_insert_ne by done. exact Hb.
    + rewrite lookup_insert_eq. simpl. by rewrite Hsplit.
  - rewrite RawMemory_dtor_ok.
    + simpl. by rewrite delete_insert_eq, delete_id.
    + intros k' [= <-]. rewrite lookup_insert_eq. eauto.
Qed.

Lemma released_fresh h (buf : list (slot T)) :
  delete (fresh (dom h)) (<[fresh (dom h) := buf]> h) = h.
Proof. rewrite delete_insert_eq. apply delete_id, fresh_block. Qed.

Lemma uninitialized_move_n_throw h o l bs bd xs1 x xs2 spre spost dpre dpost :
  bs ≠ bd → Forall (λ x, T_move x = Some (x, moved_out x)) xs1 → T_move x = None →
  h !! bs = Some (spre ++ map Live (xs1 ++ x :: xs2) ++ spost) →
  h !! bd = Some (dpre ++ replicate (length (xs1 ++ x :: xs2)) Uninit ++ dpost) →
  uninitialized_move_n (Ptr (Some bs) (length spre)) (length (xs1 ++ x :: xs2))
                       (Ptr (Some bd) (length dpre)) (State h o l)
  = Throw element_exn
      (State (<[bs := spre ++ map Live (map moved_out xs1 ++ x :: xs2) ++ spost]> h)
             o (l ++ map EvMove xs1 ++ map EvDestroy xs1)).
Proof.
  intros Hne Hall Hx Hs Hd. unfold uninitialized_move_n.
  rewrite length_app in *. simpl length in *.
  rewrite uninitialized_loop_app.
  rewrite map_app in Hs. rewrite <- app_assoc in Hs.
  rewrite replicate_add in Hd. rewrite <- app_assoc in Hd.
  erewrite bind_ok; cycle 1.
  { eapply (uninitialized_move_loop_ok o bs bd (length spre) (length dpre) xs1);
      [done|done|exact Hs|lia|exact Hd|lia|by rewrite length_replicate]. }
  simpl.
  erewrite bind_throw; [done|].
  eapply unwind_throw.
  - unfold move_construct_at, ptr_add; simpl.
    erewrite bind_ok; cycle 1.
    { eapply deref_ok.
      - rewrite lookup_insert_ne by done. by rewrite lookup_insert_eq.
      - rewrite app_assoc.
        replace (length spre + length xs1)
          with (length (spre ++ map Live (map moved_out xs1)))
          by (by rewrite length_app, !length_map).
        apply lookup_mid. }
    rewrite Hx. done.
  - rewrite destroy_n_ok with (pre := dpre) (post := replicate (S (length xs2)) Uninit ++ dpost);
      [|by rewrite lookup_insert_eq].
    rewrite insert_insert_eq.
    rewrite (insert_insert_ne _ bd bs) by done.
    rewrite (insert_id h bd) by (by rewrite Hd).
    do 2 f_equal.
    + by list_norm.
    + by rewrite <- app_assoc.
Qed.

Lemma Reserve_move_throws `{!ElementLaws T} h o l this k xs1 y xs2 c n :
  vec_repr (State h o l) this (Some k) (xs1 ++ y :: xs2) c → c < n →
  can_allocate n = true → relocate_by_move = true →
  Forall (λ x, is_Some (T_move x)) xs1 → T_move y = None →
  VectorH.Reserve this n (State h o l)
  = Throw element_exn
      (State (<[k := map Live (map moved_out xs1 ++ y :: xs2)
                      ++ replicate (c - length (xs1 ++ y :: xs2)) Uninit]> h)
             o (l ++ map EvMove xs1 ++ map EvDestroy xs1)).
Proof.
  intros (Hv & Hle & Hb) Hn Hc Hpol Hmove Hy. simpl in *.
  unfold VectorH.Reserve.
  rewrite (bind_ok _ _ _ _ _ (load_ok _ _ _ _ _ Hv)).
  unfold RawMemory_Capacity; simpl.
  rewrite (proj2 (Nat.leb_gt _ _) Hn).
  erewrite bind_ok; [|apply RawMemory_new_ok; [lia|done]].
  pose proof (fresh_block h) as Hfresh.
  set (new := fresh (dom h)) in *.
  assert (Hkn : k ≠ new) by (intros ->; congruence).
  erewrite bind_throw; [done|].
  eapply unwind_throw.
  - erewrite bind_throw; [done|].
    unfold VectorH.CopyOrMove, GetAddress. rewrite Hpol. simpl.
    set (m := length (xs1 ++ y :: xs2)) in *.
    assert (Hsplit : replicate n (@Uninit T)
      = replicate m Uninit ++ replicate (n - m) Uninit).
    { rewrite <- replicate_add. f_equal. lia. }
    eapply (uninitialized_move_n_throw _ _ _ k new xs1 y xs2 [] _ [] (replicate (n - m) Uninit));
      [done| |done| |].
    + eapply Forall_impl; [exact Hmove|]. intros z. apply move_some.
    + rewrite lookup_insert_ne by done. exact Hb.
    + rewrite lookup_insert_eq. simpl. by rewrite Hsplit.
  - rewrite RawMemory_dtor_ok.
    + simpl. rewrite delete_insert_ne by (by apply not_eq_sym).
      unfold new. by rewrite released_fresh.
    + intros k' [= <-]. rewrite lookup_insert_ne by done.
      rewrite lookup_insert_eq. eauto.
Qed.

Lemma vec_repr_frame h o l l' this b xs c :
  vec_repr (State h o l) this b xs c → vec_repr (State h o l') this b xs c.
Proof. done. Qed.

End failures.

(** * The statements of the specification *)

Section claims.
Context {T : Type} `{Element T} `{Platform}.

(** C4. An insertion into a vector whose size equals its capacity, through
    [PushBack], [EmplaceBack], [Emplace] or [Insert] of either revision,
    returns when the allocation and the relocation of the old elements
    succeed; the capacity becomes twice the old one, or 1 from 0
    ([grown]); the size grows by one, with the new element at its offset;
    and the new element takes part in one element operation only, its
    construction: the log holds that construction, one relocation for each
    old element and the destruction of what was left in the old buffer. *)
Theorem insertion_into_full_vector_doubles `{!ElementLaws T} σ this b xs p x :
  vec_at σ this b xs (length xs) → p ≤ length xs →
  can_allocate (grown (length xs)) = true → relocates xs →
  grows_by_doubling (VectorH.PushBack this (Some x)) σ this xs (length xs) x ∧
  grows_by_doubling (VectorH.EmplaceBack this (Some x)) σ this xs (length xs) x ∧
  grows_by_doubling (VectorH.Emplace this (Ptr b p) (Some x)) σ this xs p x ∧
  grows_by_doubling (VectorH.Insert this (Ptr b p) (Some x)) σ this xs p x ∧
  grows_by_doubling (Part000.PushBack this (Some x)) σ this xs (length xs) x ∧
  grows_by_doubling (Part000.EmplaceBack this (Some x)) σ this xs (length xs) x ∧
  grows_by_doubling (Part000.Emplace this (Ptr b p) (Some x)) σ this xs p x ∧
  grows_by_doubling (Part000.Insert this (Ptr b p) (Some x)) σ this xs p x.
Proof.
  intros [Hvec _] Hp Hc Hr.
  split; [by eapply PushBack_grows_by_doubling|].
  split; [by eapply EmplaceBack_grows_by_doubling|].
  split; [by eapply Emplace_grows_by_doubling|].
  split; [by eapply Insert_grows_by_doubling|].
  split; [by eapply Part000_PushBack_grows_by_doubling|].
  split; [by eapply Part000_EmplaceBack_grows_by_doubling|].
  split; by eapply Part000_Emplace_grows_by_doubling.
Qed.

(** C5. [Reserve(n)] changes nothing when [n] is at most the capacity.
    Otherwise, when a buffer of [n] elements can be had ([n * sizeof(T)] is
    at most [PTRDIFF_MAX] and the free store has the block) and the
    relocation succeeds, it returns with a buffer of exactly [n] slots and
    the same elements in the same order, and so the same size.  When the
    allocation fails for an [n] whose byte count does not wrap, or a copy
    constructor throws while the elements are relocated by copy, the
    exception leaves the vector and the heap as they were.  When the
    elements are relocated by move and a move constructor throws, the
    exception leaves the vector with its buffer, capacity and size, but
    the elements in front of the one that threw hold what the move left
    in them.  Whatever [n] is and whatever the allocation does, a call
    that returns leaves the size as it was and the capacity at least what
    it was and at least [n], and a call that throws leaves the fields of
    every vector as they were: the capacity never decreases and the size
    never changes.  Both revisions compute the same. *)
Theorem Reserve_spec `{!ElementLaws T} σ this b xs c n :
  vec_at σ this b xs c →
  (n ≤ c → VectorH.Reserve this n σ = Ok tt σ) ∧
  (c < n → can_allocate n = true → relocates xs →
     ∃ σ' b', VectorH.Reserve this n σ = Ok tt σ' ∧
              vec_at σ' this b' xs n ∧
              log σ' = log σ ++ relocate_events xs ++ map EvDestroy (relocate_left xs)) ∧
  (c < n → representable n → can_allocate n = false →
     VectorH.Reserve this n σ = Throw bad_alloc σ) ∧
  (c < n → can_allocate n = true → relocate_by_move = false →
     ∀ xs1 y xs2, xs = xs1 ++ y :: xs2 →
       Forall (λ x, is_Some (T_copy x)) xs1 → T_copy y = None →
       ∃ σ', VectorH.Reserve this n σ = Throw element_exn σ' ∧
             heap σ' = heap σ ∧ objs σ' = objs σ ∧ vec_at σ' this b xs c) ∧
  (c < n → can_allocate n = true → relocate_by_move = true →
     ∀ xs1 y xs2, xs = xs1 ++ y :: xs2 →
       Forall (λ x, is_Some (T_move x)) xs1 → T_move y = None →
       ∃ σ', VectorH.Reserve this n σ = Throw element_exn σ' ∧
             objs σ' = objs σ ∧
             vec_at σ' this b (map moved_out xs1 ++ y :: xs2) c ∧
             log σ' = log σ ++ map EvMove xs1 ++ map EvDestroy xs1) ∧
  wp (VectorH.Reserve this n) σ
     (λ _ σ', ∃ v', objs σ' !! this = Some v' ∧ size_ v' = length xs ∧
                    c ≤ capacity_ (data_ v') ∧ n ≤ capacity_ (data_ v'))
     (λ σ', objs σ' = objs σ) ∧
  (∀ σ0, Part000.Reserve this n σ0 = VectorH.Reserve this n σ0).
Proof.
  destruct σ as [h o l]. intros [Hvec Hfit].
  pose proof Hvec as (Hv & Hle & Hb). simpl in *.
  split; [|split; [|split; [|split; [|split; [|split]]]]].
  - intros Hn. by eapply Reserve_noop.
  - intros Hn Hc Hr. eexists _, _. split; [by eapply Reserve_grows|].
    split; [|done]. split; [|by apply can_allocate_fits].
    split; [|split]; simpl.
    + by rewrite lookup_insert_eq.
    + lia.
    + destruct b as [k|]; simpl.
      * rewrite lookup_delete_ne; [by rewrite lookup_insert_eq|].
        intros Heq. pose proof (fresh_block h) as Hf. rewrite <- Heq in Hf. congruence.
      * by rewrite lookup_insert_eq.
  - intros Hn Hr Hc. by eapply Reserve_bad_alloc.
  - intros Hn Hc Hpol xs1 y xs2 -> Hcopy Hy.
    eexists. split; [by eapply Reserve_copy_throws|]. done.
  - intros Hn Hc Hpol xs1 y xs2 -> Hmove Hy.
    destruct b as [k|]; [|rewrite length_app in Hle; simpl in Hle; lia].
    eexists. split; [by eapply Reserve_move_throws|].
    assert (Hsame : length (map moved_out xs1 ++ y :: xs2) = length (xs1 ++ y :: xs2)).
    { by rewrite !length_app, length_map. }
    split; [done|]. split; [|done]. split; [|done].
    split; [|split]; simpl.
    + by rewrite Hsame.
    + by rewrite Hsame.
    + by rewrite lookup_insert_eq, Hsame.
  - by apply (Reserve_fields this n o _ Hv (State h o l)).
  - done.
Qed.

(** C6. Copy assignment [a = b] between two different vectors with
    different buffers.  When [a]'s capacity is less than [b]'s size, a copy
    of [b] is built in a new block and swapped in: [a] then holds [b]'s
    elements with capacity [b.Size()], its old elements are destroyed, and
    if the allocation fails or a copy constructor throws, the heap and
    every vector are as before.  Otherwise [a] keeps its buffer: the common
    prefix is copy-assigned, the rest of [b] is copy-constructed into [a]'s
    raw slots, and [a]'s surplus is destroyed.  In both cases [a] ends with
    [b]'s elements in order and [b] is unchanged. *)
Theorem copy_assignment_spec `{!ElementLaws T} σ this other ba xs ca bb ys cb :
  this ≠ other → apart ba bb →
  vec_at σ this ba xs ca → vec_at σ other bb ys cb →
  (ca < length ys → can_allocate (length ys) = true →
   Forall (λ y, is_Some (T_copy y)) ys →
     ∃ σ', VectorH.assign_copy this other σ = Ok tt σ' ∧
           vec_at σ' this (Some (fresh (dom (heap σ)))) ys (length ys) ∧
           vec_at σ' other bb ys cb ∧
           log σ' = log σ ++ map EvCopy ys ++ map EvDestroy xs) ∧
  (ca < length ys → can_allocate (length ys) = false →
     VectorH.assign_copy this other σ = Throw bad_alloc σ) ∧
  (ca < length ys → can_allocate (length ys) = true →
   ∀ ys1 y ys2, ys = ys1 ++ y :: ys2 →
     Forall (λ y, is_Some (T_copy y)) ys1 → T_copy y = None →
     ∃ σ', VectorH.assign_copy this other σ = Throw element_exn σ' ∧
           heap σ' = heap σ ∧ objs σ' = objs σ) ∧
  (length ys ≤ ca → (∀ d s, is_Some (T_copy_assign d s)) →
   Forall (λ y, is_Some (T_copy y)) (drop (length xs) ys) →
     ∃ σ', VectorH.assign_copy this other σ = Ok tt σ' ∧
           vec_at σ' this ba ys ca ∧
           vec_at σ' other bb ys cb ∧
           log σ' = log σ ++ zip_with EvCopyAssign xs ys
                          ++ map EvCopy (drop (length xs) ys)
                          ++ map EvDestroy (drop (length ys) xs)) ∧
  (∀ σ0, Part000.assign_copy this other σ0 = VectorH.assign_copy this other σ0).
Proof.
  destruct σ as [h o l]. intros Hne Hapart [Ha Hfa] [Hb Hfb].
  pose proof Ha as (Hva & Hlea & Hba). pose proof Hb as (Hvb & Hleb & Hbb).
  simpl in *.
  split; [|split; [|split; [|split]]].
  - intros Hlt Hc Hcopy. eexists. split; [by eapply assign_copy_swaps|].
    pose proof (fresh_block h) as Hfresh.
    split; [|split; [|done]].
    + split; [|by apply can_allocate_fits].
      split; [|split]; simpl; [by rewrite lookup_insert_eq|done|].
      rewrite Nat.sub_diag, app_nil_r.
      destruct ba as [ka|]; simpl.
      * rewrite lookup_delete_ne; [by rewrite lookup_insert_eq|].
        intros Heq. rewrite <- Heq in Hfresh. congruence.
      * by rewrite lookup_insert_eq.
    + split; [|done].
      split; [|split]; simpl; [by rewrite lookup_insert_ne|done|].
      destruct bb as [kb|]; [|done].
      assert (kb ≠ fresh (dom h)) by (intros ->; congruence).
      destruct ba as [ka|]; simpl.
      * rewrite lookup_delete_ne by (by apply Hapart).
        by rewrite lookup_insert_ne.
      * by rewrite lookup_insert_ne.
  - intros Hlt Hc. eapply assign_copy_bad_alloc; [done..|simpl; lia| |done].
    simpl. by apply fits_representable, (fits_le _ cb).
  - intros Hlt Hc ys1 y ys2 -> Hcopy Hy.
    eexists. split; [by eapply assign_copy_throws|]. done.
  - intros Hfit Hassign Hcopy. eexists. split; [by eapply assign_copy_fits|].
    split; [|split; [|done]].
    + split; [|done].
      split; [|split]; simpl; [by rewrite lookup_insert_eq|done|].
      destruct ba as [ka|]; simpl; [by rewrite lookup_insert_eq|done].
    + split; [|done].
      split; [|split]; simpl; [by rewrite lookup_insert_ne|done|].
      destruct bb as [kb|]; [|done].
      destruct ba as [ka|]; simpl; [|done].
      by rewrite lookup_insert_ne by (by apply Hapart).
  - intros σ0. apply Part000_assign_copy_eq.
Qed.

(** C7. Move construction and move assignment from the vector at [other]
    give the target [other]'s buffer, capacity and size, so that it holds
    [other]'s former elements in order, without any element operation; they
    leave [other] with size 0, capacity 0 and no buffer, which is the state
    of a default-constructed vector, and appending to it afterwards works
    as it does for any empty vector. *)
Theorem move_transfers_and_resets `{!ElementLaws T} σ this other b ys c :
  this ≠ other → vec_at σ other b ys c →
  let moved σ' :=
    vec_at σ' this b ys c ∧
    objs σ' !! other = Some (mkVector RawMemory_default 0) ∧
    vec_at σ' other None [] 0 ∧
    heap σ' = heap σ ∧ log σ' = log σ ∧
    (∀ x, can_allocate 1 = true →
          grows_by_doubling (VectorH.PushBack other (Some x)) σ' other [] 0 x) in
  (∃ σ', VectorH.Vector_move this other σ = Ok tt σ' ∧ moved σ') ∧
  (is_Some (objs σ !! this) →
   ∃ σ', VectorH.assign_move this other σ = Ok tt σ' ∧ moved σ').
Proof.
  destruct σ as [h o l]. intros Hne [Hvec Hfit]. pose proof Hvec as (Hv & Hle & Hb).
  simpl in *.
  assert (Hmoved : ∀ l',
    let σ' := State h (<[this := mkVector (mkRawMemory b c) (length ys)]>
                         (<[other := mkVector (mkRawMemory None 0) 0]> o)) l' in
    vec_at σ' this b ys c ∧
    objs σ' !! other = Some (mkVector RawMemory_default 0) ∧
    vec_at σ' other None [] 0 ∧
    (∀ x, can_allocate 1 = true →
          grows_by_doubling (VectorH.PushBack other (Some x)) σ' other [] 0 x)).
  { intros l' σ'.
    assert (Hother : vec_repr σ' other None [] 0).
    { split; [|done]. simpl. rewrite lookup_insert_ne by done.
      by rewrite lookup_insert_eq. }
    split; [|split; [|split]].
    - split; [|done]. split; [|done]. simpl. by rewrite lookup_insert_eq.
    - simpl. rewrite lookup_insert_ne by done. by rewrite lookup_insert_eq.
    - split; [exact Hother|apply fits_0].
    - intros x Hc. eapply PushBack_grows_by_doubling; [exact Hother|exact Hc|].
      unfold relocates. destruct relocate_by_move; constructor. }
  split.
  - eexists. split; [by apply Vector_move_ok|].
    destruct (Hmoved l) as (? & ? & ? & ?). done.
  - intros [v Hthis]. eexists. split; [by eapply assign_move_ok|].
    destruct (Hmoved l) as (? & ? & ? & ?). done.
Qed.

(** C8. Inserting a value at an offset [p <= size] and erasing at the
    iterator the insertion returned gives back the original elements in
    their order, hence the original size, whether or not the insertion
    reallocates.  [Erase] at an offset [p < size] returns; it move-assigns
    each element of [[p+1, size)] one slot to the left, front first,
    destroys the object left in the last slot, and leaves the vector with
    one element fewer. *)
Theorem Insert_then_Erase_identity `{!ElementLaws T} σ this b xs c p x :
  (∀ v, is_Some (T_move v)) → (∀ d s, is_Some (T_move_assign d s)) →
  vec_at σ this b xs c →
  (p ≤ length xs →
   (length xs = c → can_allocate (grown c) = true ∧ relocates xs) →
   ∃ it σ1 σ2 b' c',
     VectorH.Insert this (Ptr b p) (Some x) σ = Ok it σ1 ∧
     vec_at σ1 this b' (take p xs ++ x :: drop p xs) c' ∧
     VectorH.Erase this it σ1 = Ok it σ2 ∧
     vec_at σ2 this b' xs c') ∧
  (∀ k d, b = Some k → xs !! p = Some d →
   ∃ σ',
     VectorH.Erase this (Ptr (Some k) p) σ = Ok (Ptr (Some k) p) σ' ∧
     vec_at σ' this (Some k) (take p xs ++ drop (S p) xs) c ∧
     length (take p xs ++ drop (S p) xs) = length xs - 1 ∧
     log σ' = log σ ++ shift_events d (drop (S p) xs)
                    ++ [EvDestroy (shift_rest d (drop (S p) xs))] ∧
     Forall2 (λ e s, ∃ d', e = EvMoveAssign d' s)
             (shift_events d (drop (S p) xs)) (drop (S p) xs)).
Proof.
  intros Hmv Hma [Hvec Hfit]. split.
  - intros Hp Hfull.
    destruct (Insert_then_Erase σ this b xs c p x Hmv Hma Hvec Hfit Hp Hfull)
      as (it & σ1 & σ2 & b' & c' & Hins & Hvec1 & Hera & Hvec2 & Hfit').
    exists it, σ1, σ2, b', c'.
    split; [done|]. split; [by split|]. split; [done|]. by split.
  - intros k d -> Hd.
    destruct (Erase_removes σ this k xs c p d Hma Hvec Hd) as (σ' & Hrun & Hvec' & Hlog).
    exists σ'. split; [done|]. split; [by split|]. split; [|split; [done|]].
    + apply lookup_lt_Some in Hd.
      rewrite length_app, length_take, length_drop. lia.
    + apply shift_events_sources.
Qed.

(** C9. Every public operation of [Vector] (vector.h) keeps [size_] at most
    the capacity in every [Vector] object: if that holds of all of them
    before the call, it holds of all of them when the call returns and
    also when it propagates an exception.  A call that breaks a
    precondition of the class (a failed [assert], [PopBack] of an empty
    vector, an iterator that does not point into the vector) has undefined
    behaviour and no final state; [wp] says nothing about it. *)
Theorem public_operations_keep_size_le_capacity (c : call T) σ :
  invariant (objs σ) →
  wp (perform c) σ (λ _ σ', invariant (objs σ')) (λ σ', invariant (objs σ')).
Proof.
  intros Hinv.
  assert (Hdrop : ∀ (m : M T ptr),
    owp m (objs σ) (λ _ o', invariant o') invariant →
    owp (do _ ← m; ret tt) (objs σ) (λ _ o', invariant o') invariant).
  { intros m Hm. apply owp_bind. eapply owp_mono; [exact Hm| |done].
    intros ? o' Ho'. by apply owp_ret. }
  destruct c; simpl.
  - by apply (Vector_default_inv this (objs σ)).
  - by apply (Vector_sized_inv this count (objs σ)).
  - by apply (Vector_copy_inv this other (objs σ)).
  - by apply (Vector_move_inv this other (objs σ)).
  - by apply (assign_copy_inv this other (objs σ)).
  - by apply (assign_move_inv this other (objs σ)).
  - eapply wp_mono; [by apply (Reserve_inv this new_capacity (objs σ))| |done].
    by intros ? ? [? _].
  - by apply (Resize_inv this new_size (objs σ)).
  - by apply (PushBack_inv this elem (objs σ)).
  - apply Hdrop; [|done]. by apply EmplaceBack_inv.
  - apply Hdrop; [|done]. by apply Emplace_inv.
  - apply Hdrop; [|done]. by apply Emplace_inv.
  - apply Hdrop; [|done]. by apply Erase_inv.
  - by apply (PopBack_inv this (objs σ)).
  - by apply (Swap_inv this other (objs σ)).
Qed.

(** C10. Copy assignment and move assignment of a vector to itself return
    at once and change nothing: the state after the call, and so the
    vector's size, capacity and elements, is the state before it. *)
Theorem self_assignment_is_noop (this : nat) (σ : state T) :
  VectorH.assign_copy this this σ = Ok tt σ ∧
  VectorH.assign_move this this σ = Ok tt σ ∧
  Part000.assign_copy this this σ = Ok tt σ.
Proof.
  split; [apply assign_copy_self|]. split; [apply assign_move_self|].
  rewrite Part000_assign_copy_eq. apply assign_copy_self.
Qed.

End claims.

(** * The theorems at concrete inputs *)

Section witnesses.
#[local] Existing Instance plain.
#[local] Existing Instance roomy.
#[local] Existing Instance plain_laws.

Lemma insertion_into_full_vector_doubles_witness :
  grows_by_doubling (VectorH.Insert 0 (Ptr (Some 0) 1) (Some 9))
    (vector_state [Live 1; Live 2] 2 []) 0 [1; 2] 1 9.
Proof.
  destruct (insertion_into_full_vector_doubles
              (vector_state [Live 1; Live 2] 2 []) 0 (Some 0) [1; 2] 1 9)
    as (_ & _ & _ & Hinsert & _).
  - split; [split; [reflexivity|split; [simpl; lia|reflexivity]]|by vm_compute].
  - simpl. lia.
  - reflexivity.
  - unfold relocates. simpl. repeat constructor; eexists; reflexivity.
  - exact Hinsert.
Defined.

Lemma Reserve_spec_witness :
  VectorH.Reserve 0 2 (vector_state [Live 1; Live 2; Uninit] 2 [])
  = Ok tt (vector_state [Live 1; Live 2; Uninit] 2 [])
  ∧ (∃ σ' b', VectorH.Reserve 0 6 (vector_state [Live 1; Live 2; Uninit] 2 []) = Ok tt σ'
              ∧ vec_at σ' 0 b' [1; 2] 6)
  ∧ (∃ σ', @VectorH.Reserve nat throwing roomy 0 6
             (vector_state [Live 7; Live 13; Uninit] 2 []) = Throw element_exn σ'
           ∧ vec_at σ' 0 (Some 0) [7; 13] 3)
  ∧ (∃ σ', @VectorH.Reserve nat move_only roomy 0 6
             (vector_state [Live 5; Live 66; Uninit] 2 []) = Throw element_exn σ'
           ∧ vec_at σ' 0 (Some 0) [0; 66] 3).
Proof.
  destruct (Reserve_spec (vector_state [Live 1; Live 2; Uninit] 2 []) 0 (Some 0) [1; 2] 3 2)
    as (Hnoop & _).
  { split; [split; [reflexivity|split; [simpl; lia|reflexivity]]|by vm_compute]. }
  destruct (Reserve_spec (vector_state [Live 1; Live 2; Uninit] 2 []) 0 (Some 0) [1; 2] 3 6)
    as (_ & Hgrow & _).
  { split; [split; [reflexivity|split; [simpl; lia|reflexivity]]|by vm_compute]. }
  destruct (@Reserve_spec nat throwing roomy throwing_laws
              (vector_state [Live 7; Live 13; Uninit] 2 []) 0 (Some 0) [7; 13] 3 6)
    as (_ & _ & _ & Hcopy & _).
  { split; [split; [reflexivity|split; [simpl; lia|reflexivity]]|by vm_compute]. }
  destruct (@Reserve_spec nat move_only roomy move_only_laws
              (vector_state [Live 5; Live 66; Uninit] 2 []) 0 (Some 0) [5; 66] 3 6)
    as (_ & _ & _ & _ & Hmove & _).
  { split; [split; [reflexivity|split; [simpl; lia|reflexivity]]|by vm_compute]. }
  split; [apply Hnoop; lia|].
  split.
  { destruct Hgrow as (σ' & b' & Hrun & Hvec & _).
    - lia.
    - reflexivity.
    - unfold relocates. simpl. repeat constructor; eexists; reflexivity.
    - exists σ', b'. split; [exact Hrun|exact Hvec]. }
  split.
  { destruct (Hcopy ltac:(lia) eq_refl eq_refl [7] 13 [] eq_refl)
      as (σ' & Hrun & _ & _ & Hvec).
    - repeat constructor; eexists; reflexivity.
    - reflexivity.
    - exists σ'. split; [exact Hrun|exact Hvec]. }
  destruct (Hmove ltac:(lia) eq_refl eq_refl [5] 66 [] eq_refl)
    as (σ' & Hrun & _ & Hvec & _).
  - repeat constructor; eexists; reflexivity.
  - reflexivity.
  - exists σ'. split; [exact Hrun|exact Hvec].
Defined.

Lemma copy_assignment_spec_witness :
  let σ := State {[0 := [Live 1; Uninit]; 1 := [Live 5; Live 6; Live 7]]}
                 {[0 := mkVector (mkRawMemory (Some 0) 2) 1;
                   1 := mkVector (mkRawMemory (Some 1) 3) 3]} [] in
  ∃ σ', VectorH.assign_copy 0 1 σ = Ok tt σ'
        ∧ vec_at σ' 0 (Some (fresh (dom (heap σ)))) [5; 6; 7] 3
        ∧ vec_at σ' 1 (Some 1) [5; 6; 7] 3.
Proof.
  intros σ.
  destruct (copy_assignment_spec σ 0 1 (Some 0) [1] 2 (Some 1) [5; 6; 7] 3)
    as (Hswap & _).
  - lia.
  - intros ka kb [= <-] [= <-]. lia.
  - split; [split; [reflexivity|split; [simpl; lia|reflexivity]]|by vm_compute].
  - split; [split; [reflexivity|split; [simpl; lia|reflexivity]]|by vm_compute].
  - destruct Hswap as (σ' & Hrun & Ha & Hb & _).
    + simpl. lia.
    + reflexivity.
    + repeat constructor; eexists; reflexivity.
    + exists σ'. split; [exact Hrun|]. split; [exact Ha|exact Hb].
Defined.

Lemma move_transfers_and_resets_witness :
  let σ := State {[1 := [Live 5; Live 6]]}
                 {[1 := mkVector (mkRawMemory (Some 1) 2) 2]} [] in
  ∃ σ', VectorH.Vector_move 0 1 σ = Ok tt σ'
        ∧ vec_at σ' 0 (Some 1) [5; 6] 2 ∧ vec_at σ' 1 None [] 0.
Proof.
  intros σ.
  destruct (move_transfers_and_resets σ 0 1 (Some 1) [5; 6] 2)
    as ((σ' & Hrun & Hthis & _ & Hother & _) & _).
  - lia.
  - split; [split; [reflexivity|split; [simpl; lia|reflexivity]]|by vm_compute].
  - exists σ'. split; [exact Hrun|]. split; [exact Hthis|exact Hother].
Defined.

Lemma Insert_then_Erase_identity_witness :
  ∃ it σ1 σ2 b' c',
    VectorH.Insert 0 (Ptr (Some 0) 1) (Some 9)
      (vector_state [Live 1; Live 2; Uninit] 2 []) = Ok it σ1
    ∧ VectorH.Erase 0 it σ1 = Ok it σ2
    ∧ vec_at σ2 0 b' [1; 2] c'.
Proof.
  destruct (Insert_then_Erase_identity
              (vector_state [Live 1; Live 2; Uninit] 2 []) 0 (Some 0) [1; 2] 3 1 9)
    as (Hround & _).
  - intros v. simpl. eexists. reflexivity.
  - intros d s. simpl. eexists. reflexivity.
  - split; [split; [reflexivity|split; [simpl; lia|reflexivity]]|by vm_compute].
  - destruct Hround as (it & σ1 & σ2 & b' & c' & Hins & _ & Hera & Hvec).
    + simpl. lia.
    + simpl. lia.
    + exists it, σ1, σ2, b', c'. split; [exact Hins|]. split; [exact Hera|exact Hvec].
Defined.

Lemma public_operations_keep_size_le_capacity_witness :
  wp (perform (CallPushBack 0 (Some 7))) (vector_state [Live 1] 1 [])
     (λ _ σ', invariant (objs σ')) (λ σ', invariant (objs σ')).
Proof.
  apply (public_operations_keep_size_le_capacity (CallPushBack 0 (Some 7))
           (vector_state [Live 1] 1 [])).
  apply map_Forall_singleton. unfold size_le_capacity. simpl. lia.
Defined.

End witnesses.

(** * Further properties of the members *)

(** ** Appending *)

Section appending.
Context {T : Type} `{Element T} `{Platform}.
Implicit Types (h : gmap nat (list (slot T))) (o : gmap nat Vector) (l : list (event T))
  (xs ys : list T).

Lemma Emplace_append h o l this k xs c x :
  vec_repr (State h o l) this (Some k) xs c → length xs < c →
  VectorH.Emplace this (Ptr (Some k) (length xs)) (Some x) (State h o l)
  = Ok (Ptr (Some k) (length xs)) (State
      (<[k := map Live (xs ++ [x]) ++ replicate (c - S (length xs)) Uninit]> h)
      (<[this := mkVector (mkRawMemory (Some k) c) (S (length xs))]> o)
      (l ++ [EvConstruct x])).
Proof.
  intros Hvec Hc. pose proof Hvec as (Hv & _ & Hb). simpl in *.
  unfold VectorH.Emplace.
  rewrite (bind_ok _ _ _ _ _ (load_ok _ _ _ _ _ Hv)).
  unfold VectorH.begin, GetAddress; simpl.
  rewrite (bind_ok _ _ _ _ _ (distance_ok _ _ _)).
  unfold RawMemory_Capacity; simpl. rewrite decide_False by lia.
  erewrite bind_ok; [|by eapply EmplaceWithoutAllocate_append].
  erewrite bind_ok; [|by apply load_ok].
  erewrite bind_ok; [|by apply set_size_ok].
  erewrite bind_ok; [|by apply load_ok, lookup_insert_eq].
  simpl. unfold ret, ptr_add; simpl.
  by rewrite Nat.add_1_r.
Qed.

Lemma PushBack_append h o l this k xs c x :
  vec_repr (State h o l) this (Some k) xs c → length xs < c →
  VectorH.PushBack this (Some x) (State h o l)
  = Ok tt (State
      (<[k := map Live (xs ++ [x]) ++ replicate (c - S (length xs)) Uninit]> h)
      (<[this := mkVector (mkRawMemory (Some k) c) (S (length xs))]> o)
      (l ++ [EvConstruct x])).
Proof.
  intros Hvec Hc. pose proof Hvec as (Hv & _ & _). simpl in Hv.
  unfold VectorH.PushBack.
  rewrite (bind_ok _ _ _ _ _ (load_ok _ _ _ _ _ Hv)).
  rewrite (bind_ok _ _ _ _ _ (cend_ok _ _ _ _ _ _ (Nat.lt_le_incl _ _ Hc))).
  by erewrite bind_ok; [|by eapply Emplace_append].
Qed.

Lemma EmplaceBack_append h o l this k xs c x :
  vec_repr (State h o l) this (Some k) xs c → length xs < c →
  VectorH.EmplaceBack this (Some x) (State h o l)
  = Ok (Ptr (Some k) (length xs)) (State
      (<[k := map Live (xs ++ [x]) ++ replicate (c - S (length xs)) Uninit]> h)
      (<[this := mkVector (mkRawMemory (Some k) c) (S (length xs))]> o)
      (l ++ [EvConstruct x])).
Proof.
  intros Hvec Hc. pose proof Hvec as (Hv & _ & _). simpl in Hv.
  unfold VectorH.EmplaceBack.
  rewrite (bind_ok _ _ _ _ _ (load_ok _ _ _ _ _ Hv)).
  rewrite (bind_ok _ _ _ _ _ (cend_ok _ _ _ _ _ _ (Nat.lt_le_incl _ _ Hc))).
  by eapply Emplace_append.
Qed.

Lemma Part000_PushBack_append h o l this k xs c x :
  vec_repr (State h o l) this (Some k) xs c → length xs < c →
  Part000.PushBack this (Some x) (State h o l)
  = Ok tt (State
      (<[k := map Live (xs ++ [x]) ++ replicate (c - S (length xs)) Uninit]> h)
      (<[this := mkVector (mkRawMemory (Some k) c) (S (length xs))]> o)
      (l ++ [EvConstruct x])).
Proof.
  intros Hvec Hc. pose proof Hvec as (Hv & _ & Hb). simpl in *.
  unfold Part000.PushBack.
  rewrite (bind_ok _ _ _ _ _ (load_ok _ _ _ _ _ Hv)).
  unfold RawMemory_Capacity, GetAddress, ptr_add; simpl.
  rewrite decide_False by lia.
  assert (Hrest : replicate (c - length xs) (@Uninit T)
                  = Uninit :: replicate (c - S (length xs)) Uninit).
  { replace (c - length xs) with (S (c - S (length xs))) by lia. done. }
  rewrite Hrest in Hb.
  erewrite bind_ok; cycle 1.
  { eapply construct_at_ok; [exact Hb|].
    rewrite <- (length_map Live xs). apply lookup_mid. }
  rewrite <- (length_map Live xs), insert_mid.
  erewrite set_size_ok by done. simpl.
  rewrite Nat.add_1_r. list_norm. done.
Qed.

Lemma new_then_throw {A B} h o l n (m : RawMemory → M T A) (k : RawMemory → M T B) :
  n ≠ 0 → can_allocate n = true →
  (∀ h', m (mkRawMemory (Some (fresh (dom h))) n) (State h' o l)
         = Throw element_exn (State h' o l)) →
  (do temp ← RawMemory_new n;
   exec unwind (m temp) (RawMemory_dtor temp);
   k temp) (State h o l)
  = Throw element_exn (State h o l).
Proof.
  intros Hn Hc Hm.
  erewrite bind_ok; [|by apply RawMemory_new_ok].
  apply bind_throw.
  erewrite unwind_throw; [done|apply Hm|].
  rewrite RawMemory_dtor_ok; simpl.
  - by rewrite released_fresh.
  - intros j [= <-]. rewrite lookup_insert_eq. by eexists.
Qed.

Lemma new_then_throw_log {A B} h o l l' n (m : RawMemory → M T A) (k : RawMemory → M T B) :
  n ≠ 0 → can_allocate n = true →
  m (mkRawMemory (Some (fresh (dom h))) n)
    (State (<[fresh (dom h) := replicate n Uninit]> h) o l)
  = Throw element_exn (State (<[fresh (dom h) := replicate n Uninit]> h) o l') →
  (do temp ← RawMemory_new n;
   exec unwind (m temp) (RawMemory_dtor temp);
   k temp) (State h o l)
  = Throw element_exn (State h o l').
Proof.
  intros Hn Hc Hm.
  erewrite bind_ok; [|by apply RawMemory_new_ok].
  apply bind_throw.
  erewrite unwind_throw; [done|apply Hm|].
  rewrite RawMemory_dtor_ok; simpl.
  - by rewrite released_fresh.
  - intros j [= <-]. rewrite lookup_insert_eq. by eexists.
Qed.

Lemma grown_ne_0 n : grown n ≠ 0.
Proof. unfold grown. case_decide; lia. Qed.

Lemma EmplaceWithAllocate_ctor_throws h o l this b xs p :
  vec_repr (State h o l) this b xs (length xs) → p ≤ length xs →
  can_allocate (grown (length xs)) = true →
  VectorH.EmplaceWithAllocate this p None (State h o l)
  = Throw element_exn (State h o l).
Proof.
  intros Hvec Hp Hc. pose proof Hvec as (Hv & _ & Hb). simpl in *.
  unfold VectorH.EmplaceWithAllocate.
  rewrite (bind_ok _ _ _ _ _ (load_ok _ _ _ _ _ Hv)). simpl.
  unfold grown in Hc. unfold RawMemory_Capacity; simpl.
  destruct (decide (length xs = 0)) as [Hz|Hz].
  - rewrite Hz in *. simpl.
    apply (new_then_throw h o l 1 (λ temp, construct_at (GetAddress temp) None));
      [lia|done|done].
  - apply (new_then_throw h o l (length xs * 2)
             (λ temp, do slot ← RawMemory_plus temp p;
                      exec construct_at slot None;
                      exec VectorH.CopyOrMove (Ptr b 0) (GetAddress temp) p;
                      do from ← RawMemory_plus (mkRawMemory b (length xs)) p;
                      do to ← RawMemory_plus temp p;
                      if decide (p ≤ length xs)
                      then VectorH.CopyOrMove from (ptr_add to 1) (length xs - p)
                      else fail SizeWrap)); [lia|done|].
    intros h'. erewrite bind_ok; [|apply RawMemory_plus_ok; simpl; lia]. done.
Qed.

Lemma EmplaceWithAllocate_bad_alloc h o l this b xs p mk :
  vec_repr (State h o l) this b xs (length xs) →
  representable (grown (length xs)) →
  can_allocate (grown (length xs)) = false →
  VectorH.EmplaceWithAllocate this p mk (State h o l)
  = Throw bad_alloc (State h o l).
Proof.
  intros Hvec Hr Hc. pose proof Hvec as (Hv & _ & Hb). simpl in *.
  unfold VectorH.EmplaceWithAllocate.
  rewrite (bind_ok _ _ _ _ _ (load_ok _ _ _ _ _ Hv)). simpl.
  unfold grown in Hc, Hr. unfold RawMemory_Capacity; simpl.
  destruct (decide (length xs = 0)) as [Hz|Hz].
  - rewrite Hz in *. simpl. apply bind_throw.
    by apply RawMemory_new_throw.
  - apply bind_throw. apply RawMemory_new_throw; [lia|done|done].
Qed.

Lemma Emplace_full_fails h o l this b xs p mk e :
  vec_repr (State h o l) this b xs (length xs) →
  VectorH.EmplaceWithAllocate this p mk (State h o l) = Throw e (State h o l) →
  VectorH.Emplace this (Ptr b p) mk (State h o l) = Throw e (State h o l).
Proof.
  intros Hvec Hrun. pose proof Hvec as (Hv & _ & _). simpl in *.
  unfold VectorH.Emplace.
  rewrite (bind_ok _ _ _ _ _ (load_ok _ _ _ _ _ Hv)).
  unfold VectorH.begin, GetAddress; simpl.
  rewrite (bind_ok _ _ _ _ _ (distance_ok _ _ _)).
  unfold RawMemory_Capacity; simpl. rewrite decide_True by done.
  by apply bind_throw.
Qed.

Lemma Emplace_append_ctor_throws h o l this b xs c :
  vec_repr (State h o l) this b xs c → length xs < c →
  VectorH.Emplace this (Ptr b (length xs)) None (State h o l)
  = Throw element_exn (State h o l).
Proof.
  intros Hvec Hc. pose proof Hvec as (Hv & _ & _). simpl in *.
  unfold VectorH.Emplace.
  rewrite (bind_ok _ _ _ _ _ (load_ok _ _ _ _ _ Hv)).
  unfold VectorH.begin, GetAddress; simpl.
  rewrite (bind_ok _ _ _ _ _ (distance_ok _ _ _)).
  unfold RawMemory_Capacity; simpl. rewrite decide_False by lia.
  apply bind_throw. unfold VectorH.EmplaceWithoutAllocate.
  rewrite (bind_ok _ _ _ _ _ (load_ok _ _ _ _ _ Hv)). simpl.
  rewrite (proj2 (Nat.ltb_ge _ _)) by lia.
  erewrite bind_ok; [|apply RawMemory_plus_ok; simpl; lia]. done.
Qed.

Lemma PushBack_ctor_throws h o l this b xs c :
  vec_repr (State h o l) this b xs c →
  (length xs = c → can_allocate (grown c) = true) →
  VectorH.PushBack this None (State h o l) = Throw element_exn (State h o l)
  ∧ VectorH.EmplaceBack this None (State h o l) = Throw element_exn (State h o l).
Proof.
  intros Hvec Hc. pose proof Hvec as (Hv & Hle & _). simpl in *.
  assert (Hrun : VectorH.Emplace this (Ptr b (length xs)) None (State h o l)
                 = Throw element_exn (State h o l)).
  { destruct (decide (length xs = c)) as [<-|Hne].
    - eapply Emplace_full_fails; [done|].
      eapply EmplaceWithAllocate_ctor_throws; eauto.
    - eapply Emplace_append_ctor_throws; [done|lia]. }
  unfold VectorH.PushBack, VectorH.EmplaceBack.
  rewrite !(bind_ok _ _ _ _ _ (load_ok _ _ _ _ _ Hv)).
  rewrite !(bind_ok _ _ _ _ _ (cend_ok _ _ _ _ _ _ Hle)).
  split; [by apply bind_throw|done].
Qed.

Lemma PushBack_bad_alloc h o l this b xs mk :
  vec_repr (State h o l) this b xs (length xs) →
  representable (grown (length xs)) →
  can_allocate (grown (length xs)) = false →
  VectorH.PushBack this mk (State h o l) = Throw bad_alloc (State h o l)
  ∧ VectorH.EmplaceBack this mk (State h o l) = Throw bad_alloc (State h o l).
Proof.
  intros Hvec Hr Hc. pose proof Hvec as (Hv & Hle & _). simpl in *.
  assert (Hrun : VectorH.Emplace this (Ptr b (length xs)) mk (State h o l)
                 = Throw bad_alloc (State h o l)).
  { eapply Emplace_full_fails; [done|].
    by eapply EmplaceWithAllocate_bad_alloc. }
  unfold VectorH.PushBack, VectorH.EmplaceBack.
  rewrite !(bind_ok _ _ _ _ _ (load_ok _ _ _ _ _ Hv)).
  rewrite !(bind_ok _ _ _ _ _ (cend_ok _ _ _ _ _ _ Hle)).
  split; [by apply bind_throw|done].
Qed.

Lemma Part000_PushBack_ctor_throws h o l this b xs c :
  vec_repr (State h o l) this b xs c →
  (length xs = c → can_allocate (grown c) = true) →
  Part000.PushBack this None (State h o l) = Throw element_exn (State h o l).
Proof.
  intros Hvec Hc. pose proof Hvec as (Hv & Hle & _). simpl in *.
  unfold Part000.PushBack.
  rewrite (bind_ok _ _ _ _ _ (load_ok _ _ _ _ _ Hv)).
  unfold RawMemory_Capacity; simpl.
  destruct (decide (c = length xs)) as [->|Hne]; [|done].
  specialize (Hc eq_refl). unfold grown in Hc.
  destruct (decide (length xs = 0)) as [Hz|Hz].
  - rewrite Hz in *. simpl.
    apply (new_then_throw h o l 1 (λ temp, construct_at (GetAddress temp) None));
      [lia|done|done].
  - apply (new_then_throw h o l (length xs * 2)
             (λ temp, do slot ← RawMemory_plus temp (length xs);
                      exec construct_at slot None;
                      if relocate_by_move
                      then uninitialized_move_n (GetAddress (mkRawMemory b (length xs)))
                             (length xs) (GetAddress temp)
                      else uninitialized_copy_n (GetAddress (mkRawMemory b (length xs)))
                             (length xs) (GetAddress temp))); [lia|done|].
    intros h'. erewrite bind_ok; [|apply RawMemory_plus_ok; simpl; lia]. done.
Qed.

Lemma Part000_PushBack_bad_alloc h o l this b xs mk :
  vec_repr (State h o l) this b xs (length xs) →
  representable (grown (length xs)) →
  can_allocate (grown (length xs)) = false →
  Part000.PushBack this mk (State h o l) = Throw bad_alloc (State h o l).
Proof.
  intros Hvec Hr Hc. pose proof Hvec as (Hv & Hle & _). simpl in *.
  unfold Part000.PushBack.
  rewrite (bind_ok _ _ _ _ _ (load_ok _ _ _ _ _ Hv)).
  unfold RawMemory_Capacity; simpl. rewrite decide_True by done.
  unfold grown in Hc, Hr.
  destruct (decide (length xs = 0)) as [Hz|Hz].
  - rewrite Hz in *. simpl. apply bind_throw. by apply RawMemory_new_throw.
  - apply bind_throw. apply RawMemory_new_throw; [lia|done|done].
Qed.

Lemma vec_repr_deref σ this k xs c i v :
  vec_repr σ this (Some k) xs c → xs !! i = Some v →
  deref (Ptr (Some k) i) σ = Ok v σ.
Proof.
  destruct σ as [h o l]. intros (_ & _ & Hb) Hi. simpl in Hb.
  eapply deref_ok; [exact Hb|].
  rewrite lookup_app_l by (rewrite length_map; by eapply lookup_lt_Some).
  by rewrite list_lookup_fmap, Hi.
Qed.

Lemma Part000_EmplaceBack_after h o l this σ' b' ys c' x :
  Part000.PushBack this (Some x) (State h o l) = Ok tt σ' →
  vec_repr σ' this b' (ys ++ [x]) c' →
  Part000.EmplaceBack this (Some x) (State h o l) = Ok (Ptr b' (length ys)) σ'.
Proof.
  intros Hrun (Hv & Hle & _). destruct σ' as [h' o' l']. simpl in *.
  unfold Part000.EmplaceBack.
  rewrite (bind_ok _ _ _ _ _ Hrun).
  rewrite (bind_ok _ _ _ _ _ (load_ok _ _ _ _ _ Hv)). simpl.
  rewrite length_app in *. simpl in *.
  rewrite RawMemory_index_ok by (simpl; lia). simpl.
  do 2 f_equal. lia.
Qed.

Lemma PushBack_result `{!ElementLaws T} σ this b xs c x :
  vec_repr σ this b xs c →
  (length xs = c → can_allocate (grown c) = true ∧ relocates xs) →
  ∃ σ' b',
    VectorH.PushBack this (Some x) σ = Ok tt σ' ∧
    VectorH.EmplaceBack this (Some x) σ = Ok (Ptr (Some b') (length xs)) σ' ∧
    Part000.PushBack this (Some x) σ = Ok tt σ' ∧
    Part000.EmplaceBack this (Some x) σ = Ok (Ptr (Some b') (length xs)) σ' ∧
    vec_repr σ' this (Some b') (xs ++ [x])
           (if decide (length xs = c) then grown c else c) ∧
    deref (Ptr (Some b') (length xs)) σ' = Ok x σ' ∧
    (length xs < c → b = Some b' ∧ log σ' = log σ ++ [EvConstruct x]).
Proof.
  destruct σ as [h o l]. intros Hvec Hfull.
  pose proof Hvec as (Hv & Hle & Hb). simpl in Hv, Hle, Hb.
  destruct (decide (length xs = c)) as [<-|Hne].
  - destruct Hfull as [Hc Hr]; [done|].
    pose proof (Emplace_grows h o l this b xs (length xs) x Hvec (le_n _) Hc Hr)
      as Hrun.
    pose proof (Part000_PushBack_grows h o l this b xs x Hvec Hc Hr) as Hrun0.
    pose proof (vec_repr_grown h o l
                  (l ++ EvConstruct x :: relocate_events xs
                     ++ map EvDestroy (relocate_left xs))
                  this b xs (length xs) (length xs) x Hvec (le_n _)) as Hvec'.
    rewrite firstn_all, drop_all in *.
    eexists _, (fresh (dom h)).
    split; [|split; [|split; [|split; [|split; [|split]]]]].
    + unfold VectorH.PushBack.
      rewrite (bind_ok _ _ _ _ _ (load_ok _ _ _ _ _ Hv)).
      rewrite (bind_ok _ _ _ _ _ (cend_ok _ _ _ _ _ _ Hle)).
      by rewrite (bind_ok _ _ _ _ _ Hrun).
    + unfold VectorH.EmplaceBack.
      rewrite (bind_ok _ _ _ _ _ (load_ok _ _ _ _ _ Hv)).
      by rewrite (bind_ok _ _ _ _ _ (cend_ok _ _ _ _ _ _ Hle)).
    + exact Hrun0.
    + by eapply Part000_EmplaceBack_after.
    + exact Hvec'.
    + eapply vec_repr_deref; [exact Hvec'|]. apply list_lookup_middle. done.
    + lia.
  - assert (Hlt : length xs < c) by lia.
    destruct b as [k|]; [|simpl in Hb; lia].
    assert (Hvec' : vec_repr
      (State (<[k := map Live (xs ++ [x]) ++ replicate (c - S (length xs)) Uninit]> h)
             (<[this := mkVector (mkRawMemory (Some k) c) (S (length xs))]> o)
             (l ++ [EvConstruct x]))
      this (Some k) (xs ++ [x]) c).
    { split; [|split]; simpl.
      - rewrite lookup_insert_eq, length_app. simpl. by rewrite Nat.add_1_r.
      - rewrite length_app. simpl. lia.
      - rewrite lookup_insert_eq, length_app. simpl. by rewrite Nat.add_1_r. }
    eexists _, k.
    split; [|split; [|split; [|split; [|split; [|split]]]]].
    + by eapply PushBack_append.
    + by eapply EmplaceBack_append.
    + by eapply Part000_PushBack_append.
    + eapply Part000_EmplaceBack_after; [by eapply Part000_PushBack_append|done].
    + exact Hvec'.
    + eapply vec_repr_deref; [exact Hvec'|]. apply list_lookup_middle. done.
    + done.
Qed.

(** X1. [PushBack] and [EmplaceBack] append.  Whatever the capacity, when a
    needed reallocation can succeed the call returns and the vector then
    holds the old elements followed by the new one; the capacity is
    unchanged when there was room and [grown] otherwise.  With room the
    buffer is kept and the only element operation is the construction of
    the new element.  [EmplaceBack] returns the address of the new last
    element.  The earlier revision, which spells the two members out
    instead of calling [Emplace], computes the same. *)
Theorem PushBack_appends `{!ElementLaws T} σ this b xs c x :
  vec_at σ this b xs c →
  (length xs = c → can_allocate (grown c) = true ∧ relocates xs) →
  ∃ σ' b',
    VectorH.PushBack this (Some x) σ = Ok tt σ' ∧
    VectorH.EmplaceBack this (Some x) σ = Ok (Ptr (Some b') (length xs)) σ' ∧
    Part000.PushBack this (Some x) σ = Ok tt σ' ∧
    Part000.EmplaceBack this (Some x) σ = Ok (Ptr (Some b') (length xs)) σ' ∧
    vec_at σ' this (Some b') (xs ++ [x])
           (if decide (length xs = c) then grown c else c) ∧
    deref (Ptr (Some b') (length xs)) σ' = Ok x σ' ∧
    (length xs < c → b = Some b' ∧ log σ' = log σ ++ [EvConstruct x]).
Proof.
  intros [Hvec Hfit] Hfull.
  destruct (PushBack_result σ this b xs c x Hvec Hfull)
    as (σ' & b' & Hpush & Hemplace & Hpush0 & Hemplace0 & Hvec' & Hlast & Hroom).
  exists σ', b'. do 4 (split; [done|]). split; [|done].
  split; [done|]. case_decide; [|done].
  apply can_allocate_fits. by apply Hfull.
Qed.

(** X2. When appending fails, nothing has changed.  If the constructor of the
    new element throws, [PushBack] and [EmplaceBack] of both revisions
    propagate the exception and leave the heap, the vector and the log as
    they were, with or without a reallocation (the new buffer is released
    again); the same holds when the allocation of the new buffer fails. *)
Theorem append_failure_changes_nothing σ this b xs c :
  vec_at σ this b xs c →
  ((length xs = c → can_allocate (grown c) = true) →
   VectorH.PushBack this None σ = Throw element_exn σ ∧
   VectorH.EmplaceBack this None σ = Throw element_exn σ ∧
   Part000.PushBack this None σ = Throw element_exn σ ∧
   Part000.EmplaceBack this None σ = Throw element_exn σ) ∧
  (∀ mk, length xs = c → can_allocate (grown c) = false →
   VectorH.PushBack this mk σ = Throw bad_alloc σ ∧
   VectorH.EmplaceBack this mk σ = Throw bad_alloc σ ∧
   Part000.PushBack this mk σ = Throw bad_alloc σ ∧
   Part000.EmplaceBack this mk σ = Throw bad_alloc σ).
Proof.
  destruct σ as [h o l]. intros [Hvec Hfit]. split.
  - intros Hc.
    destruct (PushBack_ctor_throws h o l this b xs c Hvec Hc) as [Hp He].
    pose proof (Part000_PushBack_ctor_throws h o l this b xs c Hvec Hc) as Hp0.
    split; [done|]. split; [done|]. split; [done|].
    unfold Part000.EmplaceBack. by apply bind_throw.
  - intros mk <- Hc. pose proof (fits_grown _ Hfit) as Hr.
    destruct (PushBack_bad_alloc h o l this b xs mk Hvec Hr Hc) as [Hp He].
    pose proof (Part000_PushBack_bad_alloc h o l this b xs mk Hvec Hr Hc) as Hp0.
    split; [done|]. split; [done|]. split; [done|].
    unfold Part000.EmplaceBack. by apply bind_throw.
Qed.

End appending.

(** ** Sequences of [PushBack] *)

Section pushing.
Context {T : Type} `{Element T} `{Platform}.
Implicit Types (h : gmap nat (list (slot T))) (o : gmap nat Vector) (l : list (event T))
  (xs ys : list T).

Lemma push_all_in_place this k c ys : ∀ σ xs,
  vec_repr σ this (Some k) xs c → length xs + length ys ≤ c →
  ∃ σ', push_all this ys σ = Ok tt σ' ∧
        vec_repr σ' this (Some k) (xs ++ ys) c ∧
        log σ' = log σ ++ map EvConstruct ys.
Proof.
  induction ys as [|y ys IH]; intros σ xs Hvec Hlen; simpl in *.
  - exists σ. rewrite !app_nil_r. done.
  - destruct σ as [h o l].
    pose proof (PushBack_append h o l this k xs c y Hvec ltac:(lia)) as Hrun.
    assert (Hvec' : vec_repr
      (State (<[k := map Live (xs ++ [y]) ++ replicate (c - S (length xs)) Uninit]> h)
             (<[this := mkVector (mkRawMemory (Some k) c) (S (length xs))]> o)
             (l ++ [EvConstruct y]))
      this (Some k) (xs ++ [y]) c).
    { split; [|split]; simpl.
      - rewrite lookup_insert_eq, length_app. simpl. by rewrite Nat.add_1_r.
      - rewrite length_app. simpl. lia.
      - rewrite lookup_insert_eq, length_app. simpl. by rewrite Nat.add_1_r. }
    destruct (IH _ _ Hvec') as (σ' & Hrest & Hres & Hlog).
    { rewrite length_app. simpl. lia. }
    exists σ'. rewrite (bind_ok _ _ _ _ _ Hrun).
    split; [done|]. rewrite <- app_assoc in Hres. split; [done|].
    rewrite Hlog. simpl. by rewrite <- app_assoc.
Qed.

(** X3. After [Reserve(n)], for an [n] of which a buffer can be had (so that
    [n * sizeof(T)] is at most [PTRDIFF_MAX] and does not wrap), the vector
    takes [PushBack]s up to size [n] without reallocating: the capacity
    stays [n], the buffer stays the one [Reserve] allocated, so that
    addresses of elements stay valid, and the only element operations of
    the [PushBack]s are the constructions of the new elements. *)
Theorem Reserve_then_PushBack_keeps_buffer `{!ElementLaws T} σ this b xs c n ys :
  vec_at σ this b xs c → c < n → can_allocate n = true → relocates xs →
  length xs + length ys ≤ n →
  ∃ σ1 σ2 k,
    VectorH.Reserve this n σ = Ok tt σ1 ∧
    vec_at σ1 this (Some k) xs n ∧
    push_all this ys σ1 = Ok tt σ2 ∧
    vec_at σ2 this (Some k) (xs ++ ys) n ∧
    log σ2 = log σ1 ++ map EvConstruct ys.
Proof.
  destruct σ as [h o l]. intros [Hvec Hfit] Hn Hc Hr Hlen.
  pose proof (Reserve_grows h o l this b xs c n Hvec Hn Hc Hr) as Hrun.
  pose proof Hvec as (Hv & Hle & Hb). simpl in Hv, Hle, Hb.
  match type of Hrun with _ = Ok tt ?s => set (σ1 := s) in * end.
  assert (Hvec1 : vec_repr σ1 this (Some (fresh (dom h))) xs n).
  { split; [|split]; simpl.
    - by rewrite lookup_insert_eq.
    - lia.
    - destruct b as [k|]; simpl.
      + rewrite lookup_delete_ne; [by rewrite lookup_insert_eq|].
        intros Heq. pose proof (fresh_block h) as Hf. rewrite <- Heq in Hf. congruence.
      + by rewrite lookup_insert_eq. }
  destruct (push_all_in_place this (fresh (dom h)) n ys σ1 xs Hvec1 Hlen)
    as (σ2 & Hpush & Hvec2 & Hlog).
  pose proof (can_allocate_fits _ Hc) as Hfit'.
  exists σ1, σ2, (fresh (dom h)).
  split; [done|]. split; [by split|]. split; [done|]. split; [by split|done].
Qed.

Lemma doubled_step n c :
  doubled n c → doubled (S n) (if decide (n = c) then grown c else c).
Proof.
  intros [[-> ->]|(k & -> & Hle & Hlt)].
  - right. exists 0. simpl. unfold grown. simpl. lia.
  - right. case_decide as Heq.
    + exists (S k). unfold grown. rewrite decide_False by lia.
      rewrite Nat.pow_succ_r'. lia.
    + exists k. lia.
Qed.

Lemma push_all_doubles `{!ElementLaws T} this ys : ∀ σ b xs c,
  (∀ n, n < 2 * length (xs ++ ys) → can_allocate n = true) → relocates (xs ++ ys) →
  vec_repr σ this b xs c → doubled (length xs) c →
  ∃ σ' b' c', push_all this ys σ = Ok tt σ' ∧
              vec_repr σ' this b' (xs ++ ys) c' ∧
              doubled (length (xs ++ ys)) c'.
Proof.
  induction ys as [|y ys IH]; intros σ b xs c Hc Hr Hvec Hd; simpl.
  - exists σ, b, c. rewrite !app_nil_r. done.
  - apply relocates_app in Hr as Hr'. destruct Hr' as [Hrx _].
    destruct (PushBack_result σ this b xs c y Hvec) as
      (σ1 & b1 & Hrun & _ & _ & _ & Hvec1 & _).
    { intros Hfull. split; [|done]. apply Hc.
      rewrite length_app. simpl. unfold grown. case_decide; lia. }
    apply doubled_step in Hd.
    destruct (IH σ1 (Some b1) (xs ++ [y])
                (if decide (length xs = c) then grown c else c))
      as (σ' & b' & c' & Hrest & Hres & Hd').
    + by rewrite <- app_assoc.
    + by rewrite <- app_assoc.
    + exact Hvec1.
    + rewrite length_app. simpl. by rewrite Nat.add_1_r.
    + exists σ', b', c'. rewrite (bind_ok _ _ _ _ _ Hrun).
      rewrite <- app_assoc in Hres, Hd'. done.
Qed.

(** X4. Amortised doubling.  [Vector<T> v;] followed by [PushBack] of the
    elements of a non-empty list, one after the other, returns when every
    allocation of fewer than [2 * n] elements and every relocation
    succeeds; the vector then holds the list in order, and its capacity is
    the power of two [c] with [n <= c < 2 * n] for the [n] elements
    pushed. *)
Theorem PushBack_from_empty_doubles `{!ElementLaws T} σ this ys :
  (∀ n, n < 2 * length ys → can_allocate n = true) → relocates ys → ys ≠ [] →
  ∃ σ' b' c',
    (exec VectorH.Vector_default this; push_all this ys) σ = Ok tt σ' ∧
    vec_at σ' this b' ys c' ∧
    (∃ k, c' = 2 ^ k) ∧ length ys ≤ c' ∧ c' < 2 * length ys.
Proof.
  destruct σ as [h o l]. intros Hc Hr Hne.
  unfold VectorH.Vector_default.
  destruct (push_all_doubles this ys
              (State h (<[this := mkVector RawMemory_default 0]> o) l)
              None [] 0 Hc Hr) as (σ' & b' & c' & Hrun & Hvec & Hd).
  - split; [|done]. simpl. by rewrite lookup_insert_eq.
  - by left.
  - exists σ', b', c'. rewrite (bind_ok _ _ _ _ _ (store_ok _ _ _ _ _)).
    split; [done|]. simpl in Hd.
    destruct Hd as [[Hz _]|(k & -> & ? & ?)].
    + destruct ys; [done|simpl in Hz; lia].
    + split; [|split; [by exists k|lia]].
      split; [done|]. apply can_allocate_fits, Hc. lia.
Qed.

End pushing.

(** ** Construction and destruction *)

Section lifetime.
Context {T : Type} `{Element T} `{Platform}.
Implicit Types (h : gmap nat (list (slot T))) (o : gmap nat Vector) (l : list (event T))
  (xs ys : list T).

Lemma Vector_sized_0 h o l this :
  VectorH.Vector_sized this 0 (State h o l)
  = Ok tt (State h (<[this := mkVector (mkRawMemory None 0) 0]> o) l).
Proof.
  unfold VectorH.Vector_sized.
  by rewrite (bind_ok _ _ _ _ _ (RawMemory_new_0 _)).
Qed.

Lemma Vector_sized_ok h o l this ds :
  ds ≠ [] → can_allocate (length ds) = true → produces T_value EvValue l ds →
  VectorH.Vector_sized this (length ds) (State h o l)
  = Ok tt (State (<[fresh (dom h) := map Live ds]> h)
                 (<[this := mkVector (mkRawMemory (Some (fresh (dom h))) (length ds))
                                     (length ds)]> o)
                 (l ++ map EvValue ds)).
Proof.
  intros Hn Hc Hd. unfold VectorH.Vector_sized.
  erewrite bind_ok; [|apply RawMemory_new_ok; [by destruct ds|done]].
  erewrite bind_ok; cycle 1.
  { eapply unwind_ok. unfold GetAddress; simpl.
    eapply (uninitialized_value_construct_n_ok _ _ _ _ ds []
              (replicate (length ds) Uninit) []); [done| |].
    - by rewrite lookup_insert_eq, app_nil_r.
    - by rewrite length_replicate. }
  simpl. rewrite insert_insert_eq, app_nil_r.
  by rewrite store_ok.
Qed.

Lemma Vector_sized_bad_alloc σ this count :
  count ≠ 0 → representable count → can_allocate count = false →
  VectorH.Vector_sized this count σ = Throw bad_alloc σ.
Proof.
  intros Hn Hr Hc. unfold VectorH.Vector_sized.
  apply bind_throw. by apply RawMemory_new_throw.
Qed.

Lemma Vector_sized_throws h o l this count ds :
  can_allocate count = true → length ds < count →
  produces T_value EvValue l ds → T_value (l ++ map EvValue ds) = None →
  VectorH.Vector_sized this count (State h o l)
  = Throw element_exn (State h o (l ++ map EvValue ds ++ map EvDestroy ds)).
Proof.
  intros Hc Hlt Hd Hnone. unfold VectorH.Vector_sized.
  apply (new_then_throw_log h o l _ count
           (λ d, uninitialized_value_construct_n (GetAddress d) count)); [lia|done|].
  unfold GetAddress; simpl.
  apply (uninitialized_value_construct_n_throw _ _ _ _ ds count [] []); [done..|].
  by rewrite lookup_insert_eq, app_nil_r.
Qed.

(** X5. [Vector(count)] builds [count] value-initialised elements, with the
    values [ds] that [count] successive initialisations produce, in a
    buffer of exactly [count] slots, provided such a buffer can be had
    ([count * sizeof(T)] is at most [PTRDIFF_MAX] and the free store has
    the block); it allocates nothing for [count = 0].  When the allocation
    fails, for a [count] whose byte count does not wrap, [bad_alloc]
    propagates and nothing has changed.  When the initialisation of an
    element throws after the elements [ds] were built, these are destroyed,
    the buffer is released and the exception propagates: the heap and the
    objects are as before, and the log holds the constructions and the
    destructions of [ds]. *)
Theorem Vector_sized_spec σ this count :
  (∀ ds, length ds = count → produces T_value EvValue (log σ) ds →
     (count ≠ 0 → can_allocate count = true) →
     ∃ σ' b,
       VectorH.Vector_sized this count σ = Ok tt σ' ∧
       vec_at σ' this b ds count ∧
       log σ' = log σ ++ map EvValue ds ∧
       (count = 0 → heap σ' = heap σ)) ∧
  (count ≠ 0 → representable count → can_allocate count = false →
     VectorH.Vector_sized this count σ = Throw bad_alloc σ) ∧
  (∀ ds, can_allocate count = true → length ds < count →
     produces T_value EvValue (log σ) ds →
     T_value (log σ ++ map EvValue ds) = None →
     ∃ σ',
       VectorH.Vector_sized this count σ = Throw element_exn σ' ∧
       heap σ' = heap σ ∧ objs σ' = objs σ ∧
       log σ' = log σ ++ map EvValue ds ++ map EvDestroy ds).
Proof.
  destruct σ as [h o l]. split; [|split].
  - intros ds <- Hd Hc. destruct ds as [|d ds].
    + eexists _, None. split; [apply Vector_sized_0|].
      split; [|split; [|done]]; simpl.
      * split; [|apply fits_0]. split; [|done]. simpl. by rewrite lookup_insert_eq.
      * by rewrite app_nil_r.
    + specialize (Hc ltac:(done)).
      eexists _, (Some (fresh (dom h))). split; [by apply Vector_sized_ok|].
      split; [|split; [done|done]].
      split; [|by apply can_allocate_fits].
      split; [|split].
      * simpl. by rewrite lookup_insert_eq.
      * done.
      * simpl heap. by rewrite lookup_insert_eq, Nat.sub_diag, app_nil_r.
  - apply Vector_sized_bad_alloc.
  - intros ds Hc Hlt Hd Hnone.
    eexists. split; [by apply Vector_sized_throws|]. done.
Qed.

(** X6. The copy constructor builds an independent copy: the new vector holds
    the elements of the source in order in a buffer of its own whose
    capacity is the size of the source, not its capacity; the source is
    unchanged and each element is copied once.  When the allocation fails
    or a copy constructor throws, the copies already made are destroyed,
    the buffer is released, and no vector has changed.  The earlier
    revision, which picks between [uninitialized_move_n] and
    [uninitialized_copy_n] on a [const] source, computes the same. *)
Theorem Vector_copy_spec `{!ElementLaws T} σ this other b ys c :
  this ≠ other → vec_at σ other b ys c →
  (can_allocate (length ys) = true → Forall (λ y, is_Some (T_copy y)) ys →
     ∃ σ' b',
       VectorH.Vector_copy this other σ = Ok tt σ' ∧
       vec_at σ' this b' ys (length ys) ∧
       vec_at σ' other b ys c ∧
       apart b' b ∧
       log σ' = log σ ++ map EvCopy ys) ∧
  (ys ≠ [] → can_allocate (length ys) = false →
     VectorH.Vector_copy this other σ = Throw bad_alloc σ) ∧
  (can_allocate (length ys) = true →
   ∀ ys1 y ys2, ys = ys1 ++ y :: ys2 →
     Forall (λ y, is_Some (T_copy y)) ys1 → T_copy y = None →
     ∃ σ', VectorH.Vector_copy this other σ = Throw element_exn σ' ∧
           heap σ' = heap σ ∧ objs σ' = objs σ ∧
           log σ' = log σ ++ map EvCopy ys1 ++ map EvDestroy ys1) ∧
  (∀ σ0, Part000.Vector_copy this other σ0 = VectorH.Vector_copy this other σ0).
Proof.
  destruct σ as [h o l]. intros Hne [Hvec Hfit].
  pose proof Hvec as (Hv & Hle & Hb). simpl in Hv, Hle, Hb.
  split; [|split; [|split]].
  - intros Hc Hcopy.
    eexists _, _. split; [by eapply Vector_copy_ok|].
    pose proof (fresh_block h) as Hfresh.
    split; [|split; [|split; [|done]]].
    + split; [|by apply can_allocate_fits].
      split; [|split]; simpl; [by rewrite lookup_insert_eq|done|].
      destruct ys as [|y ys]; [done|].
      by rewrite lookup_insert_eq, Nat.sub_diag, app_nil_r.
    + split; [|done].
      split; [|split]; simpl; [by rewrite lookup_insert_ne|done|].
      destruct b as [k|]; [|done].
      destruct ys as [|y ys]; [done|].
      rewrite lookup_insert_ne; [done|]. intros <-. congruence.
    + intros k' k Hk' ->. destruct ys as [|y ys]; [done|].
      injection Hk' as <-. intros <-. congruence.
  - intros Hys Hc. eapply Vector_copy_bad_alloc; [done| | |done].
    + simpl. by destruct ys.
    + simpl. by apply fits_representable, (fits_le _ c).
  - intros Hc ys1 y ys2 -> Hcopy Hy.
    eexists. split; [by eapply Vector_copy_throw|]. done.
  - intros σ0. apply Part000_Vector_copy_eq.
Qed.

Lemma vec_repr_dtor h o l this b xs c :
  vec_repr (State h o l) this b xs c →
  VectorH.Vector_dtor this (State h o l)
  = Ok tt (State (release_block b h) (delete this o) (l ++ map EvDestroy xs)).
Proof.
  intros (Hv & Hle & Hb). simpl in *.
  eapply Vector_dtor_ok; [done|].
  destruct b as [k|]; [done|]. subst c. destruct xs; [done|simpl in Hle; lia].
Qed.

(** X7. The destructor runs the destructor of every element once, from the
    first to the last, then releases the buffer and nothing else: the
    other blocks of the heap and the other vectors are untouched. *)
Theorem Vector_dtor_spec σ this b xs c :
  vec_at σ this b xs c →
  ∃ σ', VectorH.Vector_dtor this σ = Ok tt σ' ∧
        heap σ' = release_block b (heap σ) ∧
        objs σ' = delete this (objs σ) ∧
        log σ' = log σ ++ map EvDestroy xs.
Proof.
  destruct σ as [h o l]. intros [Hvec _].
  eexists. split; [by eapply vec_repr_dtor|]. done.
Qed.

(** X8. Nothing is leaked by a vector that is built and destroyed:
    [{ Vector<T> v(count); }] and [{ Vector<T> v(other); }] leave the heap
    and the objects as they were, and every element that was constructed
    is destroyed. *)
Theorem construction_then_destruction_restores_heap `{!ElementLaws T}
    σ this other b ys c ds :
  objs σ !! this = None →
  (produces T_value EvValue (log σ) ds →
   (ds ≠ [] → can_allocate (length ds) = true) →
   ∃ σ', (exec VectorH.Vector_sized this (length ds); VectorH.Vector_dtor this) σ
         = Ok tt σ' ∧
         heap σ' = heap σ ∧ objs σ' = objs σ ∧
         log σ' = log σ ++ map EvValue ds ++ map EvDestroy ds) ∧
  (vec_at σ other b ys c → can_allocate (length ys) = true →
   Forall (λ y, is_Some (T_copy y)) ys →
   ∃ σ', (exec VectorH.Vector_copy this other; VectorH.Vector_dtor this) σ = Ok tt σ' ∧
         heap σ' = heap σ ∧ objs σ' = objs σ ∧
         log σ' = log σ ++ map EvCopy ys ++ map EvDestroy ys).
Proof.
  destruct σ as [h o l]. simpl. intros Hthis. split.
  - intros Hd Hc. destruct (decide (ds = [])) as [->|Hn].
    + eexists. split.
      * simpl length. rewrite (bind_ok _ _ _ _ _ (Vector_sized_0 _ _ _ _)).
        apply (vec_repr_dtor _ _ _ this None [] 0).
        split; [|done]. simpl. by rewrite lookup_insert_eq.
      * simpl. rewrite delete_insert_eq, delete_id by done.
        by rewrite !app_nil_r.
    + specialize (Hc Hn).
      eexists. split.
      * rewrite (bind_ok _ _ _ _ _ (Vector_sized_ok _ _ _ _ _ Hn Hc Hd)).
        apply (vec_repr_dtor _ _ _ this (Some (fresh (dom h))) ds (length ds)).
        split; [|split]; simpl.
        -- by rewrite lookup_insert_eq.
        -- done.
        -- by rewrite lookup_insert_eq, Nat.sub_diag, app_nil_r.
      * simpl. rewrite released_fresh, delete_insert_eq, delete_id by done.
        by rewrite <- app_assoc.
  - intros [Hvec Hfit] Hc Hcopy.
    pose proof Hvec as (Hv & Hle & Hb). simpl in Hv, Hle, Hb.
    eexists. split.
    + rewrite (bind_ok _ _ _ _ _ (Vector_copy_ok _ _ _ _ _ _ _ _ Hvec Hc Hcopy)).
      apply (vec_repr_dtor _ _ _ this
               (match ys with [] => None | _ => Some (fresh (dom h)) end) ys (length ys)).
      split; [|split]; simpl; [by rewrite lookup_insert_eq|done|].
      destruct ys as [|y ys]; [done|].
      by rewrite lookup_insert_eq, Nat.sub_diag, app_nil_r.
    + simpl. rewrite delete_insert_eq, delete_id by done.
      rewrite <- app_assoc. split; [|done].
      destruct ys as [|y ys]; [done|]. simpl. apply released_fresh.
Qed.

(** X9. Destroying a moved-from vector is harmless.  After
    [Vector<T> v(std::move(other));] or [v = std::move(other);] the
    destructor of [other] runs no element destructor and releases nothing:
    [v] still owns the buffer with the elements. *)
Theorem moved_from_destructor_is_harmless σ this other b ys c :
  this ≠ other → vec_at σ other b ys c →
  (∃ σ', (exec VectorH.Vector_move this other; VectorH.Vector_dtor other) σ = Ok tt σ' ∧
         vec_at σ' this b ys c ∧ objs σ' !! other = None ∧
         heap σ' = heap σ ∧ log σ' = log σ) ∧
  (is_Some (objs σ !! this) →
   ∃ σ', (exec VectorH.assign_move this other; VectorH.Vector_dtor other) σ = Ok tt σ' ∧
         vec_at σ' this b ys c ∧ objs σ' !! other = None ∧
         heap σ' = heap σ ∧ log σ' = log σ).
Proof.
  destruct σ as [h o l]. intros Hne [Hvec Hfit].
  pose proof Hvec as (Hv & Hle & Hb). simpl in Hv, Hle, Hb.
  assert (Hdtor : ∀ l',
    VectorH.Vector_dtor other
      (State h (<[this := mkVector (mkRawMemory b c) (length ys)]>
                  (<[other := mkVector (mkRawMemory None 0) 0]> o)) l')
    = Ok tt (State h (delete other
                        (<[this := mkVector (mkRawMemory b c) (length ys)]>
                           (<[other := mkVector (mkRawMemory None 0) 0]> o)))
                   l')).
  { intros l'. erewrite (vec_repr_dtor _ _ _ other None [] 0).
    - simpl. by rewrite app_nil_r.
    - split; [|done]. simpl. rewrite lookup_insert_ne by done.
      by rewrite lookup_insert_eq. }
  assert (Hres : ∀ l',
    vec_at (State h (delete other
                       (<[this := mkVector (mkRawMemory b c) (length ys)]>
                          (<[other := mkVector (mkRawMemory None 0) 0]> o))) l')
           this b ys c).
  { intros l'. split; [|done]. split; [|done]. simpl.
    rewrite lookup_delete_ne by done. by rewrite lookup_insert_eq. }
  split.
  - eexists. split.
    + rewrite (bind_ok _ _ _ _ _ (Vector_move_ok _ _ _ _ _ _ Hne Hv)). apply Hdtor.
    + split; [apply Hres|]. simpl. by rewrite lookup_delete_eq.
  - intros [v Hthis]. eexists. split.
    + rewrite (bind_ok _ _ _ _ _ (assign_move_ok _ _ _ _ _ _ _ Hne Hthis Hv)).
      apply Hdtor.
    + split; [apply Hres|]. simpl. by rewrite lookup_delete_eq.
Qed.

End lifetime.

(** ** [PopBack], [Swap] and [operator[]] *)

Section access.
Context {T : Type} `{Element T} `{Platform}.
Implicit Types (h : gmap nat (list (slot T))) (o : gmap nat Vector) (l : list (event T))
  (xs ys : list T).

Lemma PopBack_ok h o l this k xs x c :
  vec_repr (State h o l) this (Some k) (xs ++ [x]) c →
  VectorH.PopBack this (State h o l)
  = Ok tt (State (<[k := map Live xs ++ replicate (c - length xs) Uninit]> h)
                 (<[this := mkVector (mkRawMemory (Some k) c) (length xs)]> o)
                 (l ++ [EvDestroy x])).
Proof.
  intros (Hv & Hle & Hb). simpl in *. rewrite length_app in *. simpl in *.
  unfold VectorH.PopBack.
  rewrite (bind_ok _ _ _ _ _ (load_ok _ _ _ _ _ Hv)). simpl.
  erewrite bind_ok; [|apply assert_ok; apply Nat.ltb_lt; lia].
  unfold GetAddress, ptr_add; simpl.
  erewrite bind_ok; [|apply ptr_back_ok; lia].
  replace (length xs + 1 - 1) with (length xs) by lia.
  rewrite map_app, <- app_assoc in Hb. simpl in Hb.
  erewrite bind_ok; cycle 1.
  { eapply destroy_at_ok; [exact Hb|].
    rewrite <- (length_map Live xs). apply lookup_mid. }
  rewrite <- (length_map Live xs), insert_mid, length_map.
  erewrite set_size_ok by done. simpl.
  do 3 f_equal. replace (c - length xs) with (S (c - (length xs + 1))) by lia.
  done.
Qed.

Lemma PopBack_empty h o l this b c :
  vec_repr (State h o l) this b [] c → NDEBUG = false →
  VectorH.PopBack this (State h o l) = Fault AssertFailed (State h o l).
Proof.
  intros (Hv & _ & _) Hdebug. simpl in *. unfold VectorH.PopBack.
  rewrite (bind_ok _ _ _ _ _ (load_ok _ _ _ _ _ Hv)). simpl.
  unfold assert_. by rewrite Hdebug.
Qed.

(** X10. [PopBack] of a non-empty vector destroys the last element and nothing
    else; the buffer and the capacity are kept.  Of an empty vector, when
    assertions are compiled in, it does not return: the assertion fails
    and nothing has been changed. *)
Theorem PopBack_spec σ this b xs c :
  vec_at σ this b xs c →
  (∀ xs' x, xs = xs' ++ [x] →
     ∃ σ', VectorH.PopBack this σ = Ok tt σ' ∧
           vec_at σ' this b xs' c ∧
           log σ' = log σ ++ [EvDestroy x]) ∧
  (xs = [] → NDEBUG = false → VectorH.PopBack this σ = Fault AssertFailed σ).
Proof.
  destruct σ as [h o l]. intros [Hvec Hfit]. split.
  - intros xs' x ->. pose proof Hvec as (Hv & Hle & Hb).
    rewrite length_app in Hle. simpl in Hv, Hle, Hb.
    destruct b as [k|]; [|lia].
    eexists. split; [by eapply PopBack_ok|]. split; [|done].
    split; [|done].
    split; [|split]; simpl.
    + by rewrite lookup_insert_eq.
    + lia.
    + by rewrite lookup_insert_eq.
  - intros ->. by eapply PopBack_empty.
Qed.

(** X11. [PushBack] followed by [PopBack] gives back the elements the vector
    had, in a capacity that may have grown.  When there was room the whole
    state is restored, the heap included: the new element is constructed in
    the first raw slot and destroyed there. *)
Theorem PushBack_then_PopBack `{!ElementLaws T} σ this b xs c x :
  vec_at σ this b xs c →
  (length xs = c → can_allocate (grown c) = true ∧ relocates xs) →
  ∃ σ' b',
    (exec VectorH.PushBack this (Some x); VectorH.PopBack this) σ = Ok tt σ' ∧
    vec_at σ' this (Some b') xs (if decide (length xs = c) then grown c else c) ∧
    (length xs < c →
       heap σ' = heap σ ∧ objs σ' = objs σ ∧
       log σ' = log σ ++ [EvConstruct x; EvDestroy x]).
Proof.
  intros [Hvec Hfit] Hfull.
  destruct (PushBack_result σ this b xs c x Hvec Hfull)
    as (σ1 & b' & Hpush & _ & _ & _ & Hvec1 & _ & Hroom).
  destruct σ1 as [h1 o1 l1].
  pose proof (PopBack_ok _ _ _ _ _ _ _ _ Hvec1) as Hpop.
  eexists _, b'. split; [by rewrite (bind_ok _ _ _ _ _ Hpush)|].
  pose proof Hvec1 as (Hv1 & Hle1 & Hb1). rewrite length_app in Hle1.
  simpl in Hv1, Hle1, Hb1.
  split.
  - split.
    + split; [|split]; simpl.
      * by rewrite lookup_insert_eq.
      * lia.
      * by rewrite lookup_insert_eq.
    + case_decide; [|done]. apply can_allocate_fits. by apply Hfull.
  - intros Hlt. destruct (Hroom Hlt) as [-> Hlog]. simpl in Hlog.
    destruct σ as [h o l]. pose proof Hvec as (Hv & Hle & Hb).
    simpl in Hv, Hle, Hb, Hlog. rewrite decide_False in * by lia.
    rewrite (PushBack_append h o l this b' xs c x Hvec Hlt) in Hpush.
    injection Hpush as <- <- <-. simpl.
    split; [|split].
    + rewrite insert_insert_eq. by apply insert_id.
    + rewrite insert_insert_eq. by apply insert_id.
    + by rewrite <- app_assoc.
Qed.

Lemma Swap_self h o l this v :
  o !! this = Some v →
  VectorH.Swap this this (State h o l) = Ok tt (State h o l).
Proof.
  intros Hv. destruct v as [[bv cv] n]. unfold VectorH.Swap.
  rewrite !(bind_ok _ _ _ _ _ (load_ok _ _ _ _ _ Hv)). simpl.
  erewrite bind_ok; [|by apply set_data_ok]. simpl.
  erewrite bind_ok; [|by apply set_data_ok, lookup_insert_eq]. simpl.
  rewrite insert_insert_eq.
  erewrite bind_ok; [|by apply load_ok, lookup_insert_eq].
  erewrite bind_ok; [|by apply load_ok, lookup_insert_eq].
  erewrite bind_ok; [|by apply set_size_ok, lookup_insert_eq]. simpl.
  rewrite insert_insert_eq.
  erewrite set_size_ok by apply lookup_insert_eq. simpl.
  rewrite insert_insert_eq. by rewrite insert_id.
Qed.

(** X12. [Swap] exchanges the buffers, capacities and sizes of two vectors
    without touching an element or the heap, so that each vector ends with
    the other's elements; swapping twice, and swapping a vector with
    itself, gives back the state. *)
Theorem Swap_exchanges σ this other ba xs ca bb ys cb :
  vec_at σ this ba xs ca → vec_at σ other bb ys cb →
  (this ≠ other →
   ∃ σ', VectorH.Swap this other σ = Ok tt σ' ∧
         vec_at σ' this bb ys cb ∧ vec_at σ' other ba xs ca ∧
         heap σ' = heap σ ∧ log σ' = log σ ∧
         VectorH.Swap this other σ' = Ok tt σ) ∧
  VectorH.Swap this this σ = Ok tt σ.
Proof.
  destruct σ as [h o l]. intros [Ha Hfa] [Hb Hfb].
  pose proof Ha as (Hva & Hlea & Hba). pose proof Hb as (Hvb & Hleb & Hbb).
  simpl in *. split; [|by eapply Swap_self].
  intros Hne. eexists. split; [by eapply Swap_ok|].
  split; [|split; [|split; [done|split; [done|]]]].
  - split; [|done]. split; [|done]. simpl. by rewrite lookup_insert_eq.
  - split; [|done]. split; [|done]. simpl. rewrite lookup_insert_ne by done.
    by rewrite lookup_insert_eq.
  - erewrite Swap_ok; [|done|by rewrite lookup_insert_eq|
                        by rewrite lookup_insert_ne, lookup_insert_eq].
    do 2 f_equal. apply map_eq. intros j.
    destruct (decide (j = this)) as [->|Hj1].
    { by rewrite lookup_insert_eq. }
    rewrite lookup_insert_ne by done.
    destruct (decide (j = other)) as [->|Hj2].
    { by rewrite lookup_insert_eq. }
    by rewrite !lookup_insert_ne by done.
Qed.

Lemma index_ok h o l this b c n i :
  o !! this = Some (mkVector (mkRawMemory b c) n) → i < n → n ≤ c →
  VectorH.index this i (State h o l) = Ok (Ptr b i) (State h o l).
Proof.
  intros Hv Hi Hn. unfold VectorH.index.
  rewrite (bind_ok _ _ _ _ _ (load_ok _ _ _ _ _ Hv)). simpl.
  erewrite bind_ok; [|apply assert_ok; by apply Nat.ltb_lt].
  rewrite RawMemory_index_ok by (simpl; lia). done.
Qed.

(** X13. [operator[]] with an index below the size gives the address of that
    element, at which the element lives; with an index that is not below
    the size the assertion fails (when assertions are compiled in) and
    nothing has been changed. *)
Theorem index_bounds σ this b xs c i :
  vec_at σ this b xs c →
  (∀ v, xs !! i = Some v →
     ∃ k, b = Some k ∧
          VectorH.index this i σ = Ok (Ptr (Some k) i) σ ∧
          deref (Ptr (Some k) i) σ = Ok v σ) ∧
  (length xs ≤ i → NDEBUG = false → VectorH.index this i σ = Fault AssertFailed σ).
Proof.
  destruct σ as [h o l]. intros [Hvec _]. pose proof Hvec as (Hv & Hle & Hb).
  simpl in Hv, Hle, Hb. split.
  - intros v Hi. pose proof (lookup_lt_Some _ _ _ Hi) as Hlt.
    destruct b as [k|]; [|lia]. exists k. split; [done|].
    split; [by eapply index_ok|by eapply vec_repr_deref].
  - intros Hi Hdebug. unfold VectorH.index.
    rewrite (bind_ok _ _ _ _ _ (load_ok _ _ _ _ _ Hv)). simpl.
    apply bind_fault. unfold assert_. rewrite Hdebug.
    by rewrite (proj2 (Nat.ltb_ge _ _)).
Qed.

End access.

(** ** Move assignment and the old buffer *)

Section assignment.
Context {T : Type} `{Element T} `{Platform}.
Implicit Types (h : gmap nat (list (slot T))) (o : gmap nat Vector) (l : list (event T))
  (xs ys : list T).

(** X14. Move assignment does not release what the target held.
    [RawMemory::operator=(RawMemory&&)] overwrites [buffer_] without
    deallocating it, and [Vector::operator=(Vector&&)] destroys no
    element: after [a = std::move(b)] the block that was [a]'s buffer is
    still allocated and still holds [a]'s old elements as live objects,
    no destructor has run, and no vector refers to that block any more. *)
Theorem move_assignment_keeps_old_block σ this other ka xs ca bb ys cb :
  this ≠ other →
  vec_at σ this (Some ka) xs ca → vec_at σ other bb ys cb →
  (∀ loc v, objs σ !! loc = Some v → buffer_ (data_ v) = Some ka → loc = this) →
  ∃ σ', VectorH.assign_move this other σ = Ok tt σ' ∧
        vec_at σ' this bb ys cb ∧
        heap σ' !! ka = Some (map Live xs ++ replicate (ca - length xs) Uninit) ∧
        log σ' = log σ ∧
        (∀ loc v, objs σ' !! loc = Some v → buffer_ (data_ v) ≠ Some ka).
Proof.
  destruct σ as [h o l]. intros Hne [Ha Hfa] [Hb Hfb] Hown.
  pose proof Ha as (Hva & Hlea & Hba). pose proof Hb as (Hvb & Hleb & Hbb).
  simpl in *.
  eexists. split; [by eapply assign_move_ok|].
  split; [|split; [done|split; [done|]]].
  - split; [|done]. split; [|done]. simpl. by rewrite lookup_insert_eq.
  - simpl. intros loc v Hloc Hbuf.
    destruct (decide (loc = this)) as [->|Hl1].
    { rewrite lookup_insert_eq in Hloc. injection Hloc as <-. simpl in Hbuf.
      apply Hne. symmetry. by eapply Hown. }
    rewrite lookup_insert_ne in Hloc by done.
    destruct (decide (loc = other)) as [->|Hl2].
    { rewrite lookup_insert_eq in Hloc. by injection Hloc as <-. }
    rewrite lookup_insert_ne in Hloc by done.
    apply Hl1. by eapply Hown.
Qed.

End assignment.

(** ** [Resize] *)

Section resizing.
Context {T : Type} `{Element T} `{Platform}.
Implicit Types (h : gmap nat (list (slot T))) (o : gmap nat Vector) (l : list (event T))
  (xs ys : list T).

Lemma Part000_Resize_eq h o l this v n :
  o !! this = Some v → n ≠ capacity_ (data_ v) →
  Part000.Resize this n (State h o l) = VectorH.Resize this n (State h o l).
Proof.
  intros Hv Hn. unfold Part000.Resize, VectorH.Resize.
  rewrite !(bind_ok _ _ _ _ _ (load_ok _ _ _ _ _ Hv)).
  unfold RawMemory_Capacity.
  destruct (n <? capacity_ (data_ v)) eqn:Hlt.
  - destruct (n <? size_ v) eqn:Hs; [done|].
    destruct (size_ v <? n) eqn:Hs'; [done|].
    apply Nat.ltb_ge in Hs, Hs'.
    unfold bind at 1. simpl. erewrite set_size_ok by done.
    replace n with (size_ v) by lia.
    rewrite insert_id; [done|]. by destruct v.
  - destruct (capacity_ (data_ v) <? n) eqn:Hgt.
    + unfold bind. rewrite Part000_Reserve_eq.
      destruct (VectorH.Reserve this n (State h o l)) as [[] σ1| |]; [|done..].
      destruct (load this σ1) as [v' σ2| |]; [|done..].
      done.
    + apply Nat.ltb_ge in Hlt, Hgt. lia.
Qed.

Lemma Resize_same h o l this b xs c :
  vec_repr (State h o l) this b xs c → length xs < c →
  VectorH.Resize this (length xs) (State h o l) = Ok tt (State h o l).
Proof.
  intros (Hv & Hle & Hb) Hlt. simpl in *. unfold VectorH.Resize.
  rewrite (bind_ok _ _ _ _ _ (load_ok _ _ _ _ _ Hv)).
  unfold RawMemory_Capacity. simpl.
  rewrite (proj2 (Nat.ltb_lt _ _)) by done.
  rewrite Nat.ltb_irrefl. unfold bind at 1. simpl.
  erewrite set_size_ok by done. simpl. by rewrite insert_id.
Qed.

Lemma Resize_beyond `{!ElementLaws T} h o l this b xs c n ds :
  vec_repr (State h o l) this b xs c → c < n →
  can_allocate n = true → relocates xs →
  length ds = n - length xs →
  produces T_default EvDefault
    (l ++ relocate_events xs ++ map EvDestroy (relocate_left xs)) ds →
  VectorH.Resize this n (State h o l)
  = Ok tt (State
      (release_block b (<[fresh (dom h) := map Live (xs ++ ds)]> h))
      (<[this := mkVector (mkRawMemory (Some (fresh (dom h))) n) n]> o)
      (l ++ relocate_events xs ++ map EvDestroy (relocate_left xs)
         ++ map EvDefault ds)).
Proof.
  intros Hvec Hn Hc Hr Hds Hd. pose proof Hvec as (Hv & Hle & Hb). simpl in *.
  unfold VectorH.Resize.
  rewrite (bind_ok _ _ _ _ _ (load_ok _ _ _ _ _ Hv)).
  unfold RawMemory_Capacity. simpl.
  rewrite (proj2 (Nat.ltb_ge _ _)) by lia.
  rewrite (proj2 (Nat.ltb_lt _ _)) by done.
  pose proof (fresh_block h) as Hfresh. set (new := fresh (dom h)) in *.
  assert (Hbn : ∀ k, b = Some k → k ≠ new).
  { intros k -> ->. congruence. }
  erewrite bind_ok; cycle 1.
  { erewrite bind_ok; [|by eapply Reserve_grows].
    erewrite bind_ok; [|by apply load_ok, lookup_insert_eq].
    unfold GetAddress, ptr_add; simpl.
    replace (Ptr (Some (fresh (dom h))) (length xs))
      with (Ptr (Some new) (length (map Live xs))) by (by rewrite length_map).
    rewrite <- Hds.
    eapply (uninitialized_default_construct_n_ok _ _ _ new ds
              (map Live xs) (replicate (length ds) Uninit) []);
      [exact Hd| |by rewrite length_replicate].
    rewrite app_nil_r, Hds. destruct b as [k|]; simpl.
    - rewrite lookup_delete_ne by (by apply Hbn).
      by rewrite lookup_insert_eq.
    - by rewrite lookup_insert_eq. }
  erewrite set_size_ok by apply lookup_insert_eq. simpl.
  rewrite insert_insert_eq, app_nil_r, map_app.
  f_equal. f_equal; [|by rewrite <- !app_assoc].
  destruct b as [k|]; simpl.
  - rewrite insert_delete_ne by (apply not_eq_sym; by apply Hbn).
    by rewrite insert_insert_eq.
  - by rewrite insert_insert_eq.
Qed.

(** X15. [Resize(n)] for [n] other than the capacity.  The vector ends with
    its first [n] elements, followed, if [n] is above its size, by the
    elements [ds] that [n - size] successive default-initialisations
    produce.  Below the capacity the buffer is kept: shrinking destroys the
    elements from offset [n] on, growing default-initialises [n - size]
    elements in the raw slots.  Above the capacity, when a buffer of [n]
    elements can be had ([n * sizeof(T)] is at most [PTRDIFF_MAX] and the
    free store has the block), the elements are first relocated into a
    buffer of exactly [n] slots, as [Reserve] does, and the new elements
    are initialised after that.  Both revisions compute the same. *)
Theorem Resize_spec `{!ElementLaws T} σ this b xs c n ds :
  vec_at σ this b xs c → n ≠ c →
  length ds = n - length xs →
  produces T_default EvDefault
    (log σ ++ (if decide (c < n)
               then relocate_events xs ++ map EvDestroy (relocate_left xs)
               else [])) ds →
  (c < n → can_allocate n = true ∧ relocates xs) →
  ∃ σ' b',
    VectorH.Resize this n σ = Ok tt σ' ∧
    Part000.Resize this n σ = Ok tt σ' ∧
    vec_at σ' this b' (take n xs ++ ds) (c `max` n) ∧
    (n < c → b' = b) ∧
    log σ' = log σ
             ++ (if decide (c < n)
                 then relocate_events xs ++ map EvDestroy (relocate_left xs)
                 else [])
             ++ map EvDestroy (drop n xs)
             ++ map EvDefault ds.
Proof.
  destruct σ as [h o l]. intros [Hvec Hfit] Hn Hds Hd Hgrow.
  pose proof Hvec as (Hv & Hle & Hb). simpl in Hv, Hle, Hb, Hd.
  assert (Heq : Part000.Resize this n (State h o l)
                = VectorH.Resize this n (State h o l)).
  { eapply Part000_Resize_eq; [done|]. simpl. done. }
  rewrite Heq.
  destruct (decide (c < n)) as [Hcn|Hcn].
  - destruct (Hgrow Hcn) as [Hc Hr].
    eexists _, (Some (fresh (dom h))).
    split; [by eapply Resize_beyond|]. split; [by eapply Resize_beyond|].
    rewrite firstn_all2, drop_ge by lia.
    replace (c `max` n) with n by lia.
    split; [|split; [lia|]].
    + split; [|by apply can_allocate_fits].
      split; [|split]; simpl.
      * rewrite lookup_insert_eq, length_app, Hds.
        do 3 f_equal. lia.
      * rewrite length_app, Hds. lia.
      * rewrite length_app, Hds.
        replace (n - (length xs + (n - length xs))) with 0 by lia.
        simpl. rewrite app_nil_r.
        destruct b as [k|]; simpl.
        -- rewrite lookup_delete_ne; [by rewrite lookup_insert_eq|].
           intros Hk. pose proof (fresh_block h) as Hf. rewrite <- Hk in Hf.
           congruence.
        -- by rewrite lookup_insert_eq.
    + simpl. by rewrite <- !app_assoc.
  - assert (Hlt : n < c) by lia. replace (c `max` n) with c by lia.
    rewrite app_nil_r in Hd.
    destruct b as [k|]; [|simpl in Hb; lia].
    destruct (lt_eq_lt_dec n (length xs)) as [[Hs| ->]|Hs].
    + eexists _, (Some k).
      split; [by eapply Resize_shrinks|]. split; [by eapply Resize_shrinks|].
      destruct ds; [|simpl in Hds; lia]. simpl. rewrite !app_nil_r.
      split; [|done].
      split; [|done].
      split; [|split]; simpl.
      * rewrite lookup_insert_eq, length_take. do 3 f_equal. lia.
      * rewrite length_take. lia.
      * rewrite lookup_insert_eq, length_take. do 3 f_equal. lia.
    + exists (State h o l), (Some k).
      split; [by eapply Resize_same|]. split; [by eapply Resize_same|].
      destruct ds; [|simpl in Hds; lia].
      rewrite firstn_all, drop_all. simpl. rewrite !app_nil_r.
      done.
    + eexists _, (Some k).
      split; [by eapply Resize_grows_within|].
      split; [by eapply Resize_grows_within|].
      rewrite firstn_all2, drop_ge by lia. simpl.
      split; [|done].
      split; [|done].
      split; [|split]; simpl.
      * rewrite lookup_insert_eq, length_app, Hds.
        do 3 f_equal. lia.
      * rewrite length_app, Hds. lia.
      * rewrite lookup_insert_eq, length_app, Hds.
        do 3 f_equal. lia.
Qed.

End resizing.

(** ** Insertion without reallocation *)

Section in_place.
Context {T : Type} `{Element T} `{Platform}.
Implicit Types (h : gmap nat (list (slot T))) (o : gmap nat Vector) (l : list (event T))
  (xs ys : list T).

Lemma Part000_Emplace_mid `{!ElementLaws T} h o l this k pre mid last c x :
  (∀ v, is_Some (T_move v)) → (∀ d s, is_Some (T_move_assign d s)) →
  vec_repr (State h o l) this (Some k) (pre ++ mid ++ [last]) c →
  length (pre ++ mid ++ [last]) < c →
  Part000.Emplace this (Ptr (Some k) (length pre)) (Some x) (State h o l)
  = Ok (Ptr (Some k) (length pre)) (State
      (<[k := map Live (pre ++ x :: mid ++ [last])
              ++ replicate (c - S (length (pre ++ mid ++ [last]))) Uninit]> h)
      (<[this := mkVector (mkRawMemory (Some k) c)
                          (S (length (pre ++ mid ++ [last])))]> o)
      (l ++ insert_events x (mid ++ [last]))).
Proof.
  intros Hmv Hma (Hv & _ & Hb) Hc. simpl in *.
  assert (Hma' : ∀ d s, T_move_assign d s = Some (s, assigned_out d s))
    by (intros; by apply move_assign_some).
  set (n := length (pre ++ mid ++ [last])) in *.
  assert (Hn : n = S (length pre + length mid)).
  { unfold n. rewrite !length_app. simpl. lia. }
  destruct (c - n) as [|rest] eqn:Hrest; [lia|].
  assert (Hbuf : map Live (pre ++ mid ++ [last]) ++ replicate (S rest) Uninit
    = (map Live pre ++ map Live mid) ++ Live last :: Uninit :: replicate rest Uninit).
  { rewrite !map_app. simpl. by rewrite <- !app_assoc. }
  rewrite Hbuf in Hb.
  assert (Hpm : length (map Live pre ++ map Live mid) = length pre + length mid)
    by (by rewrite length_app, !length_map).
  unfold Part000.Emplace.
  rewrite (bind_ok _ _ _ _ _ (load_ok _ _ _ _ _ Hv)).
  unfold VectorH.begin, GetAddress; simpl.
  rewrite (bind_ok _ _ _ _ _ (distance_ok _ _ _)).
  unfold RawMemory_Capacity; simpl. rewrite decide_False by lia.
  erewrite bind_ok; cycle 1.
  { unfold try_catch, VectorH.end_.
    erewrite bind_ok; [|apply RawMemory_plus_ok; simpl; lia].
    simpl. rewrite decide_True by (intros [=]; lia).
    unfold bind at 1, emit at 1; simpl.
    erewrite bind_ok; cycle 1.
    { eapply unwind_ok.
      erewrite bind_ok; [|apply RawMemory_plus_ok; simpl; lia].
      erewrite bind_ok; [|apply RawMemory_index_ok; simpl; lia].
      simpl.
      erewrite bind_ok; cycle 1.
      { eapply move_construct_at_same; [exact Hb| | |by apply move_some].
        - replace (n - 1) with (length (map Live pre ++ map Live mid)) by lia.
          apply lookup_mid.
        - replace n with (S (length (map Live pre ++ map Live mid))) by lia.
          apply lookup_mid2. }
      replace (n - 1) with (length (map Live pre ++ map Live mid)) by lia.
      rewrite insert_mid.
      replace n with (S (length (map Live pre ++ map Live mid))) at 1 by lia.
      rewrite insert_mid2.
      erewrite bind_ok; [|apply RawMemory_plus_ok; simpl; lia].
      simpl.
      erewrite bind_ok; [|apply ptr_back_ok; lia].
      erewrite bind_ok; cycle 1.
      { unfold move_backward, ptr_diff; simpl.
        rewrite decide_True by lia.
        replace (n - 1 - length pre) with (length mid) by lia.
        replace (n - 1) with (length (map Live pre) + length mid)
          by (rewrite length_map; lia).
        replace n with (S (length (map Live pre) + length mid)) at 1
          by (rewrite length_map; lia).
        eapply (move_backward_loop_ok _ k (map Live pre) Hma' mid (moved_out last)
                  (Live last :: replicate rest Uninit)); [|done].
        rewrite lookup_insert_eq. by rewrite <- app_assoc. }
      erewrite bind_ok; [|apply RawMemory_plus_ok; simpl; lia].
      unfold ptr_add; simpl.
      erewrite bind_ok; cycle 1.
      { eapply deref_ok; [by rewrite lookup_insert_eq|].
        rewrite <- (length_map Live pre). apply lookup_mid. }
      rewrite Hma'.
      unfold bind at 1, emit at 1; simpl.
      erewrite bind_ok; cycle 1.
      { eapply update_ok; [by rewrite lookup_insert_eq|].
        rewrite <- (length_map Live pre). apply lookup_mid. }
      erewrite bind_ok; [|by apply set_size_ok].
      done. }
    done. }
  unfold emit; simpl.
  erewrite bind_ok; [|by apply load_ok, lookup_insert_eq].
  unfold ret, ptr_add; simpl.
  rewrite <- (length_map Live pre) at 2. rewrite insert_mid.
  rewrite !insert_insert_eq.
  f_equal. f_equal.
  - f_equal. replace (c - S n) with rest by lia.
    by list_norm.
  - by rewrite Nat.add_1_r.
  - unfold insert_events. rewrite rev_app_distr. simpl.
    by rewrite <- !app_assoc.
Qed.

Lemma Part000_Emplace_append h o l this k xs c x :
  vec_repr (State h o l) this (Some k) xs c → length xs < c →
  Part000.Emplace this (Ptr (Some k) (length xs)) (Some x) (State h o l)
  = Ok (Ptr (Some k) (length xs)) (State
      (<[k := map Live (xs ++ [x]) ++ replicate (c - S (length xs)) Uninit]> h)
      (<[this := mkVector (mkRawMemory (Some k) c) (S (length xs))]> o)
      (l ++ [EvConstruct x])).
Proof.
  intros Hvec Hc. pose proof Hvec as (Hv & _ & Hb). simpl in *.
  unfold Part000.Emplace.
  rewrite (bind_ok _ _ _ _ _ (load_ok _ _ _ _ _ Hv)).
  unfold VectorH.begin, GetAddress; simpl.
  rewrite (bind_ok _ _ _ _ _ (distance_ok _ _ _)).
  unfold RawMemory_Capacity; simpl. rewrite decide_False by lia.
  assert (Hrest : replicate (c - length xs) (@Uninit T)
                  = Uninit :: replicate (c - S (length xs)) Uninit).
  { replace (c - length xs) with (S (c - S (length xs))) by lia. done. }
  rewrite Hrest in Hb.
  erewrite bind_ok; cycle 1.
  { unfold try_catch, VectorH.end_.
    erewrite bind_ok; [|apply RawMemory_plus_ok; simpl; lia].
    simpl. rewrite decide_False by (intros Hne; by apply Hne).
    erewrite bind_ok; [|apply RawMemory_plus_ok; simpl; lia].
    simpl.
    erewrite bind_ok; cycle 1.
    { eapply construct_at_ok; [exact Hb|].
      rewrite <- (length_map Live xs). apply lookup_mid. }
    erewrite set_size_ok by done. done. }
  erewrite bind_ok; [|by apply load_ok, lookup_insert_eq].
  unfold ret, ptr_add; simpl.
  rewrite <- (length_map Live xs) at 2. rewrite insert_mid.
  rewrite Nat.add_1_r. list_norm. done.
Qed.

Lemma Part000_Emplace_in_place `{!ElementLaws T} h o l this k xs c p x :
  (∀ v, is_Some (T_move v)) → (∀ d s, is_Some (T_move_assign d s)) →
  vec_repr (State h o l) this (Some k) xs c → length xs < c → p ≤ length xs →
  Part000.Emplace this (Ptr (Some k) p) (Some x) (State h o l)
  = Ok (Ptr (Some k) p) (State
      (<[k := map Live (take p xs ++ x :: drop p xs)
              ++ replicate (c - S (length xs)) Uninit]> h)
      (<[this := mkVector (mkRawMemory (Some k) c) (S (length xs))]> o)
      (l ++ insert_events x (drop p xs))).
Proof.
  intros Hmv Hma Hvec Hc Hp.
  destruct (decide (p = length xs)) as [->|Hne].
  - rewrite firstn_all, drop_all. by apply Part000_Emplace_append.
  - assert (Hd : drop p xs ≠ []).
    { intros Hd. apply (f_equal length) in Hd. rewrite length_drop in Hd.
      simpl in Hd. lia. }
    destruct (exists_last Hd) as (mid & last & Hml).
    pose proof (take_drop p xs) as Hxs. rewrite Hml in Hxs.
    assert (Hlen : length (take p xs) = p) by (rewrite length_take; lia).
    rewrite Hml. set (pre := take p xs) in *. clearbody pre. subst xs p.
    by apply Part000_Emplace_mid.
Qed.

Lemma shift_events_length d xs : length (shift_events d xs) = length xs.
Proof. revert d. induction xs as [|x xs IH]; intros d; simpl; [done|]. by rewrite IH. Qed.

Lemma insert_events_length x (suf : list T) :
  length (insert_events x suf) = if decide (suf = []) then 1 else length suf + 3.
Proof.
  unfold insert_events. destruct (rev suf) as [|last before] eqn:Hrev.
  - apply (f_equal (@rev T)) in Hrev. rewrite rev_involutive in Hrev. subst suf.
    done.
  - assert (Hlen : length suf = S (length before)).
    { rewrite <- length_rev, Hrev. done. }
    rewrite decide_False by (intros ->; done).
    simpl. rewrite length_app, shift_events_length. simpl. lia.
Qed.

(** X16. An insertion at offset [p] into a vector with room keeps the buffer
    and the capacity, so that addresses of the elements before [p] stay
    valid; the vector ends with the new element at offset [p], where the
    returned iterator points, and the old elements around it in their
    order; no other block of the heap is touched.  The operations on
    elements are those of [insert_events]: for an insertion in front of
    [m > 0] elements the construction of a temporary, one move
    construction, [m] move assignments and the destruction of the
    temporary, [m + 3] in all; for an insertion at the end the one
    construction in place.  Both revisions compute the same. *)
Theorem Insert_with_room_keeps_buffer `{!ElementLaws T} σ this k xs c p x :
  (∀ v, is_Some (T_move v)) → (∀ d s, is_Some (T_move_assign d s)) →
  vec_at σ this (Some k) xs c → length xs < c → p ≤ length xs →
  ∃ σ',
    VectorH.Insert this (Ptr (Some k) p) (Some x) σ = Ok (Ptr (Some k) p) σ' ∧
    Part000.Insert this (Ptr (Some k) p) (Some x) σ = Ok (Ptr (Some k) p) σ' ∧
    vec_at σ' this (Some k) (take p xs ++ x :: drop p xs) c ∧
    deref (Ptr (Some k) p) σ' = Ok x σ' ∧
    (∀ j, j ≠ k → heap σ' !! j = heap σ !! j) ∧
    log σ' = log σ ++ insert_events x (drop p xs) ∧
    length (insert_events x (drop p xs))
    = (if decide (p = length xs) then 1 else length xs - p + 3).
Proof.
  destruct σ as [h o l]. intros Hmv Hma [Hvec Hfit] Hc Hp.
  pose proof Hvec as (Hv & Hle & Hb). simpl in Hv, Hle, Hb.
  assert (Hlen : length (take p xs ++ x :: drop p xs) = S (length xs)).
  { rewrite length_app, length_take. simpl. rewrite length_drop. lia. }
  assert (Hvec' : vec_repr
    (State (<[k := map Live (take p xs ++ x :: drop p xs)
                    ++ replicate (c - S (length xs)) Uninit]> h)
           (<[this := mkVector (mkRawMemory (Some k) c) (S (length xs))]> o)
           (l ++ insert_events x (drop p xs)))
    this (Some k) (take p xs ++ x :: drop p xs) c).
  { split; [|split]; simpl.
    - by rewrite lookup_insert_eq, Hlen.
    - lia.
    - by rewrite lookup_insert_eq, Hlen. }
  eexists. split; [by eapply Emplace_in_place|].
  split; [by eapply Part000_Emplace_in_place|].
  split; [by split|]. split; [|split; [|split; [done|]]].
  - eapply vec_repr_deref; [exact Hvec'|].
    rewrite lookup_app_r by (rewrite length_take; lia).
    rewrite length_take. replace (p - p `min` length xs) with 0 by lia. done.
  - intros j Hj. simpl. by rewrite lookup_insert_ne.
  - rewrite insert_events_length.
    destruct (decide (p = length xs)) as [->|Hne].
    + by rewrite drop_all, decide_True.
    + rewrite decide_False.
      * rewrite length_drop. done.
      * intros Hd. apply (f_equal length) in Hd. rewrite length_drop in Hd.
        simpl in Hd. lia.
Qed.

End in_place.

(** ** Removal at and beyond the end *)

Section removal.
Context {T : Type} `{Element T} `{Platform}.
Implicit Types (h : gmap nat (list (slot T))) (o : gmap nat Vector) (l : list (event T))
  (xs ys : list T).

Lemma Part000_Erase_eq h o l this b xs c p :
  vec_repr (State h o l) this b xs c → p < length xs →
  Part000.Erase this (Ptr b p) (State h o l)
  = VectorH.Erase this (Ptr b p) (State h o l).
Proof.
  intros (Hv & Hle & Hb) Hp. simpl in *.
  assert (Hplus : ∀ σ : state T, RawMemory_plus (mkRawMemory b c) (length xs) σ
                       = Ok (Ptr b (length xs)) σ).
  { intros σ. by apply RawMemory_plus_ok. }
  assert (H1 : (p <? length xs) && (0 <=? p) = true).
  { apply andb_true_iff. split; [by apply Nat.ltb_lt|done]. }
  assert (H2 : (0 <? length xs)
               && negb (bool_decide (Ptr b p = Ptr b (length xs))) = true).
  { apply andb_true_iff. split; [apply Nat.ltb_lt; lia|].
    apply negb_true_iff, bool_decide_eq_false. intros [=]. lia. }
  unfold Part000.Erase, VectorH.Erase.
  rewrite !(bind_ok _ _ _ _ _ (load_ok _ _ _ _ _ Hv)).
  unfold VectorH.end_, VectorH.begin, GetAddress. simpl.
  rewrite !(bind_ok _ _ _ _ _ (Hplus _)). simpl.
  rewrite (bind_ok _ _ _ _ _ (assert_ok _ _ H1)).
  rewrite (bind_ok _ _ _ _ _ (assert_ok _ _ H2)).
  rewrite !(bind_ok _ _ _ _ _ (distance_ok _ _ _)).
  rewrite !decide_False by lia. done.
Qed.

(** X17. [Erase] of the earlier revision, whose assertion and whose branch for
    [position == size_] differ from vector.h, removes the element at a
    valid offset in the same way: the result and the final state are those
    of [Erase] of vector.h, the vector ends with the other elements in
    their order and the capacity and the buffer are kept. *)
Theorem Part000_Erase_removes `{!ElementLaws T} σ this k xs c p d :
  (∀ d s, is_Some (T_move_assign d s)) →
  vec_at σ this (Some k) xs c → xs !! p = Some d →
  ∃ σ',
    Part000.Erase this (Ptr (Some k) p) σ = Ok (Ptr (Some k) p) σ' ∧
    VectorH.Erase this (Ptr (Some k) p) σ = Ok (Ptr (Some k) p) σ' ∧
    vec_at σ' this (Some k) (take p xs ++ drop (S p) xs) c ∧
    log σ' = log σ ++ shift_events d (drop (S p) xs)
                   ++ [EvDestroy (shift_rest d (drop (S p) xs))].
Proof.
  intros Hma [Hvec Hfit] Hd.
  destruct (Erase_removes σ this k xs c p d Hma Hvec Hd) as (σ' & Hrun & Hres & Hlog).
  exists σ'. destruct σ as [h o l].
  rewrite (Part000_Erase_eq h o l this (Some k) xs c p Hvec)
    by (by eapply lookup_lt_Some).
  split; [done|]. split; [done|]. split; [by split|done].
Qed.

(** X18. [Erase] checks its position.  With assertions compiled in, [Erase] of
    vector.h stops at the assertion for every position at or beyond
    [end()], and [Erase] of the earlier revision stops there for [end()];
    an empty vector has no other position.  Nothing has been changed. *)
Theorem Erase_at_end_fails σ this b xs c p :
  NDEBUG = false → vec_at σ this b xs c →
  (length xs ≤ p → VectorH.Erase this (Ptr b p) σ = Fault AssertFailed σ) ∧
  Part000.Erase this (Ptr b (length xs)) σ = Fault AssertFailed σ.
Proof.
  destruct σ as [h o l]. intros Hdebug [(Hv & Hle & Hb) _]. simpl in *.
  assert (Hplus : ∀ σ : state T, RawMemory_plus (mkRawMemory b c) (length xs) σ
                       = Ok (Ptr b (length xs)) σ).
  { intros σ. by apply RawMemory_plus_ok. }
  split.
  - intros Hp. unfold VectorH.Erase.
    rewrite (bind_ok _ _ _ _ _ (load_ok _ _ _ _ _ Hv)).
    unfold VectorH.end_. simpl. rewrite (bind_ok _ _ _ _ _ (Hplus _)).
    apply bind_fault. unfold assert_. rewrite Hdebug. simpl.
    by rewrite (proj2 (Nat.ltb_ge _ _)).
  - unfold Part000.Erase.
    rewrite (bind_ok _ _ _ _ _ (load_ok _ _ _ _ _ Hv)).
    unfold VectorH.end_. simpl. rewrite (bind_ok _ _ _ _ _ (Hplus _)).
    apply bind_fault. unfold assert_. rewrite Hdebug.
    rewrite bool_decide_eq_true_2 by done. simpl.
    by rewrite andb_false_r.
Qed.

(** X19. Without assertions, [Erase(end())] of vector.h on a non-empty vector
    takes the branch for [position == size_]: it destroys the last
    element and decrements the size, as [PopBack] does, and returns an
    iterator one past the new [end()]. *)
Theorem Erase_at_end_without_assertions σ this k xs x c :
  NDEBUG = true → vec_at σ this (Some k) (xs ++ [x]) c →
  ∃ σ', VectorH.Erase this (Ptr (Some k) (S (length xs))) σ
        = Ok (Ptr (Some k) (S (length xs))) σ' ∧
        vec_at σ' this (Some k) xs c ∧
        log σ' = log σ ++ [EvDestroy x].
Proof.
  destruct σ as [h o l]. intros Hdebug [(Hv & Hle & Hb) Hfit].
  rewrite length_app in *. simpl in *.
  assert (Hassert : ∀ b (σ : state T), assert_ b σ = Ok tt σ).
  { intros b σ. unfold assert_. by rewrite Hdebug. }
  assert (Hplus : ∀ m n (σ : state T), RawMemory_plus m n σ = Ok (ptr_add (GetAddress m) n) σ).
  { intros m n σ. unfold RawMemory_plus. by rewrite (bind_ok _ _ _ _ _ (Hassert _ _)). }
  rewrite map_app, <- app_assoc in Hb. simpl in Hb.
  eexists. split; [|split].
  - unfold VectorH.Erase.
    rewrite (bind_ok _ _ _ _ _ (load_ok _ _ _ _ _ Hv)).
    unfold VectorH.end_, VectorH.begin. simpl.
    rewrite (bind_ok _ _ _ _ _ (Hplus _ _ _)).
    rewrite (bind_ok _ _ _ _ _ (Hassert _ _)).
    unfold GetAddress, ptr_add. simpl.
    rewrite (bind_ok _ _ _ _ _ (distance_ok _ _ _)).
    rewrite decide_True by lia.
    erewrite bind_ok; cycle 1.
    { rewrite (bind_ok _ _ _ _ _ (Hplus _ _ _)).
      unfold GetAddress, ptr_add. simpl.
      erewrite bind_ok; [|apply ptr_back_ok; lia].
      replace (length xs + 1 - 1) with (length (map Live xs))
        by (rewrite length_map; lia).
      erewrite bind_ok; cycle 1.
      { eapply destroy_at_ok; [exact Hb|]. apply lookup_mid. }
      rewrite insert_mid. by apply set_size_ok. }
    erewrite bind_ok; [|by apply load_ok, lookup_insert_eq].
    simpl. unfold ret, ptr_add. simpl. done.
  - split; [|done]. split; [|split]; simpl.
    + by rewrite lookup_insert_eq, length_map.
    + lia.
    + rewrite lookup_insert_eq. do 2 f_equal.
      replace (c - length xs) with (S (c - (length xs + 1))) by lia. done.
  - done.
Qed.

End removal.

(** ** The class invariant in the earlier revision *)


Section invariant_of_earlier_members.
Context {T : Type} `{Element T} `{Platform}.
Implicit Types (o : gmap nat Vector).











End invariant_of_earlier_members.

(** ** A copy that throws while the buffer grows *)

Section growth_failure.
Context {T : Type} `{Element T} `{Platform}.
Implicit Types (h : gmap nat (list (slot T))) (o : gmap nat Vector) (l : list (event T))
  (xs ys : list T).

Lemma insert_replicate_split {A} (u v : A) p c :
  p < c → <[p := v]> (replicate c u) = replicate p u ++ v :: replicate (c - S p) u.
Proof.
  intros Hp. replace c with (p + S (c - S p)) at 1 by lia.
  rewrite replicate_add. simpl.
  rewrite insert_app_r_alt by (rewrite length_replicate; lia).
  by rewrite length_replicate, Nat.sub_diag.
Qed.

Lemma fill_throws_in_prefix `{!ElementLaws T} h o l k new xs1 y t r x c2 :
  k ≠ new → relocate_by_move = false →
  Forall (λ v, is_Some (T_copy v)) xs1 → T_copy y = None →
  h !! k = Some (map Live (xs1 ++ y :: t ++ r)) →
  h !! new = Some (replicate c2 Uninit) →
  length (xs1 ++ y :: t ++ r) < c2 →
  ∃ buf,
    (do slot ← RawMemory_plus (mkRawMemory (Some new) c2) (length (xs1 ++ y :: t));
     exec construct_at slot (Some x);
     exec VectorH.CopyOrMove (GetAddress (mkRawMemory (Some k) (length (xs1 ++ y :: t ++ r))))
                             (GetAddress (mkRawMemory (Some new) c2))
                             (length (xs1 ++ y :: t));
     do from ← RawMemory_plus (mkRawMemory (Some k) (length (xs1 ++ y :: t ++ r)))
                              (length (xs1 ++ y :: t));
     do to ← RawMemory_plus (mkRawMemory (Some new) c2) (length (xs1 ++ y :: t));
     if decide (length (xs1 ++ y :: t) ≤ length (xs1 ++ y :: t ++ r))
     then VectorH.CopyOrMove from (ptr_add to 1)
            (length (xs1 ++ y :: t ++ r) - length (xs1 ++ y :: t))
     else fail SizeWrap) (State h o l)
    = Throw element_exn
        (State (<[new := buf]> h) o
               (l ++ EvConstruct x :: map EvCopy xs1 ++ map EvDestroy xs1)).
Proof.
  intros Hkn Hpol Hcopy Hy Hk Hnew Hc2.
  set (p := length (xs1 ++ y :: t)).
  assert (Hp : p < c2).
  { unfold p. rewrite !length_app in *. simpl in *. rewrite length_app in Hc2. lia. }
  eexists.
  erewrite bind_ok; [|apply RawMemory_plus_ok; simpl; lia].
  erewrite bind_ok; cycle 1.
  { eapply construct_at_ok; [exact Hnew|]. by apply lookup_replicate_2. }
  rewrite insert_replicate_split by done.
  apply bind_throw. unfold VectorH.CopyOrMove. rewrite Hpol.
  unfold GetAddress. simpl.
  replace (l ++ EvConstruct x :: map EvCopy xs1 ++ map EvDestroy xs1)
    with ((l ++ [EvConstruct x]) ++ map EvCopy xs1 ++ map EvDestroy xs1)
    by (by rewrite <- app_assoc).
  unfold p.
  apply (uninitialized_copy_n_throw _ o _ k new xs1 y t [] (map Live r)
           [] (Live x :: replicate (c2 - S p) Uninit)); [done| |done| |].
  - eapply Forall_impl; [exact Hcopy|]. intros v. apply copy_some.
  - rewrite lookup_insert_ne by done. rewrite Hk. simpl.
    f_equal. rewrite <- map_app, <- app_assoc. done.
  - rewrite lookup_insert_eq. done.
Qed.

Lemma fill_throws_in_suffix `{!ElementLaws T} h o l k new pre suf y xs2 x c2 :
  k ≠ new → relocate_by_move = false →
  Forall (λ v, is_Some (T_copy v)) (pre ++ suf) → T_copy y = None →
  h !! k = Some (map Live (pre ++ suf ++ y :: xs2)) →
  h !! new = Some (replicate c2 Uninit) →
  length (pre ++ suf ++ y :: xs2) < c2 →
  ∃ buf,
    (do slot ← RawMemory_plus (mkRawMemory (Some new) c2) (length pre);
     exec construct_at slot (Some x);
     exec VectorH.CopyOrMove (GetAddress (mkRawMemory (Some k) (length (pre ++ suf ++ y :: xs2))))
                             (GetAddress (mkRawMemory (Some new) c2))
                             (length pre);
     do from ← RawMemory_plus (mkRawMemory (Some k) (length (pre ++ suf ++ y :: xs2)))
                              (length pre);
     do to ← RawMemory_plus (mkRawMemory (Some new) c2) (length pre);
     if decide (length pre ≤ length (pre ++ suf ++ y :: xs2))
     then VectorH.CopyOrMove from (ptr_add to 1)
            (length (pre ++ suf ++ y :: xs2) - length pre)
     else fail SizeWrap) (State h o l)
    = Throw element_exn
        (State (<[new := buf]> h) o
               (l ++ EvConstruct x :: map EvCopy (pre ++ suf) ++ map EvDestroy suf)).
Proof.
  intros Hkn Hpol Hcopy Hy Hk Hnew Hc2.
  apply Forall_app in Hcopy as [Hpre Hsuf].
  set (n := length (pre ++ suf ++ y :: xs2)) in *.
  assert (Hn : n = length pre + length (suf ++ y :: xs2)).
  { unfold n. by rewrite length_app. }
  eexists.
  erewrite bind_ok; [|apply RawMemory_plus_ok; simpl; lia].
  erewrite bind_ok; cycle 1.
  { eapply construct_at_ok; [exact Hnew|]. apply lookup_replicate_2. lia. }
  rewrite insert_replicate_split by lia.
  unfold VectorH.CopyOrMove. rewrite Hpol. unfold GetAddress. simpl.
  erewrite bind_ok; cycle 1.
  { apply (uninitialized_copy_n_ok _ o _ k new pre [] (map Live (suf ++ y :: xs2))
             [] (replicate (length pre) Uninit)
             (Live x :: replicate (c2 - S (length pre)) Uninit)); [done| | | |].
    - eapply Forall_impl; [exact Hpre|]. intros v. apply copy_some.
    - rewrite lookup_insert_ne by done. rewrite Hk. simpl.
      by rewrite map_app.
    - by rewrite lookup_insert_eq.
    - by rewrite length_replicate. }
  rewrite insert_insert_eq. simpl.
  erewrite bind_ok; [|apply RawMemory_plus_ok; simpl; lia].
  erewrite bind_ok; [|apply RawMemory_plus_ok; simpl; lia].
  rewrite decide_True by lia. unfold ptr_add. simpl.
  replace (n - length pre) with (length (suf ++ y :: xs2)) by lia.
  replace (Ptr (Some k) (length pre)) with (Ptr (Some k) (length (map Live pre)))
    by (by rewrite length_map).
  replace (Ptr (Some new) (length pre + 1))
    with (Ptr (Some new) (length (map Live pre ++ [Live x])))
    by (rewrite length_app, length_map; done).
  replace (l ++ EvConstruct x :: map EvCopy (pre ++ suf) ++ map EvDestroy suf)
    with (((l ++ [EvConstruct x]) ++ map EvCopy pre)
            ++ map EvCopy suf ++ map EvDestroy suf)
    by (rewrite map_app, <- !app_assoc; done).
  apply (uninitialized_copy_n_throw _ o _ k new suf y xs2 (map Live pre) []
           (map Live pre ++ [Live x]) (replicate (c2 - S n) Uninit)); [done| |done| |].
  - eapply Forall_impl; [exact Hsuf|]. intros v. apply copy_some.
  - rewrite lookup_insert_ne by done. rewrite Hk.
    by rewrite map_app, app_nil_r.
  - rewrite lookup_insert_eq. f_equal. rewrite <- app_assoc. simpl.
    do 2 f_equal. rewrite <- replicate_add. f_equal. lia.
Qed.

Lemma fill_copy_throws `{!ElementLaws T} h o l k new xs1 y xs2 p x c2 :
  k ≠ new → relocate_by_move = false →
  Forall (λ v, is_Some (T_copy v)) xs1 → T_copy y = None →
  h !! k = Some (map Live (xs1 ++ y :: xs2)) →
  h !! new = Some (replicate c2 Uninit) →
  p ≤ length (xs1 ++ y :: xs2) → length (xs1 ++ y :: xs2) < c2 →
  ∃ buf,
    (do slot ← RawMemory_plus (mkRawMemory (Some new) c2) p;
     exec construct_at slot (Some x);
     exec VectorH.CopyOrMove (GetAddress (mkRawMemory (Some k) (length (xs1 ++ y :: xs2))))
                             (GetAddress (mkRawMemory (Some new) c2)) p;
     do from ← RawMemory_plus (mkRawMemory (Some k) (length (xs1 ++ y :: xs2))) p;
     do to ← RawMemory_plus (mkRawMemory (Some new) c2) p;
     if decide (p ≤ length (xs1 ++ y :: xs2))
     then VectorH.CopyOrMove from (ptr_add to 1) (length (xs1 ++ y :: xs2) - p)
     else fail SizeWrap) (State h o l)
    = Throw element_exn
        (State (<[new := buf]> h) o
               (l ++ EvConstruct x :: map EvCopy xs1
                  ++ map EvDestroy (if decide (length xs1 < p) then xs1
                                    else drop p xs1))).
Proof.
  intros Hkn Hpol Hcopy Hy Hk Hnew Hp Hc2.
  destruct (decide (length xs1 < p)) as [Hlt|Hge].
  - pose proof (take_drop (p - S (length xs1)) xs2) as Hxs2.
    assert (Hpl : p = length (xs1 ++ y :: take (p - S (length xs1)) xs2)).
    { rewrite length_app in *. simpl in *. rewrite length_take. lia. }
    remember (take (p - S (length xs1)) xs2) as t eqn:Ht.
    remember (drop (p - S (length xs1)) xs2) as r eqn:Hr.
    clear Ht Hr. subst xs2 p.
    by apply fill_throws_in_prefix.
  - pose proof (take_drop p xs1) as Hxs1.
    assert (Hpl : p = length (take p xs1)) by (rewrite length_take; lia).
    remember (take p xs1) as pre eqn:Hpre.
    remember (drop p xs1) as suf eqn:Hsuf.
    clear Hpre Hsuf. subst xs1 p.
    rewrite <- !app_assoc in *.
    by apply fill_throws_in_suffix.
Qed.

Lemma Emplace_copy_throws `{!ElementLaws T} h o l this k xs1 y xs2 p x :
  vec_repr (State h o l) this (Some k) (xs1 ++ y :: xs2) (length (xs1 ++ y :: xs2)) →
  p ≤ length (xs1 ++ y :: xs2) →
  can_allocate (length (xs1 ++ y :: xs2) * 2) = true →
  relocate_by_move = false →
  Forall (λ v, is_Some (T_copy v)) xs1 → T_copy y = None →
  let σ' := State h o
              (l ++ EvConstruct x :: map EvCopy xs1
                 ++ map EvDestroy (if decide (length xs1 < p) then xs1
                                   else drop p xs1)) in
  VectorH.Emplace this (Ptr (Some k) p) (Some x) (State h o l) = Throw element_exn σ'
  ∧ Part000.Emplace this (Ptr (Some k) p) (Some x) (State h o l) = Throw element_exn σ'.
Proof.
  intros Hvec Hp Hc Hpol Hcopy Hy σ'. pose proof Hvec as (Hv & _ & Hb).
  simpl in Hv, Hb. rewrite Nat.sub_diag, app_nil_r in Hb.
  set (n := length (xs1 ++ y :: xs2)) in *.
  assert (Hn : n ≠ 0) by (unfold n; rewrite length_app; simpl; lia).
  pose proof (fresh_block h) as Hfresh. set (new := fresh (dom h)) in *.
  assert (Hkn : k ≠ new) by (intros ->; congruence).
  destruct (fill_copy_throws (<[new := replicate (n * 2) Uninit]> h) o l
              k new xs1 y xs2 p x (n * 2)) as [buf Hfill]; try done.
  { by rewrite lookup_insert_ne. }
  { by rewrite lookup_insert_eq. }
  { fold n. lia. }
  fold n in Hfill.
  assert (Hdtor : RawMemory_dtor (mkRawMemory (Some new) (n * 2))
      (State (<[new := buf]> (<[new := replicate (n * 2) Uninit]> h)) o
             (l ++ EvConstruct x :: map EvCopy xs1
                ++ map EvDestroy (if decide (length xs1 < p) then xs1
                                  else drop p xs1)))
    = Ok tt σ').
  { rewrite RawMemory_dtor_ok.
    - simpl. rewrite insert_insert_eq. unfold σ', new. by rewrite released_fresh.
    - intros j [= <-]. rewrite lookup_insert_eq. by eexists. }
  split.
  - unfold VectorH.Emplace.
    rewrite (bind_ok _ _ _ _ _ (load_ok _ _ _ _ _ Hv)).
    unfold VectorH.begin, GetAddress; simpl.
    rewrite (bind_ok _ _ _ _ _ (distance_ok _ _ _)).
    unfold RawMemory_Capacity; simpl. rewrite decide_True by done.
    apply bind_throw. unfold VectorH.EmplaceWithAllocate.
    rewrite (bind_ok _ _ _ _ _ (load_ok _ _ _ _ _ Hv)). simpl.
    rewrite decide_False by done. unfold RawMemory_Capacity; simpl.
    erewrite bind_ok; [|apply RawMemory_new_ok; [lia|done]].
    apply bind_throw.
    eapply unwind_throw; [exact Hfill|exact Hdtor].
  - unfold Part000.Emplace.
    rewrite (bind_ok _ _ _ _ _ (load_ok _ _ _ _ _ Hv)).
    unfold VectorH.begin, GetAddress; simpl.
    rewrite (bind_ok _ _ _ _ _ (distance_ok _ _ _)).
    unfold RawMemory_Capacity; simpl. rewrite decide_True by done.
    rewrite decide_False by done.
    apply bind_throw.
    erewrite bind_ok; [|apply RawMemory_new_ok; [lia|done]].
    apply bind_throw.
    eapply unwind_throw; [|exact Hdtor].
    rewrite Part000_fill_eq. exact Hfill.
Qed.

(** X21. The vector survives a copy constructor that throws while the buffer
    grows.  When an insertion into a full vector relocates by copying
    ([T] has a copy constructor and its move constructor may throw) and
    the copy of an element throws, the exception propagates, the new
    buffer is released, and the heap and the vector are as before the
    call.  The call does not undo everything it did, though: the copies
    made by the relocation that threw are destroyed, but the new element
    that was constructed in the new buffer is not, and when the exception
    comes from the elements behind the position, neither are the copies
    of the elements in front of it. *)
Theorem Insert_survives_throwing_copy `{!ElementLaws T} σ this k xs1 y xs2 p x :
  vec_at σ this (Some k) (xs1 ++ y :: xs2) (length (xs1 ++ y :: xs2)) →
  p ≤ length (xs1 ++ y :: xs2) →
  can_allocate (length (xs1 ++ y :: xs2) * 2) = true →
  relocate_by_move = false →
  Forall (λ v, is_Some (T_copy v)) xs1 → T_copy y = None →
  ∃ σ',
    VectorH.Insert this (Ptr (Some k) p) (Some x) σ = Throw element_exn σ' ∧
    Part000.Insert this (Ptr (Some k) p) (Some x) σ = Throw element_exn σ' ∧
    heap σ' = heap σ ∧ objs σ' = objs σ ∧
    log σ' = log σ ++ EvConstruct x :: map EvCopy xs1
                   ++ map EvDestroy (if decide (length xs1 < p) then xs1
                                     else drop p xs1).
Proof.
  destruct σ as [h o l]. intros [Hvec _] Hp Hc Hpol Hcopy Hy.
  destruct (Emplace_copy_throws h o l this k xs1 y xs2 p x Hvec Hp Hc Hpol Hcopy Hy)
    as [Hrun Hrun0].
  eexists. split; [exact Hrun|]. split; [exact Hrun0|]. done.
Qed.

End growth_failure.

(** ** Copy assignment into a buffer that suffices *)

Section assignment_in_place.
Context {T : Type} `{Element T} `{Platform}.
Implicit Types (h : gmap nat (list (slot T))) (o : gmap nat Vector) (l : list (event T))
  (xs ys : list T).

Lemma copy_loop_throws o bs bd : bs ≠ bd →
  ∀ ss1 ds1 n h l s d spre spost dpre dpost,
    Forall2 (λ d s, T_copy_assign d s = Some s) ds1 ss1 →
    T_copy_assign d s = None → length ss1 < n →
    h !! bs = Some (spre ++ map Live ss1 ++ Live s :: spost) →
    h !! bd = Some (dpre ++ map Live ds1 ++ Live d :: dpost) →
    copy_loop (Ptr (Some bs) (length spre)) (Ptr (Some bd) (length dpre)) n
              (State h o l)
    = Throw element_exn
        (State (<[bd := dpre ++ map Live ss1 ++ Live d :: dpost]> h) o
               (l ++ zip_with EvCopyAssign ds1 ss1)).
Proof.
  intros Hne. induction ss1 as [|s1 ss1 IH];
    intros ds1 n h l s d spre spost dpre dpost Hall Hthrow Hn Hs Hd;
    inversion Hall as [|d1 s1' ds1' ? Hc Hall']; subst; simpl in *;
    (destruct n as [|n]; [lia|]); simpl.
  - apply bind_throw. unfold copy_assign_at.
    erewrite bind_ok; [|eapply deref_ok; [exact Hs|apply lookup_mid]].
    erewrite bind_ok; [|eapply deref_ok; [exact Hd|apply lookup_mid]].
    rewrite Hthrow. unfold throw. by rewrite insert_id, app_nil_r.
  - erewrite bind_ok; cycle 1.
    { eapply copy_assign_at_ok; [exact Hs|apply lookup_mid|exact Hd|apply lookup_mid|exact Hc]. }
    rewrite insert_mid. unfold ptr_add; simpl.
    specialize (IH ds1' n (<[bd := dpre ++ Live s1 :: map Live ds1' ++ Live d :: dpost]> h)
                   (l ++ [EvCopyAssign d1 s1]) s d (spre ++ [Live s1]) spost
                   (dpre ++ [Live s1]) dpost Hall' Hthrow ltac:(lia)).
    rewrite !length_app in IH; simpl in IH.
    rewrite IH.
    + by rewrite insert_insert_eq, <- !app_assoc.
    + by rewrite lookup_insert_ne, <- app_assoc.
    + by rewrite lookup_insert_eq, <- app_assoc.
Qed.

Lemma assign_copy_fits_throws `{!ElementLaws T} h o l this other
    ka ds1 d ds2 ca kb ss1 s ss2 cb :
  this ≠ other → ka ≠ kb →
  vec_repr (State h o l) this (Some ka) (ds1 ++ d :: ds2) ca →
  vec_repr (State h o l) other (Some kb) (ss1 ++ s :: ss2) cb →
  length (ss1 ++ s :: ss2) ≤ ca →
  Forall2 (λ d s, is_Some (T_copy_assign d s)) ds1 ss1 →
  T_copy_assign d s = None →
  VectorH.assign_copy this other (State h o l)
  = Throw element_exn
      (State (<[ka := map Live (ss1 ++ d :: ds2)
                      ++ replicate (ca - length (ds1 ++ d :: ds2)) Uninit]> h)
             o (l ++ zip_with EvCopyAssign ds1 ss1)).
Proof.
  intros Hne Hab Ha Hb Hfit Hall Hthrow.
  pose proof Ha as (Hva & Hlea & Hba). pose proof Hb as (Hvb & Hleb & Hbb).
  simpl in *.
  assert (Hall' : Forall2 (λ d s, T_copy_assign d s = Some s) ds1 ss1).
  { eapply Forall2_impl; [exact Hall|]. intros ? ?. apply copy_assign_some. }
  pose proof (Forall2_length _ _ _ Hall) as Hlen.
  unfold VectorH.assign_copy. rewrite decide_True by done.
  rewrite (bind_ok _ _ _ _ _ (load_ok _ _ _ _ _ Hva)).
  rewrite (bind_ok _ _ _ _ _ (load_ok _ _ _ _ _ Hvb)).
  unfold RawMemory_Capacity, GetAddress; simpl.
  rewrite (proj2 (Nat.ltb_ge _ _) Hfit).
  rewrite !length_app in *. simpl in *.
  assert (Hloop : ∀ n, length ss1 < n →
    copy_loop (Ptr (Some kb) 0) (Ptr (Some ka) 0) n (State h o l)
    = Throw element_exn
        (State (<[ka := map Live (ss1 ++ d :: ds2)
                        ++ replicate (ca - (length ds1 + S (length ds2))) Uninit]> h)
               o (l ++ zip_with EvCopyAssign ds1 ss1))).
  { intros n Hn.
    pose proof (copy_loop_throws o kb ka (not_eq_sym Hab) ss1 ds1 n h l s d []
               (map Live ss2 ++ replicate (cb - (length ss1 + S (length ss2))) Uninit)
               []
               (map Live ds2 ++ replicate (ca - (length ds1 + S (length ds2))) Uninit)
               Hall' Hthrow Hn) as Hx.
    simpl in Hx. rewrite Hx.
    - by list_norm.
    - rewrite Hbb. by list_norm.
    - rewrite Hba. by list_norm. }
  apply bind_throw.
  destruct (length ds1 + S (length ds2) <? length ss1 + S (length ss2)) eqn:Hcmp.
  - apply bind_throw. unfold copy, ptr_add, ptr_diff; cbn [ptr_off ptr_block].
    rewrite decide_True by lia. rewrite Nat.sub_0_r. apply Hloop. lia.
  - apply bind_throw. unfold copy, ptr_add, ptr_diff; cbn [ptr_off ptr_block].
    rewrite decide_True by lia. rewrite Nat.sub_0_r. apply Hloop. lia.
Qed.

(** X22. Copy assignment into a buffer that suffices is not all-or-nothing.
    When the copy assignment of an element throws, the exception
    propagates and the target keeps its size, its buffer and its
    capacity, but the elements in front of the one that threw already
    hold the values of the source; the others are as before, and so is
    the source.  Both revisions compute the same. *)
Theorem copy_assignment_in_place_stops_midway `{!ElementLaws T} σ this other
    ka ds1 d ds2 ca kb ss1 s ss2 cb :
  this ≠ other → ka ≠ kb →
  vec_at σ this (Some ka) (ds1 ++ d :: ds2) ca →
  vec_at σ other (Some kb) (ss1 ++ s :: ss2) cb →
  length (ss1 ++ s :: ss2) ≤ ca →
  Forall2 (λ d s, is_Some (T_copy_assign d s)) ds1 ss1 →
  T_copy_assign d s = None →
  ∃ σ',
    VectorH.assign_copy this other σ = Throw element_exn σ' ∧
    Part000.assign_copy this other σ = Throw element_exn σ' ∧
    vec_at σ' this (Some ka) (ss1 ++ d :: ds2) ca ∧
    vec_at σ' other (Some kb) (ss1 ++ s :: ss2) cb ∧
    log σ' = log σ ++ zip_with EvCopyAssign ds1 ss1.
Proof.
  destruct σ as [h o l]. intros Hne Hab [Ha Hfa] [Hb Hfb] Hfit Hall Hthrow.
  pose proof (assign_copy_fits_throws h o l this other ka ds1 d ds2 ca kb ss1 s ss2 cb
                Hne Hab Ha Hb Hfit Hall Hthrow) as Hrun.
  pose proof Ha as (Hva & Hlea & Hba). pose proof Hb as (Hvb & Hleb & Hbb).
  pose proof (Forall2_length _ _ _ Hall) as Hlen.
  simpl in *.
  eexists. split; [exact Hrun|]. split; [by rewrite Part000_assign_copy_eq|].
  assert (Hsame : length (ss1 ++ d :: ds2) = length (ds1 ++ d :: ds2)).
  { rewrite !length_app. simpl. lia. }
  split; [|split; [|done]].
  - split; [|done]. split; [|split]; simpl.
    + by rewrite Hsame.
    + by rewrite Hsame.
    + by rewrite lookup_insert_eq, Hsame.
  - split; [|done]. split; [|split]; simpl; [done..|].
    by rewrite lookup_insert_ne.
Qed.

End assignment_in_place.

(** ** The old buffer after a reallocation *)

Section old_buffer.
Context {T : Type} `{Element T} `{Platform}.
Implicit Types (h : gmap nat (list (slot T))) (o : gmap nat Vector) (l : list (event T))
  (xs ys : list T).

Lemma regrown_heap h k (buf : list (slot T)) :
  is_Some (h !! k) →
  fresh (dom h) ≠ k ∧ h !! fresh (dom h) = None ∧
  delete k (<[fresh (dom h) := buf]> h) !! k = None ∧
  (∀ j, j ≠ k → j ≠ fresh (dom h) →
        delete k (<[fresh (dom h) := buf]> h) !! j = h !! j).
Proof.
  intros [old Hk]. pose proof (fresh_block h) as Hfresh.
  split; [intros Heq; rewrite Heq in Hfresh; congruence|].
  split; [done|]. split; [by rewrite lookup_delete_eq|].
  intros j Hjk Hjn. rewrite lookup_delete_ne by done.
  by rewrite lookup_insert_ne.
Qed.

Lemma deref_released (σ : state T) k i :
  heap σ !! k = None → deref (Ptr (Some k) i) σ = Fault BadPointer σ.
Proof.
  intros Hk. unfold deref. apply bind_fault. unfold load_slot.
  unfold bind, get_heap. simpl. by rewrite Hk.
Qed.

(** X23. A reallocation releases the old buffer.  When [Reserve] grows the
    capacity to an [n] of which a buffer can be had (so that
    [n * sizeof(T)] is at most [PTRDIFF_MAX] and does not wrap), and when
    an insertion finds the vector full, the elements end up in a block
    that was not allocated before, the block that was the buffer is
    released, and every other block of the heap is untouched; an address
    into the old buffer, such as an iterator obtained before the call,
    designates no storage afterwards. *)
Theorem reallocation_releases_old_buffer `{!ElementLaws T} σ this k xs c :
  vec_at σ this (Some k) xs c → relocates xs →
  let moved (σ' : state T) (new : nat) :=
    new ≠ k ∧ heap σ !! new = None ∧ heap σ' !! k = None ∧
    (∀ j, j ≠ k → j ≠ new → heap σ' !! j = heap σ !! j) ∧
    (∀ i, deref (Ptr (Some k) i) σ' = Fault BadPointer σ') in
  (∀ n, c < n → can_allocate n = true →
     ∃ σ' new, VectorH.Reserve this n σ = Ok tt σ' ∧
               vec_at σ' this (Some new) xs n ∧ moved σ' new) ∧
  (∀ p x, length xs = c → p ≤ c → can_allocate (grown c) = true →
     ∃ σ' new, VectorH.Insert this (Ptr (Some k) p) (Some x) σ
               = Ok (Ptr (Some new) p) σ' ∧
               vec_at σ' this (Some new) (take p xs ++ x :: drop p xs) (grown c) ∧
               moved σ' new).
Proof.
  destruct σ as [h o l]. intros [Hvec Hfit] Hr moved.
  pose proof Hvec as (Hv & Hle & Hb). simpl in Hv, Hle, Hb.
  assert (Hk : is_Some (h !! k)) by (by eexists).
  split.
  - intros n Hn Hc.
    pose proof (Reserve_grows h o l this (Some k) xs c n Hvec Hn Hc Hr) as Hrun.
    eexists _, (fresh (dom h)). split; [exact Hrun|].
    destruct (regrown_heap h k (map Live xs ++ replicate (n - length xs) Uninit) Hk)
      as (Hne & Hfresh & Hgone & Hrest).
    split.
    + split; [|by apply can_allocate_fits].
      split; [|split]; simpl.
      * by rewrite lookup_insert_eq.
      * lia.
      * rewrite lookup_delete_ne by done. by rewrite lookup_insert_eq.
    + unfold moved. simpl. split; [done|]. split; [done|]. split; [done|].
      split; [done|]. intros i. by apply deref_released.
  - intros p x Hfull Hp Hc. subst c.
    pose proof (Emplace_grows h o l this (Some k) xs p x Hvec Hp Hc Hr) as Hrun.
    eexists _, (fresh (dom h)). split; [exact Hrun|].
    destruct (regrown_heap h k
                (map Live (take p xs ++ x :: drop p xs)
                   ++ replicate (grown (length xs) - S (length xs)) Uninit) Hk)
      as (Hne & Hfresh & Hgone & Hrest).
    split; [split; [by eapply vec_repr_grown|by apply can_allocate_fits]|].
    unfold moved. simpl. split; [done|]. split; [done|]. split; [done|].
    split; [done|]. intros i. by apply deref_released.
Qed.

End old_buffer.

(** ** A move that throws while the elements are relocated *)

Section relocation_by_move.
Context {T : Type} `{Element T} `{Platform}.
Implicit Types (h : gmap nat (list (slot T))) (o : gmap nat Vector) (l : list (event T))
  (xs ys : list T).

(** X24. [Reserve] that relocates by moving does not undo a move that throws.
    For a type that is relocated with its move constructor although that
    constructor may throw (a type without a copy constructor), an
    exception from the move of an element propagates, the new buffer is
    released and the objects built in it are destroyed, and the vector
    keeps its buffer, size and capacity; but the elements in front of the
    one that threw have been moved from and hold what the move left in
    them.  Both revisions compute the same. *)
Theorem Reserve_keeps_moved_from_elements `{!ElementLaws T} σ this k xs1 y xs2 c n :
  vec_at σ this (Some k) (xs1 ++ y :: xs2) c → c < n →
  can_allocate n = true → relocate_by_move = true →
  Forall (λ x, is_Some (T_move x)) xs1 → T_move y = None →
  ∃ σ',
    VectorH.Reserve this n σ = Throw element_exn σ' ∧
    Part000.Reserve this n σ = Throw element_exn σ' ∧
    vec_at σ' this (Some k) (map moved_out xs1 ++ y :: xs2) c ∧
    (∀ j, j ≠ k → heap σ' !! j = heap σ !! j) ∧
    log σ' = log σ ++ map EvMove xs1 ++ map EvDestroy xs1.
Proof.
  destruct σ as [h o l]. intros [Hvec Hfit] Hn Hc Hpol Hmove Hy.
  pose proof (Reserve_move_throws h o l this k xs1 y xs2 c n Hvec Hn Hc Hpol Hmove Hy)
    as Hrun.
  pose proof Hvec as (Hv & Hle & Hb). simpl in Hv, Hle, Hb.
  assert (Hsame : length (map moved_out xs1 ++ y :: xs2) = length (xs1 ++ y :: xs2)).
  { rewrite !length_app, length_map. done. }
  eexists. split; [exact Hrun|]. split; [by rewrite Part000_Reserve_eq|].
  split; [|split; [|done]].
  - split; [|done]. split; [|split]; simpl.
    + by rewrite Hsame.
    + by rewrite Hsame.
    + by rewrite lookup_insert_eq, Hsame.
  - intros j Hj. simpl. by rewrite lookup_insert_ne.
Qed.

End relocation_by_move.

(** ** [Emplace] at [end()] when the constructor throws *)

Section emplace_at_end.
Context {T : Type} `{Element T} `{Platform}.
Implicit Types (h : gmap nat (list (slot T))) (o : gmap nat Vector) (l : list (event T))
  (xs ys : list T).

(** X25. The two revisions differ when [Emplace(end(), ...)] finds room and the
    constructor of the new element throws.  In vector.h the construction
    in place is outside the [try] block: the exception propagates and
    nothing has changed.  In the earlier revision the [try] block encloses
    both branches, so the handler runs [operator delete(end())]: on a
    non-empty vector that is an address inside the buffer and the call
    does not return; on an empty vector with reserved capacity [end()] is
    the start of the buffer, the handler releases the buffer, and the
    exception leaves a vector whose [data_] still refers to it. *)
Theorem Emplace_at_end_constructor_throws σ this k xs c :
  vec_at σ this (Some k) xs c → length xs < c →
  VectorH.Emplace this (Ptr (Some k) (length xs)) None σ = Throw element_exn σ ∧
  (0 < length xs →
   Part000.Emplace this (Ptr (Some k) (length xs)) None σ = Fault InvalidDelete σ) ∧
  (length xs = 0 →
   ∃ σ', Part000.Emplace this (Ptr (Some k) (length xs)) None σ = Throw element_exn σ' ∧
         heap σ' = delete k (heap σ) ∧ objs σ' = objs σ ∧ log σ' = log σ).
Proof.
  destruct σ as [h o l]. intros [Hvec _] Hc.
  pose proof Hvec as (Hv & Hle & Hb). simpl in Hv, Hle, Hb.
  assert (Hrun : ∀ r,
    operator_delete (Ptr (Some k) (length xs)) (State h o l) = r →
    Part000.Emplace this (Ptr (Some k) (length xs)) None (State h o l)
    = match r with
      | Ok _ σ1 => Throw element_exn σ1
      | Throw e σ1 => Throw e σ1
      | Fault f σ1 => Fault f σ1
      end).
  { intros r Hr. unfold Part000.Emplace.
    rewrite (bind_ok _ _ _ _ _ (load_ok _ _ _ _ _ Hv)).
    unfold VectorH.begin, GetAddress; simpl.
    rewrite (bind_ok _ _ _ _ _ (distance_ok _ _ _)).
    unfold RawMemory_Capacity; simpl. rewrite decide_False by lia.
    unfold bind at 1. unfold try_catch, VectorH.end_.
    erewrite bind_ok; [|apply RawMemory_plus_ok; simpl; lia].
    simpl. rewrite decide_False by (intros Hne; by apply Hne).
    erewrite bind_ok; [|apply RawMemory_plus_ok; simpl; lia].
    simpl. unfold construct_at, throw.
    rewrite (bind_ok _ _ _ _ _ (load_ok _ _ _ _ _ Hv)).
    erewrite bind_ok; [|apply RawMemory_plus_ok; simpl; lia].
    simpl. unfold bind at 1. rewrite Hr. by destruct r as [[] ?| |]. }
  split; [by eapply Emplace_append_ctor_throws|]. split.
  - intros Hpos. rewrite (Hrun (Fault InvalidDelete (State h o l))); [done|].
    unfold operator_delete. simpl. unfold bind, get_heap. simpl. rewrite Hb.
    by rewrite decide_False by lia.
  - intros Hz. eexists. split.
    + apply (Hrun (Ok tt (State (delete k h) o l))).
      unfold operator_delete. simpl. unfold bind, get_heap. simpl. rewrite Hb.
      by rewrite decide_True by done.
    + done.
Qed.

End emplace_at_end.

(** ** A byte count beyond [SIZE_MAX] *)

Section beyond_SIZE_MAX.
#[local] Existing Instance plain.
#[local] Existing Instance wide.

(** X26. [Allocate] multiplies [count] by [sizeof(T)] without a check.  Where
    an object of type [T] takes [2^62] bytes, five objects take more than
    [SIZE_MAX] bytes: [Reserve(5)] on an empty vector asks [operator new]
    for [5 * 2^62 mod 2^64 = 2^62] bytes, obtains a block with room for one
    object, and records the capacity 5.  The first [PushBack] constructs
    its element in that one slot; the second finds the size below the
    capacity, constructs in place, and leaves the block. *)
Example Reserve_beyond_SIZE_MAX_gets_smaller_block :
  byte_count 5 = (2 ^ 62)%Z
  ∧ can_allocate 5 = false
  ∧ (exec VectorH.Vector_default 0; VectorH.Reserve 0 5) empty_state
    = Ok tt (State {[0 := [Uninit]]} {[0 := mkVector (mkRawMemory (Some 0) 5) 0]} [])
  ∧ (exec VectorH.Vector_default 0; exec VectorH.Reserve 0 5;
     VectorH.PushBack 0 (Some 7)) empty_state
    = Ok tt (State {[0 := [Live 7]]} {[0 := mkVector (mkRawMemory (Some 0) 5) 1]}
               [EvConstruct 7])
  ∧ (exec VectorH.Vector_default 0; exec VectorH.Reserve 0 5;
     exec VectorH.PushBack 0 (Some 7); VectorH.PushBack 0 (Some 8)) empty_state
    = Fault BadPointer
        (State {[0 := [Live 7]]} {[0 := mkVector (mkRawMemory (Some 0) 5) 1]}
           [EvConstruct 7; EvConstruct 8])
  ∧ (exec VectorH.Vector_default 0; Part000.Reserve 0 5) empty_state
    = (exec VectorH.Vector_default 0; VectorH.Reserve 0 5) empty_state.
Proof. repeat split; vm_compute; reflexivity. Qed.

End beyond_SIZE_MAX.

(** * The further properties at concrete inputs *)

Section further_witnesses.
#[local] Existing Instance plain.
#[local] Existing Instance roomy.
#[local] Existing Instance plain_laws.

Lemma PushBack_appends_witness :
  ∃ σ' b', VectorH.PushBack 0 (Some 9) (vector_state [Live 1; Live 2] 2 []) = Ok tt σ'
           ∧ vec_at σ' 0 (Some b') [1; 2; 9] 4.
Proof.
  destruct (PushBack_appends (vector_state [Live 1; Live 2] 2 []) 0 (Some 0) [1; 2] 2 9)
    as (σ' & b' & Hrun & _ & _ & _ & Hvec & _).
  - split; [split; [reflexivity|split; [simpl; lia|reflexivity]]|by vm_compute].
  - intros _. split; [reflexivity|].
    unfold relocates. simpl. repeat constructor; eexists; reflexivity.
  - exists σ', b'. split; [exact Hrun|exact Hvec].
Defined.

Lemma append_failure_changes_nothing_witness :
  VectorH.PushBack 0 None (vector_state [Live 1; Live 2] 2 [])
  = Throw element_exn (vector_state [Live 1; Live 2] 2 []).
Proof.
  destruct (append_failure_changes_nothing
              (vector_state [Live 1; Live 2] 2 []) 0 (Some 0) [1; 2] 2) as [Hthrow _].
  - split; [split; [reflexivity|split; [simpl; lia|reflexivity]]|by vm_compute].
  - destruct Hthrow as [Hrun _]; [reflexivity|exact Hrun].
Defined.

Lemma Reserve_then_PushBack_keeps_buffer_witness :
  ∃ σ1 σ2 k,
    VectorH.Reserve 0 4 (vector_state [Live 1] 1 []) = Ok tt σ1 ∧
    push_all 0 [7; 8; 9] σ1 = Ok tt σ2 ∧
    vec_at σ2 0 (Some k) [1; 7; 8; 9] 4.
Proof.
  destruct (Reserve_then_PushBack_keeps_buffer
              (vector_state [Live 1] 1 []) 0 (Some 0) [1] 1 4 [7; 8; 9])
    as (σ1 & σ2 & k & Hres & _ & Hpush & Hvec & _).
  - split; [split; [reflexivity|split; [simpl; lia|reflexivity]]|by vm_compute].
  - lia.
  - reflexivity.
  - unfold relocates. simpl. repeat constructor; eexists; reflexivity.
  - simpl. lia.
  - exists σ1, σ2, k. split; [exact Hres|]. split; [exact Hpush|exact Hvec].
Defined.

Lemma PushBack_from_empty_doubles_witness :
  ∃ σ' b' c',
    (exec VectorH.Vector_default 0; push_all 0 [1; 2; 3]) empty_state = Ok tt σ' ∧
    vec_at σ' 0 b' [1; 2; 3] c' ∧ (∃ k, c' = 2 ^ k) ∧ 3 ≤ c' ∧ c' < 6.
Proof.
  apply (PushBack_from_empty_doubles empty_state 0 [1; 2; 3]).
  - intros n Hn. simpl in Hn.
    do 6 (destruct n as [|n]; [reflexivity|]). lia.
  - unfold relocates. simpl. repeat constructor; eexists; reflexivity.
  - discriminate.
Defined.

Lemma Vector_copy_spec_witness :
  let σ := State {[1 := [Live 5; Live 6; Uninit]]}
                 {[1 := mkVector (mkRawMemory (Some 1) 3) 2]} [] in
  ∃ σ' b', VectorH.Vector_copy 0 1 σ = Ok tt σ'
           ∧ vec_at σ' 0 b' [5; 6] 2 ∧ vec_at σ' 1 (Some 1) [5; 6] 3.
Proof.
  intros σ.
  destruct (Vector_copy_spec σ 0 1 (Some 1) [5; 6] 3) as (Hok & _).
  - lia.
  - split; [split; [reflexivity|split; [simpl; lia|reflexivity]]|by vm_compute].
  - destruct Hok as (σ' & b' & Hrun & Hnew & Hsrc & _).
    + reflexivity.
    + repeat constructor; eexists; reflexivity.
    + exists σ', b'. split; [exact Hrun|]. split; [exact Hnew|exact Hsrc].
Defined.

Lemma Vector_dtor_spec_witness :
  ∃ σ', VectorH.Vector_dtor 0 (vector_state [Live 1; Live 2; Uninit] 2 []) = Ok tt σ'
        ∧ heap σ' = ∅ ∧ log σ' = [EvDestroy 1; EvDestroy 2].
Proof.
  destruct (Vector_dtor_spec (vector_state [Live 1; Live 2; Uninit] 2 []) 0 (Some 0) [1; 2] 3)
    as (σ' & Hrun & Hheap & _ & Hlog).
  - split; [split; [reflexivity|split; [simpl; lia|reflexivity]]|by vm_compute].
  - exists σ'. split; [exact Hrun|]. split; [|exact Hlog].
    rewrite Hheap. simpl. apply delete_singleton_eq.
Defined.

Lemma construction_then_destruction_restores_heap_witness :
  ∃ σ', (exec VectorH.Vector_sized 0 2; VectorH.Vector_dtor 0) empty_state = Ok tt σ'
        ∧ heap σ' = ∅ ∧ objs σ' = ∅.
Proof.
  destruct (construction_then_destruction_restores_heap
              empty_state 0 1 None [] 0 [0; 0]) as (Hsized & _).
  - reflexivity.
  - destruct Hsized as (σ' & Hrun & Hheap & Hobjs & _).
    + simpl. split; [reflexivity|]. split; [reflexivity|exact I].
    + intros _. reflexivity.
    + exists σ'. split; [exact Hrun|]. split; [exact Hheap|exact Hobjs].
Defined.

Lemma moved_from_destructor_is_harmless_witness :
  let σ := State {[1 := [Live 5; Live 6]]}
                 {[1 := mkVector (mkRawMemory (Some 1) 2) 2]} [] in
  ∃ σ', (exec VectorH.Vector_move 0 1; VectorH.Vector_dtor 1) σ = Ok tt σ'
        ∧ vec_at σ' 0 (Some 1) [5; 6] 2.
Proof.
  intros σ.
  destruct (moved_from_destructor_is_harmless σ 0 1 (Some 1) [5; 6] 2)
    as ((σ' & Hrun & Hvec & _) & _).
  - lia.
  - split; [split; [reflexivity|split; [simpl; lia|reflexivity]]|by vm_compute].
  - exists σ'. split; [exact Hrun|exact Hvec].
Defined.

Lemma PopBack_spec_witness :
  (∃ σ', VectorH.PopBack 0 (vector_state [Live 1; Live 2; Uninit] 2 []) = Ok tt σ'
         ∧ vec_at σ' 0 (Some 0) [1] 3)
  ∧ VectorH.PopBack 0 (vector_state [Uninit] 0 [])
    = Fault AssertFailed (vector_state [Uninit] 0 []).
Proof.
  split.
  - destruct (PopBack_spec (vector_state [Live 1; Live 2; Uninit] 2 []) 0 (Some 0) [1; 2] 3)
      as (Hpop & _).
    + split; [split; [reflexivity|split; [simpl; lia|reflexivity]]|by vm_compute].
    + destruct (Hpop [1] 2) as (σ' & Hrun & Hvec & _); [reflexivity|].
      exists σ'. split; [exact Hrun|exact Hvec].
  - destruct (PopBack_spec (vector_state [Uninit] 0 []) 0 (Some 0) [] 1) as (_ & Hempty).
    + split; [split; [reflexivity|split; [simpl; lia|reflexivity]]|by vm_compute].
    + apply Hempty; reflexivity.
Defined.

Lemma PushBack_then_PopBack_witness :
  ∃ σ' b', (exec VectorH.PushBack 0 (Some 9); VectorH.PopBack 0)
             (vector_state [Live 1; Live 2] 2 []) = Ok tt σ'
           ∧ vec_at σ' 0 (Some b') [1; 2] 4.
Proof.
  destruct (PushBack_then_PopBack (vector_state [Live 1; Live 2] 2 []) 0 (Some 0) [1; 2] 2 9)
    as (σ' & b' & Hrun & Hvec & _).
  - split; [split; [reflexivity|split; [simpl; lia|reflexivity]]|by vm_compute].
  - intros _. split; [reflexivity|].
    unfold relocates. simpl. repeat constructor; eexists; reflexivity.
  - exists σ', b'. split; [exact Hrun|exact Hvec].
Defined.

Lemma Swap_exchanges_witness :
  let σ := State {[0 := [Live 1; Uninit]; 1 := [Live 5; Live 6; Live 7]]}
                 {[0 := mkVector (mkRawMemory (Some 0) 2) 1;
                   1 := mkVector (mkRawMemory (Some 1) 3) 3]} [] in
  ∃ σ', VectorH.Swap 0 1 σ = Ok tt σ'
        ∧ vec_at σ' 0 (Some 1) [5; 6; 7] 3 ∧ vec_at σ' 1 (Some 0) [1] 2.
Proof.
  intros σ.
  destruct (Swap_exchanges σ 0 1 (Some 0) [1] 2 (Some 1) [5; 6; 7] 3) as (Hswap & _).
  - split; [split; [reflexivity|split; [simpl; lia|reflexivity]]|by vm_compute].
  - split; [split; [reflexivity|split; [simpl; lia|reflexivity]]|by vm_compute].
  - destruct Hswap as (σ' & Hrun & Ha & Hb & _); [lia|].
    exists σ'. split; [exact Hrun|]. split; [exact Ha|exact Hb].
Defined.

Lemma index_bounds_witness :
  VectorH.index 0 1 (vector_state [Live 1; Live 2; Uninit] 2 [])
  = Ok (Ptr (Some 0) 1) (vector_state [Live 1; Live 2; Uninit] 2 [])
  ∧ VectorH.index 0 2 (vector_state [Live 1; Live 2; Uninit] 2 [])
    = Fault AssertFailed (vector_state [Live 1; Live 2; Uninit] 2 []).
Proof.
  split.
  - destruct (index_bounds (vector_state [Live 1; Live 2; Uninit] 2 []) 0 (Some 0) [1; 2] 3 1)
      as (Hin & _).
    + split; [split; [reflexivity|split; [simpl; lia|reflexivity]]|by vm_compute].
    + destruct (Hin 2) as (k & Hk & Hrun & _); [reflexivity|].
      injection Hk as <-. exact Hrun.
  - destruct (index_bounds (vector_state [Live 1; Live 2; Uninit] 2 []) 0 (Some 0) [1; 2] 3 2)
      as (_ & Hout).
    + split; [split; [reflexivity|split; [simpl; lia|reflexivity]]|by vm_compute].
    + apply Hout; [simpl; lia|reflexivity].
Defined.

Lemma move_assignment_keeps_old_block_witness :
  let σ := State {[0 := [Live 1; Uninit]; 1 := [Live 5; Live 6; Live 7]]}
                 {[0 := mkVector (mkRawMemory (Some 0) 2) 1;
                   1 := mkVector (mkRawMemory (Some 1) 3) 3]} [] in
  ∃ σ', VectorH.assign_move 0 1 σ = Ok tt σ'
        ∧ heap σ' !! 0 = Some [Live 1; Uninit]
        ∧ ∀ loc v, objs σ' !! loc = Some v → buffer_ (data_ v) ≠ Some 0.
Proof.
  intros σ.
  destruct (move_assignment_keeps_old_block σ 0 1 0 [1] 2 (Some 1) [5; 6; 7] 3)
    as (σ' & Hrun & _ & Hheap & _ & Hnone).
  - lia.
  - split; [split; [reflexivity|split; [simpl; lia|reflexivity]]|by vm_compute].
  - split; [split; [reflexivity|split; [simpl; lia|reflexivity]]|by vm_compute].
  - intros loc v Hloc Hbuf. simpl in Hloc.
    apply lookup_insert_Some in Hloc as [[<- _]|[_ Hloc]]; [reflexivity|].
    apply lookup_singleton_Some in Hloc as [_ <-]. discriminate Hbuf.
  - exists σ'. split; [exact Hrun|]. split; [exact Hheap|exact Hnone].
Defined.

Lemma Insert_with_room_keeps_buffer_witness :
  ∃ σ', VectorH.Insert 0 (Ptr (Some 0) 0) (Some 9)
          (vector_state [Live 1; Live 2; Uninit] 2 []) = Ok (Ptr (Some 0) 0) σ'
        ∧ vec_at σ' 0 (Some 0) [9; 1; 2] 3.
Proof.
  destruct (Insert_with_room_keeps_buffer
              (vector_state [Live 1; Live 2; Uninit] 2 []) 0 0 [1; 2] 3 0 9)
    as (σ' & Hrun & _ & Hvec & _).
  - intros v. simpl. eexists. reflexivity.
  - intros d s. simpl. eexists. reflexivity.
  - split; [split; [reflexivity|split; [simpl; lia|reflexivity]]|by vm_compute].
  - simpl. lia.
  - simpl. lia.
  - exists σ'. split; [exact Hrun|exact Hvec].
Defined.

Lemma Part000_Erase_removes_witness :
  ∃ σ', Part000.Erase 0 (Ptr (Some 0) 0) (vector_state [Live 1; Live 2; Uninit] 2 [])
        = Ok (Ptr (Some 0) 0) σ'
        ∧ vec_at σ' 0 (Some 0) [2] 3.
Proof.
  destruct (Part000_Erase_removes
              (vector_state [Live 1; Live 2; Uninit] 2 []) 0 0 [1; 2] 3 0 1)
    as (σ' & Hrun & _ & Hvec & _).
  - intros d s. simpl. eexists. reflexivity.
  - split; [split; [reflexivity|split; [simpl; lia|reflexivity]]|by vm_compute].
  - reflexivity.
  - exists σ'. split; [exact Hrun|exact Hvec].
Defined.

Lemma Erase_at_end_fails_witness :
  VectorH.Erase 0 (Ptr (Some 0) 2) (vector_state [Live 1; Live 2; Uninit] 2 [])
  = Fault AssertFailed (vector_state [Live 1; Live 2; Uninit] 2 [])
  ∧ Part000.Erase 0 (Ptr (Some 0) 2) (vector_state [Live 1; Live 2; Uninit] 2 [])
    = Fault AssertFailed (vector_state [Live 1; Live 2; Uninit] 2 []).
Proof.
  destruct (Erase_at_end_fails (vector_state [Live 1; Live 2; Uninit] 2 []) 0 (Some 0) [1; 2] 3 2)
    as (Hnew & Hold).
  - reflexivity.
  - split; [split; [reflexivity|split; [simpl; lia|reflexivity]]|by vm_compute].
  - split; [apply Hnew; simpl; lia|exact Hold].
Defined.


Lemma reallocation_releases_old_buffer_witness :
  ∃ σ' new, VectorH.Reserve 0 4 (vector_state [Live 1; Live 2] 2 []) = Ok tt σ'
            ∧ vec_at σ' 0 (Some new) [1; 2] 4
            ∧ heap σ' !! 0 = None.
Proof.
  destruct (reallocation_releases_old_buffer
              (vector_state [Live 1; Live 2] 2 []) 0 0 [1; 2] 2) as (Hres & _).
  - split; [split; [reflexivity|split; [simpl; lia|reflexivity]]|by vm_compute].
  - unfold relocates. simpl. repeat constructor; eexists; reflexivity.
  - destruct (Hres 4) as (σ' & new & Hrun & Hvec & _ & _ & Hgone & _).
    + lia.
    + reflexivity.
    + exists σ', new. split; [exact Hrun|]. split; [exact Hvec|exact Hgone].
Defined.

Lemma Emplace_at_end_constructor_throws_witness :
  VectorH.Emplace 0 (Ptr (Some 0) 1) None (vector_state [Live 1; Uninit] 1 [])
  = Throw element_exn (vector_state [Live 1; Uninit] 1 [])
  ∧ Part000.Emplace 0 (Ptr (Some 0) 1) None (vector_state [Live 1; Uninit] 1 [])
    = Fault InvalidDelete (vector_state [Live 1; Uninit] 1 []).
Proof.
  destruct (Emplace_at_end_constructor_throws
              (vector_state [Live 1; Uninit] 1 []) 0 0 [1] 2) as (Hnew & Hold & _).
  - split; [split; [reflexivity|split; [simpl; lia|reflexivity]]|by vm_compute].
  - simpl. lia.
  - split; [exact Hnew|]. apply Hold. simpl. lia.
Defined.

End further_witnesses.

Section further_witnesses_throwing.
#[local] Existing Instance throwing.
#[local] Existing Instance roomy.
#[local] Existing Instance throwing_laws.

Lemma Insert_survives_throwing_copy_witness :
  ∃ σ', VectorH.Insert 0 (Ptr (Some 0) 0) (Some 5) (vector_state [Live 7; Live 13] 2 [])
        = Throw element_exn σ'
        ∧ heap σ' = {[0 := [Live 7; Live 13]]}
        ∧ log σ' = [EvConstruct 5; EvCopy 7; EvDestroy 7].
Proof.
  destruct (Insert_survives_throwing_copy
              (vector_state [Live 7; Live 13] 2 []) 0 0 [7] 13 [] 0 5)
    as (σ' & Hrun & _ & Hheap & _ & Hlog).
  - split; [split; [reflexivity|split; [simpl; lia|reflexivity]]|by vm_compute].
  - simpl. lia.
  - reflexivity.
  - reflexivity.
  - repeat constructor; eexists; reflexivity.
  - reflexivity.
  - exists σ'. split; [exact Hrun|]. split; [exact Hheap|exact Hlog].
Defined.

Lemma copy_assignment_in_place_stops_midway_witness :
  let σ := State {[0 := [Live 1; Live 2]; 1 := [Live 5; Live 13]]}
                 {[0 := mkVector (mkRawMemory (Some 0) 2) 2;
                   1 := mkVector (mkRawMemory (Some 1) 2) 2]} [] in
  ∃ σ', VectorH.assign_copy 0 1 σ = Throw element_exn σ'
        ∧ vec_at σ' 0 (Some 0) [5; 2] 2.
Proof.
  intros σ.
  destruct (copy_assignment_in_place_stops_midway σ 0 1 0 [1] 2 [] 2 1 [5] 13 [] 2)
    as (σ' & Hrun & _ & Hvec & _).
  - lia.
  - lia.
  - split; [split; [reflexivity|split; [simpl; lia|reflexivity]]|by vm_compute].
  - split; [split; [reflexivity|split; [simpl; lia|reflexivity]]|by vm_compute].
  - simpl. lia.
  - repeat constructor. eexists. reflexivity.
  - reflexivity.
  - exists σ'. split; [exact Hrun|exact Hvec].
Defined.

End further_witnesses_throwing.

Section further_witnesses_move_only.
#[local] Existing Instance move_only.
#[local] Existing Instance roomy.
#[local] Existing Instance move_only_laws.

Lemma Reserve_keeps_moved_from_elements_witness :
  ∃ σ', VectorH.Reserve 0 4 (vector_state [Live 5; Live 66] 2 []) = Throw element_exn σ'
        ∧ vec_at σ' 0 (Some 0) [0; 66] 2.
Proof.
  destruct (Reserve_keeps_moved_from_elements
              (vector_state [Live 5; Live 66] 2 []) 0 0 [5] 66 [] 2 4)
    as (σ' & Hrun & _ & Hvec & _).
  - split; [split; [reflexivity|split; [simpl; lia|reflexivity]]|by vm_compute].
  - lia.
  - reflexivity.
  - reflexivity.
  - repeat constructor. eexists. reflexivity.
  - reflexivity.
  - exists σ'. split; [exact Hrun|exact Hvec].
Defined.

End further_witnesses_move_only.

Section further_witnesses_release.
#[local] Existing Instance plain.
#[local] Existing Instance release_build.

Lemma Erase_at_end_without_assertions_witness :
  ∃ σ', VectorH.Erase 0 (Ptr (Some 0) 2) (vector_state [Live 1; Live 2; Uninit] 2 [])
        = Ok (Ptr (Some 0) 2) σ'
        ∧ vec_at σ' 0 (Some 0) [1] 3.
Proof.
  destruct (Erase_at_end_without_assertions
              (vector_state [Live 1; Live 2; Uninit] 2 []) 0 0 [1] 2 3)
    as (σ' & Hrun & Hvec & _).
  - reflexivity.
  - split; [split; [reflexivity|split; [simpl; lia|reflexivity]]|by vm_compute].
  - exists σ'. split; [exact Hrun|exact Hvec].
Defined.

End further_witnesses_release.

Section further_witnesses_counting.
#[local] Existing Instance counting.
#[local] Existing Instance roomy.
#[local] Existing Instance counting_laws.

Lemma Vector_sized_spec_witness :
  (∃ σ' b, VectorH.Vector_sized 0 2 empty_state = Ok tt σ' ∧ vec_at σ' 0 b [0; 1] 2)
  ∧ (∃ σ', VectorH.Vector_sized 0 5 empty_state = Throw element_exn σ'
           ∧ heap σ' = ∅ ∧ objs σ' = ∅
           ∧ log σ' = [EvValue 0; EvValue 1; EvValue 2;
                       EvDestroy 0; EvDestroy 1; EvDestroy 2]).
Proof.
  split.
  - destruct (Vector_sized_spec empty_state 0 2) as (Hok & _).
    destruct (Hok [0; 1]) as (σ' & b & Hrun & Hvec & _).
    + reflexivity.
    + simpl. split; [reflexivity|]. split; [reflexivity|exact I].
    + intros _. reflexivity.
    + exists σ', b. split; [exact Hrun|exact Hvec].
  - destruct (Vector_sized_spec empty_state 0 5) as (_ & _ & Hthrow).
    destruct (Hthrow [0; 1; 2]) as (σ' & Hrun & Hheap & Hobjs & Hlog).
    + reflexivity.
    + simpl. lia.
    + simpl. split; [reflexivity|]. split; [reflexivity|]. split; [reflexivity|exact I].
    + reflexivity.
    + exists σ'. split; [exact Hrun|]. split; [exact Hheap|]. split; [exact Hobjs|exact Hlog].
Defined.

Lemma Resize_spec_witness :
  ∃ σ' b', VectorH.Resize 0 5 (vector_state [Live 1; Live 2; Uninit] 2 []) = Ok tt σ'
           ∧ vec_at σ' 0 b' [1; 2; 14; 15; 16] 5.
Proof.
  destruct (Resize_spec (vector_state [Live 1; Live 2; Uninit] 2 []) 0 (Some 0) [1; 2] 3 5
              [14; 15; 16])
    as (σ' & b' & Hrun & _ & Hvec & _).
  - split; [split; [reflexivity|split; [simpl; lia|reflexivity]]|by vm_compute].
  - lia.
  - reflexivity.
  - simpl. split; [reflexivity|]. split; [reflexivity|]. split; [reflexivity|exact I].
  - intros _. split; [reflexivity|].
    unfold relocates. simpl. repeat constructor; eexists; reflexivity.
  - exists σ', b'. split; [exact Hrun|exact Hvec].
Defined.

End further_witnesses_counting.
